(** * ZeroInbox email-corpus scripts: PII scrubbing and rotating coverage

    A shallow embedding of
      - [scripts/scrub_enron_pii.py]       (module [Enron]),
      - [scripts/scrub_personal_emails.py] (module [Personal]),
      - [scripts/rotating_baseline.py]     (module [Rotating]),
    together with the parts of the Python runtime these scripts rely on:
    [str] methods ([PyStr]), [hashlib] digests ([Hashlib]) and the
    backtracking matcher of [re] ([Re]).

    Python strings are modelled as [string]; a character is a code point
    below 256 (Latin-1), classified as Python classifies it. *)

From Stdlib Require Import ZArith Ascii String List Lia Bool.
From stdpp Require Import base option list strings gmap.

Local Open Scope string_scope.
Local Open Scope Z_scope.

(** ** Python [str] *)

Module PyStr.

Definition code (c : ascii) : Z := Z.of_N (N_of_ascii c).

Definition in_range (lo hi : Z) (c : ascii) : bool :=
  (lo <=? code c) && (code c <=? hi).

Definition is_upper_ascii (c : ascii) : bool := in_range 65 90 c.
Definition is_lower_ascii (c : ascii) : bool := in_range 97 122 c.

(** [\d] on [str] patterns: Unicode decimal digits; below 256 these are
    0-9 only. *)
Definition isdecimal (c : ascii) : bool := in_range 48 57 c.

(** [str.isspace] / [\s]: 9-13, 28-32, 0x85 and 0xA0. *)
Definition isspace (c : ascii) : bool :=
  in_range 9 13 c || in_range 28 32 c || (code c =? 133) || (code c =? 160).

(** [str.isalnum]: letters, digits and numeric characters of Latin-1. *)
Definition isalnum (c : ascii) : bool :=
  isdecimal c || is_upper_ascii c || is_lower_ascii c
  || (code c =? 170) || (code c =? 178) || (code c =? 179)
  || (code c =? 181) || (code c =? 185) || (code c =? 186)
  || in_range 188 190 c || in_range 192 214 c
  || in_range 216 246 c || in_range 248 255 c.

(** [\w]: alphanumeric or underscore. *)
Definition isword (c : ascii) : bool := isalnum c || (code c =? 95).

Definition of_code (z : Z) : ascii := ascii_of_N (Z.to_N z).

(** [str.lower] on one character: A-Z and the upper-case letters
    0xC0-0xDE (except the multiplication sign 0xD7) move up by 32. *)
Definition lower_char (c : ascii) : ascii :=
  if is_upper_ascii c || (in_range 192 222 c && negb (code c =? 215))
  then of_code (code c + 32) else c.

Fixpoint lower (s : string) : string :=
  match s with
  | EmptyString => EmptyString
  | String c s' => String (lower_char c) (lower s')
  end.

Definition len (s : string) : Z := Z.of_nat (String.length s).

Fixpoint take (n : nat) (s : string) : string :=
  match n, s with
  | S n', String c s' => String c (take n' s')
  | _, _ => EmptyString
  end.

Fixpoint drop (n : nat) (s : string) : string :=
  match n, s with
  | S n', String _ s' => drop n' s'
  | _, _ => s
  end.

(** [s[:n]] for a constant [n >= 0]. *)
Definition prefix_slice (n : Z) (s : string) : string := take (Z.to_nat n) s.

Fixpoint lstrip (s : string) : string :=
  match s with
  | String c s' => if isspace c then lstrip s' else s
  | EmptyString => EmptyString
  end.

Fixpoint rstrip (s : string) : string :=
  match s with
  | EmptyString => EmptyString
  | String c s' =>
      match rstrip s' with
      | EmptyString => if isspace c then EmptyString else String c EmptyString
      | r => String c r
      end
  end.

(** [str.strip()] with no argument. *)
Definition strip (s : string) : string := rstrip (lstrip s).

(** [c in s] for a one-character [c]. *)
Fixpoint contains (c : ascii) (s : string) : bool :=
  match s with
  | EmptyString => false
  | String d s' => if Ascii.eqb c d then true else contains c s'
  end.

(** [s.startswith(c)] for a one-character [c]. *)
Definition startswith (c : ascii) (s : string) : bool :=
  match s with
  | String d _ => Ascii.eqb c d
  | EmptyString => false
  end.

(** [s.split(c)] for a one-character separator: never returns an empty
    list. *)
Fixpoint split (c : ascii) (s : string) : list string :=
  match s with
  | EmptyString => [EmptyString]
  | String d s' =>
      if Ascii.eqb c d then EmptyString :: split c s'
      else match split c s' with
           | p :: ps => String d p :: ps
           | [] => [String d EmptyString]
           end
  end.

(** [sep.join(parts)] for a one-character separator. *)
Fixpoint join (c : ascii) (parts : list string) : string :=
  match parts with
  | [] => EmptyString
  | [p] => p
  | p :: ps => p ++ String c (join c ps)
  end.

(** [s.partition(c)]: text before the first [c], and text after it (the
    whole of [s] and the empty string when [c] does not occur). *)
Fixpoint partition (c : ascii) (s : string) : string * string :=
  match s with
  | EmptyString => (EmptyString, EmptyString)
  | String d s' =>
      if Ascii.eqb c d then (EmptyString, s')
      else let '(a, b) := partition c s' in (String d a, b)
  end.

(** [s.rsplit(c, 1)] when [c] occurs in [s]: text before the last [c]
    and text after it. *)
Fixpoint rsplit1 (c : ascii) (s : string) : option (string * string) :=
  match s with
  | EmptyString => None
  | String d s' =>
      match rsplit1 c s' with
      | Some (a, b) => Some (String d a, b)
      | None => if Ascii.eqb c d then Some (EmptyString, s') else None
      end
  end.

(** [str.encode()]: UTF-8.  A code point below 128 is one byte, the
    others below 256 are two. *)
Definition utf8_char (c : ascii) : list Z :=
  if code c <? 128 then [code c]
  else [Z.lor 192 (Z.shiftr (code c) 6); Z.lor 128 (Z.land (code c) 63)].

Fixpoint encode (s : string) : list Z :=
  match s with
  | EmptyString => []
  | String c s' => (utf8_char c ++ encode s')%list
  end.

(** Python list slicing [l[a:b]] with integer bounds: a negative bound
    counts from the end, and bounds are clamped to the list. *)
Definition clamp_index (n i : Z) : Z :=
  if i <? 0 then Z.max 0 (n + i) else Z.min n i.

Definition slice {A} (l : list A) (a b : Z) : list A :=
  let n := Z.of_nat (length l) in
  let a' := clamp_index n a in
  let b' := clamp_index n b in
  List.firstn (Z.to_nat (b' - a')) (List.skipn (Z.to_nat a') l).

(** [l[a:]] and [l[:b]]. *)
Definition slice_from {A} (l : list A) (a : Z) : list A :=
  slice l a (Z.of_nat (length l)).
Definition slice_to {A} (l : list A) (b : Z) : list A :=
  slice l 0 b.

End PyStr.

(** ** [hashlib]: MD5 and SHA-256 on byte strings, as hex digests *)

Module Hashlib.

Definition w32 (x : Z) : Z := x mod 2 ^ 32.
Definition add32 (a b : Z) : Z := w32 (a + b).
Definition not32 (a : Z) : Z := Z.lxor a 0xffffffff.
Definition rotl (n x : Z) : Z :=
  w32 (Z.lor (Z.shiftl x n) (Z.shiftr x (32 - n))).
Definition rotr (n x : Z) : Z :=
  w32 (Z.lor (Z.shiftr x n) (Z.shiftl x (32 - n))).

Definition hex_digit (n : Z) : ascii :=
  if n <? 10 then PyStr.of_code (48 + n) else PyStr.of_code (87 + n).

Definition hex_byte (b : Z) : string :=
  String (hex_digit (Z.shiftr b 4)) (String (hex_digit (Z.land b 15)) "").

Fixpoint hex (bs : list Z) : string :=
  match bs with
  | [] => ""
  | b :: bs' => hex_byte b ++ hex bs'
  end.

(** Padding shared by both digests: one [0x80] byte, zeros up to 56
    modulo 64, then the bit length on 8 bytes (supplied by the caller in
    the digest's byte order). *)
Definition pad (len_bytes : list Z) (msg : list Z) : list Z :=
  let n := Z.of_nat (length msg) in
  let zeros := Z.to_nat ((55 - n) mod 64) in
  (msg ++ 128 :: repeat 0 zeros ++ len_bytes)%list.

Definition le_bytes (k : nat) (x : Z) : list Z :=
  map (fun i => Z.land (Z.shiftr x (8 * Z.of_nat i)) 255) (seq 0 k).
Definition be_bytes (k : nat) (x : Z) : list Z := rev (le_bytes k x).

Definition le_word (bs : list Z) : Z :=
  fold_right (fun b acc => b + 256 * acc) 0 bs.
Definition be_word (bs : list Z) : Z := le_word (rev bs).

Fixpoint chunks {A} (k n : nat) (l : list A) : list (list A) :=
  match n with
  | O => []
  | S n' => List.firstn k l :: chunks k n' (List.skipn k l)
  end.

Definition blocks (bs : list Z) : list (list Z) :=
  chunks 64 (length bs / 64) bs.

Module MD5.

Definition K : list Z :=
[0xd76aa478; 0xe8c7b756; 0x242070db; 0xc1bdceee; 0xf57c0faf; 0x4787c62a;
 0xa8304613; 0xfd469501; 0x698098d8; 0x8b44f7af; 0xffff5bb1; 0x895cd7be;
 0x6b901122; 0xfd987193; 0xa679438e; 0x49b40821; 0xf61e2562; 0xc040b340;
 0x265e5a51; 0xe9b6c7aa; 0xd62f105d; 0x02441453; 0xd8a1e681; 0xe7d3fbc8;
 0x21e1cde6; 0xc33707d6; 0xf4d50d87; 0x455a14ed; 0xa9e3e905; 0xfcefa3f8;
 0x676f02d9; 0x8d2a4c8a; 0xfffa3942; 0x8771f681; 0x6d9d6122; 0xfde5380c;
 0xa4beea44; 0x4bdecfa9; 0xf6bb4b60; 0xbebfbc70; 0x289b7ec6; 0xeaa127fa;
 0xd4ef3085; 0x04881d05; 0xd9d4d039; 0xe6db99e5; 0x1fa27cf8; 0xc4ac5665;
 0xf4292244; 0x432aff97; 0xab9423a7; 0xfc93a039; 0x655b59c3; 0x8f0ccc92;
 0xffeff47d; 0x85845dd1; 0x6fa87e4f; 0xfe2ce6e0; 0xa3014314; 0x4e0811a1;
 0xf7537e82; 0xbd3af235; 0x2ad7d2bb; 0xeb86d391].

Definition S : list Z :=
[7; 12; 17; 22; 7; 12; 17; 22; 7; 12; 17; 22; 7; 12; 17; 22;
 5; 9; 14; 20; 5; 9; 14; 20; 5; 9; 14; 20; 5; 9; 14; 20;
 4; 11; 16; 23; 4; 11; 16; 23; 4; 11; 16; 23; 4; 11; 16; 23;
 6; 10; 15; 21; 6; 10; 15; 21; 6; 10; 15; 21; 6; 10; 15; 21].

Definition round (m : list Z) (st : Z * Z * Z * Z) (i : nat) :=
  let '(a, b, c, d) := st in
  let iz := Z.of_nat i in
  let '(f, g) :=
    if iz <? 16 then (Z.lor (Z.land b c) (Z.land (not32 b) d), iz)
    else if iz <? 32 then
      (Z.lor (Z.land d b) (Z.land (not32 d) c), (5 * iz + 1) mod 16)
    else if iz <? 48 then (Z.lxor b (Z.lxor c d), (3 * iz + 5) mod 16)
    else (Z.lxor c (Z.lor b (not32 d)), (7 * iz) mod 16) in
  let f' := add32 (add32 f a) (add32 (nth i K 0) (nth (Z.to_nat g) m 0)) in
  (d, add32 b (rotl (nth i S 0) f'), b, c).

Definition compress (st : Z * Z * Z * Z) (block : list Z) :=
  let m := map le_word (chunks 4 16 block) in
  let '(a, b, c, d) := st in
  let '(a', b', c', d') := fold_left (round m) (seq 0 64) st in
  (add32 a a', add32 b b', add32 c c', add32 d d').

Definition digest (msg : list Z) : list Z :=
  let bits := 8 * Z.of_nat (length msg) in
  let '(a, b, c, d) :=
    fold_left compress (blocks (pad (le_bytes 8 bits) msg))
      (0x67452301, 0xefcdab89, 0x98badcfe, 0x10325476) in
  (le_bytes 4 a ++ le_bytes 4 b ++ le_bytes 4 c ++ le_bytes 4 d)%list.

End MD5.

Module SHA256.

(** The first sixty-four primes. *)
Definition primes : list Z :=
  [2; 3; 5; 7; 11; 13; 17; 19; 23; 29; 31; 37; 41; 43; 47; 53; 59; 61; 67;
   71; 73; 79; 83; 89; 97; 101; 103; 107; 109; 113; 127; 131; 137; 139; 149;
   151; 157; 163; 167; 173; 179; 181; 191; 193; 197; 199; 211; 223; 227;
   229; 233; 239; 241; 251; 257; 263; 269; 271; 277; 281; 283; 293; 307;
   311].

(** The integer cube root, by bisection between [lo] and [hi]. *)
Fixpoint cube_root_go (fuel : nat) (lo hi n : Z) : Z :=
  match fuel with
  | O => lo
  | Datatypes.S fuel' =>
      let mid := (lo + hi) / 2 in
      if mid * mid * mid <=? n then cube_root_go fuel' mid hi n
      else cube_root_go fuel' lo mid n
  end.
Definition cube_root (n : Z) : Z := cube_root_go 48 0 (2 ^ 44) n.

(** The round constants: the first 32 bits of the fractional parts of the
    cube roots of the primes; the initial hash value: the same of the
    square roots of the first eight. *)
Definition K : list Z := map (fun q => w32 (cube_root (q * 2 ^ 96))) primes.
Definition H0 : list Z :=
  map (fun q => w32 (Z.sqrt (q * 2 ^ 64))) (List.firstn 8 primes).

Definition ssig0 x := Z.lxor (rotr 7 x) (Z.lxor (rotr 18 x) (Z.shiftr x 3)).
Definition ssig1 x := Z.lxor (rotr 17 x) (Z.lxor (rotr 19 x) (Z.shiftr x 10)).
Definition bsig0 x := Z.lxor (rotr 2 x) (Z.lxor (rotr 13 x) (rotr 22 x)).
Definition bsig1 x := Z.lxor (rotr 6 x) (Z.lxor (rotr 11 x) (rotr 25 x)).
Definition ch x y z := Z.lxor (Z.land x y) (Z.land (not32 x) z).
Definition maj x y z :=
  Z.lxor (Z.land x y) (Z.lxor (Z.land x z) (Z.land y z)).

(** The message schedule, most recent word first. *)
Fixpoint schedule (n : nat) (wrev : list Z) : list Z :=
  match n with
  | O => wrev
  | Datatypes.S n' =>
      let w := add32 (add32 (ssig1 (nth 1 wrev 0)) (nth 6 wrev 0))
                     (add32 (ssig0 (nth 14 wrev 0)) (nth 15 wrev 0)) in
      schedule n' (w :: wrev)
  end.

Definition round (st : list Z) (kw : Z * Z) : list Z :=
  match st with
  | [a; b; c; d; e; f; g; h] =>
      let t1 := add32 (add32 h (bsig1 e))
                      (add32 (ch e f g) (add32 (fst kw) (snd kw))) in
      let t2 := add32 (bsig0 a) (maj a b c) in
      [add32 t1 t2; a; b; c; add32 d t1; e; f; g]
  | _ => st
  end.

Definition compress (st : list Z) (block : list Z) : list Z :=
  let w16 := map be_word (chunks 4 16 block) in
  let w := rev (schedule 48 (rev w16)) in
  map (fun p => add32 (fst p) (snd p))
      (combine st (fold_left round (combine K w) st)).

Definition digest (msg : list Z) : list Z :=
  let bits := 8 * Z.of_nat (length msg) in
  concat (map (be_bytes 4)
              (fold_left compress (blocks (pad (be_bytes 8 bits) msg)) H0)).

End SHA256.

(** [hashlib.md5(b).hexdigest()] and [hashlib.sha256(b).hexdigest()]. *)
Definition md5_hexdigest (b : list Z) : string := hex (MD5.digest b).
Definition sha256_hexdigest (b : list Z) : string := hex (SHA256.digest b).

End Hashlib.

(** ** [re]: patterns, the backtracking matcher, [sub] *)

Module Re.

(** One member of a character set. *)
Inductive item :=
| Lit (c : ascii)
| Rng (a b : ascii)
| Digit
| Space
| Word.

(** The pattern constructs the scripts use.  [Rep r lo hi] is the greedy
    repetition [r{lo,hi}] ([hi = None]: unbounded); [Grp g r] is capturing
    group number [g]; [Bnd] is the word boundary. *)
Inductive re :=
| Eps
| Cls (items : list item)
| Seq (r1 r2 : re)
| Alt (r1 r2 : re)
| Rep (r : re) (lo : nat) (hi : option nat)
| Grp (g : nat) (r : re)
| Bnd.

Definition lit (c : ascii) : re := Cls [Lit c].
Definition opt (r : re) : re := Rep r 0 (Some 1%nat).
Definition plus (r : re) : re := Rep r 1 None.
Definition times (n : nat) (r : re) : re := Rep r n (Some n).

Fixpoint seqs (rs : list re) : re :=
  match rs with
  | [] => Eps
  | [r] => r
  | r :: rs' => Seq r (seqs rs')
  end.

Fixpoint alts (rs : list re) : re :=
  match rs with
  | [] => Eps
  | [r] => r
  | r :: rs' => Alt r (alts rs')
  end.

(** A literal string. *)
Fixpoint str (s : string) : re :=
  match s with
  | EmptyString => Eps
  | String c EmptyString => lit c
  | String c s' => Seq (lit c) (str s')
  end.

Definition upper_char (c : ascii) : ascii :=
  if PyStr.is_lower_ascii c
     || (PyStr.in_range 224 254 c && negb (PyStr.code c =? 247))
  then PyStr.of_code (PyStr.code c - 32) else c.

Definition item_base (i : item) (c : ascii) : bool :=
  match i with
  | Lit a => Ascii.eqb a c
  | Rng a b => PyStr.in_range (PyStr.code a) (PyStr.code b) c
  | Digit => PyStr.isdecimal c
  | Space => PyStr.isspace c
  | Word => PyStr.isword c
  end.

(** Under [re.IGNORECASE] a character also matches through its lower-
    and upper-case variants. *)
Definition item_matches (icase : bool) (i : item) (c : ascii) : bool :=
  item_base i c
  || (icase && (item_base i (PyStr.lower_char c)
                || item_base i (upper_char c))).

Definition set_matches (icase : bool) (items : list item) (c : ascii) : bool :=
  existsb (fun i => item_matches icase i c) items.

(** Matcher state: the character before the cursor, the text from the
    cursor on, the cursor's index, and the groups captured so far (most
    recent first) as [(group, (start, end))]. *)
Record mstate := MState {
  prev : option ascii;
  rest : string;
  pos : nat;
  caps : list (nat * (nat * nat))
}.

Definition word_before (st : mstate) : bool :=
  match prev st with Some c => PyStr.isword c | None => false end.
Definition word_after (st : mstate) : bool :=
  match rest st with String c _ => PyStr.isword c | EmptyString => false end.

(** The loop of a greedy repetition: [n] bounds the iterations still
    allowed and [lo] counts those still required.  One more iteration of
    [body] is tried before the continuation [k]; an iteration beyond the
    required ones that consumes nothing ends the loop. *)
Fixpoint rep_loop {A} (body : mstate -> (mstate -> option A) -> option A)
    (k : mstate -> option A) (n lo : nat) (st : mstate) : option A :=
  let stop := match lo with O => k st | S _ => None end in
  match n with
  | O => stop
  | S n' =>
      match body st
              (fun st' =>
                 if Nat.eqb lo 0 && Nat.eqb (pos st') (pos st)
                 then None else rep_loop body k n' (Nat.pred lo) st') with
      | Some x => Some x
      | None => stop
      end
  end.

(** The matcher, in continuation-passing style: alternatives are tried in
    order and a repetition tries one more iteration before it tries the
    continuation, which is the priority order of Python's engine. *)
Fixpoint m {A} (icase : bool) (r : re) (st : mstate)
    (k : mstate -> option A) {struct r} : option A :=
  match r with
  | Eps => k st
  | Cls items =>
      match rest st with
      | String c s' =>
          if set_matches icase items c
          then k (MState (Some c) s' (S (pos st)) (caps st))
          else None
      | EmptyString => None
      end
  | Seq r1 r2 => m icase r1 st (fun st' => m icase r2 st' k)
  | Alt r1 r2 =>
      match m icase r1 st k with
      | Some x => Some x
      | None => m icase r2 st k
      end
  | Rep r lo hi =>
      rep_loop (fun st' k' => m icase r st' k') k
        (match hi with
         | Some h => h
         | None => (lo + String.length (rest st))%nat
         end) lo st
  | Grp g r =>
      m icase r st
        (fun st' =>
           k (MState (prev st') (rest st') (pos st')
                     ((g, (pos st, pos st')) :: caps st')))
  | Bnd => if xorb (word_before st) (word_after st) then k st else None
  end.

(** The concatenation of a list of texts. *)
Fixpoint flat (ws : list string) : string :=
  match ws with
  | [] => ""
  | w :: ws' => w ++ flat ws'
  end.

(** The texts an expression can consume, leaving aside what stands around
    them: a word boundary consumes nothing. *)
Fixpoint accepts (icase : bool) (r : re) (w : string) : Prop :=
  match r with
  | Eps => w = ""
  | Cls items => exists c, w = String c "" /\ set_matches icase items c = true
  | Seq r1 r2 =>
      exists w1 w2, w = w1 ++ w2 /\ accepts icase r1 w1 /\ accepts icase r2 w2
  | Alt r1 r2 => accepts icase r1 w \/ accepts icase r2 w
  | Rep r lo hi =>
      exists ws, w = flat ws /\ Forall (accepts icase r) ws
                 /\ (lo <= length ws)%nat
  | Grp g r => accepts icase r w
  | Bnd => w = ""
  end.

(** What a successful match from [st] with continuation [k] amounts to:
    the continuation succeeded from a state reached by consuming a text [w]
    that satisfies [P]. *)
Definition consumed {A} (P : string -> Prop) (st : mstate)
    (k : mstate -> option A) (x : A) : Prop :=
  exists st' w,
    k st' = Some x /\ rest st = w ++ rest st'
    /\ pos st' = (pos st + String.length w)%nat /\ P w.

(** A compiled pattern: the expression and its IGNORECASE flag. *)
Record pattern := Pattern { expr : re; ignorecase : bool }.

(** The match object handed to a replacement function: [group(0)] and
    the text of each captured group. *)
Record match_obj := MatchObj {
  group0 : string;
  groups : list (nat * string)
}.

Definition group (mo : match_obj) (g : nat) : string :=
  match List.find (fun p => Nat.eqb (fst p) g) (groups mo) with
  | Some (_, s) => s
  | None => ""
  end.

(** One match attempt with the cursor at the head of [s]; [advance]
    refuses the empty match. *)
Definition match_here (p : pattern) (advance : bool)
    (pv : option ascii) (s : string) (i : nat) : option (nat * match_obj) :=
  match m (ignorecase p) (expr p) (MState pv s i [])
          (fun st' => if advance && Nat.eqb (pos st') i
                      then None else Some st') with
  | Some st' =>
      let n := (pos st' - i)%nat in
      Some (n, MatchObj (PyStr.take n s)
                  (map (fun c => (fst c,
                          PyStr.take (snd (snd c) - fst (snd c))
                            (PyStr.drop (fst (snd c) - i) s)))
                       (caps st')))
  | None => None
  end.

Section Sub.
Context {St : Type}.
Variable p : pattern.
(** The replacement: a function of the match object that may update the
    caller's state (a counter, a cache). *)
Variable repl : match_obj -> St -> string * St.

(** [p.sub(repl, text)]: the leftmost matches, left to right, without
    overlap.  [skip] counts characters of the current match still to be
    dropped.  After an empty match the engine looks once more at the same
    index for a match that advances. *)
Fixpoint sub_go (pv : option ascii) (s : string) (i skip : nat) (σ : St)
    {struct s} : string * St :=
  match skip with
  | S skip' =>
      match s with
      | String c s' => sub_go (Some c) s' (S i) skip' σ
      | EmptyString => (EmptyString, σ)
      end
  | O =>
      match match_here p false pv s i with
      | Some (S n, mo) =>
          let '(r, σ1) := repl mo σ in
          match s with
          | String c s' =>
              let '(out, σ2) := sub_go (Some c) s' (S i) n σ1 in
              (r ++ out, σ2)
          | EmptyString => (r, σ1)
          end
      | Some (O, mo) =>
          let '(r, σ1) := repl mo σ in
          match match_here p true pv s i with
          | Some (S n, mo2) =>
              let '(r2, σ2) := repl mo2 σ1 in
              match s with
              | String c s' =>
                  let '(out, σ3) := sub_go (Some c) s' (S i) n σ2 in
                  (r ++ r2 ++ out, σ3)
              | EmptyString => (r ++ r2, σ2)
              end
          | _ =>
              match s with
              | String c s' =>
                  let '(out, σ2) := sub_go (Some c) s' (S i) 0 σ1 in
                  (r ++ String c out, σ2)
              | EmptyString => (r, σ1)
              end
          end
      | None =>
          match s with
          | String c s' =>
              let '(out, σ1) := sub_go (Some c) s' (S i) 0 σ in
              (String c out, σ1)
          | EmptyString => (EmptyString, σ)
          end
      end
  end.

Definition sub (text : string) (σ : St) : string * St :=
  sub_go None text 0 0 σ.
End Sub.

(** [p.sub(token, text)] with a fixed replacement string. *)
Definition sub_const (p : pattern) (token : string) (text : string) : string :=
  fst (sub p (fun _ (u : unit) => (token, u)) text tt).

(** [p.search(text)] succeeds: some index has a match. *)
Fixpoint search_go (p : pattern) (pv : option ascii) (s : string) (i : nat)
    : bool :=
  match match_here p false pv s i with
  | Some _ => true
  | None =>
      match s with
      | String c s' => search_go p (Some c) s' (S i)
      | EmptyString => false
      end
  end.

Definition search (p : pattern) (text : string) : bool :=
  search_go p None text 0.

End Re.

(** ** [scrub_enron_pii.py] *)

Module Enron.
Import Re.

Definition ANONYMIZATION_SALT : string := "zero-enron-pii-salt-2024".

Definition digit : re := Cls [Digit].
Definition upper : re := Cls [Rng "A" "Z"].
Definition lowers : re := plus (Cls [Rng "a" "z"]).

(** [\b[A-Za-z0-9._%+-]+@[A-Za-z0-9.-]+\.[A-Z|a-z]{2,}\b], IGNORECASE *)
Definition email_pattern : pattern :=
  Pattern
    (seqs [Bnd;
           plus (Cls [Rng "A" "Z"; Rng "a" "z"; Rng "0" "9";
                      Lit "."; Lit "_"; Lit "%"; Lit "+"; Lit "-"]);
           lit "@";
           plus (Cls [Rng "A" "Z"; Rng "a" "z"; Rng "0" "9";
                      Lit "."; Lit "-"]);
           lit ".";
           Rep (Cls [Rng "A" "Z"; Lit "|"; Rng "a" "z"]) 2 None;
           Bnd])
    true.

(** [(\+\d{1,3}[-.\s]?)?\(?\d{3}\)?[-.\s]?\d{3}[-.\s]?\d{4}\b] *)
Definition phone_sep : re := Cls [Lit "-"; Lit "."; Space].
Definition phone_pattern : pattern :=
  Pattern
    (seqs [opt (Grp 1 (seqs [lit "+"; Rep digit 1 (Some 3%nat);
                             opt phone_sep]));
           opt (lit "("); times 3 digit; opt (lit ")");
           opt phone_sep; times 3 digit;
           opt phone_sep; times 4 digit; Bnd])
    false.

(** [\b\d{4}[-\s]?\d{4}[-\s]?\d{4}[-\s]?\d{4}\b] *)
Definition card_sep : re := Cls [Lit "-"; Space].
Definition credit_card_pattern : pattern :=
  Pattern
    (seqs [Bnd; times 4 digit; opt card_sep; times 4 digit; opt card_sep;
           times 4 digit; opt card_sep; times 4 digit; Bnd])
    false.

(** [\b\d{3}-\d{2}-\d{4}\b] *)
Definition ssn_pattern : pattern :=
  Pattern
    (seqs [Bnd; times 3 digit; lit "-"; times 2 digit; lit "-";
           times 4 digit; Bnd])
    false.

(** [\b(Mr\.|Mrs\.|Ms\.|Dr\.|Prof\.)\s+[A-Z][a-z]+(\s+[A-Z][a-z]+)?\b] *)
Definition title_name_pattern : pattern :=
  Pattern
    (seqs [Bnd;
           Grp 1 (alts [str "Mr."; str "Mrs."; str "Ms."; str "Dr.";
                        str "Prof."]);
           plus (Cls [Space]); upper; lowers;
           opt (Grp 2 (seqs [plus (Cls [Space]); upper; lowers]));
           Bnd])
    false.

(** A first name, [\s+], a last name. *)
Definition full_name (first last : string) : re :=
  seqs [str first; plus (Cls [Space]); str last].

(** [\b(Kenneth\s+Lay|Ken\s+Lay|Jeff\s+Skilling|...|Sherron\s+Watkins)\b],
    IGNORECASE *)
Definition enron_executives_pattern : pattern :=
  Pattern
    (seqs [Bnd;
           Grp 1 (alts [full_name "Kenneth" "Lay"; full_name "Ken" "Lay";
                        full_name "Jeff" "Skilling";
                        full_name "Jeffrey" "Skilling";
                        full_name "Andrew" "Fastow";
                        full_name "Rebecca" "Mark"; full_name "Lou" "Pai";
                        full_name "Cliff" "Baxter";
                        full_name "Mark" "Frevert";
                        full_name "Rick" "Buy"; full_name "Rick" "Causey";
                        full_name "Ben" "Glisan";
                        full_name "Sherron" "Watkins"]);
           Bnd])
    true.

(** [@(ect\.)?enron\.(com|net)], IGNORECASE: the pattern of the last
    [re.sub] of [scrub_pii]. *)
Definition enron_domain_pattern : pattern :=
  Pattern
    (seqs [lit "@"; opt (Grp 1 (str "ect.")); str "enron.";
           Grp 2 (Alt (str "com") (str "net"))])
    true.

(** [hash_email] *)
Definition hash_email (email : string) : string :=
  let hash_input := PyStr.lower email ++ ANONYMIZATION_SALT in
  let hash_value :=
    PyStr.take 8 (Hashlib.sha256_hexdigest (PyStr.encode hash_input)) in
  let fallback := "user_" ++ hash_value ++ "@example.com" in
  if PyStr.contains "@" email then
    match PyStr.rsplit1 "@" email with
    | Some (local, domain) =>
        let domain_parts := PyStr.split "." domain in
        if (2 <=? length domain_parts)%nat then
          let tld := List.last domain_parts "" in
          "user_" ++ hash_value ++ "@example." ++ tld
        else fallback
    | None => fallback
    end
  else fallback.

(** The per-call [counts] dictionary. *)
Definition counts_init : gmap string Z :=
  {[ "emails" := 0; "phones" := 0; "credit_cards" := 0; "ssns" := 0;
     "names" := 0 ]}.

(** [counts[key] += 1] *)
Definition bump (key : string) (counts : gmap string Z) : gmap string Z :=
  alter (Z.add 1) key counts.

Definition replace_email (mo : match_obj) (counts : gmap string Z) :=
  (hash_email (group0 mo), bump "emails" counts).
Definition replace_phone (mo : match_obj) (counts : gmap string Z) :=
  ("[PHONE_REDACTED]", bump "phones" counts).
Definition replace_cc (mo : match_obj) (counts : gmap string Z) :=
  ("[CARD_REDACTED]", bump "credit_cards" counts).
Definition replace_ssn (mo : match_obj) (counts : gmap string Z) :=
  ("[SSN_REDACTED]", bump "ssns" counts).
Definition replace_name (mo : match_obj) (counts : gmap string Z) :=
  let title := group mo 1 in
  (title ++ " [NAME_REDACTED]", bump "names" counts).
Definition replace_exec (mo : match_obj) (counts : gmap string Z) :=
  ("[EXECUTIVE_REDACTED]", bump "names" counts).

(** The body of [scrub_pii] for a non-empty text. *)
Definition scrub_text (text : string) : string * gmap string Z :=
  let counts := counts_init in
  let result := text in
  let '(result, counts) := sub email_pattern replace_email result counts in
  let '(result, counts) := sub phone_pattern replace_phone result counts in
  let '(result, counts) := sub credit_card_pattern replace_cc result counts in
  let '(result, counts) := sub ssn_pattern replace_ssn result counts in
  let '(result, counts) := sub title_name_pattern replace_name result counts in
  let '(result, counts) :=
    sub enron_executives_pattern replace_exec result counts in
  let result := sub_const enron_domain_pattern "@example.com" result in
  (result, counts).

(** [scrub_pii]: [None] is Python's [None]. *)
Definition scrub_pii (text : option string) : option string * gmap string Z :=
  match text with
  | None => (None, ∅)
  | Some "" => (Some "", ∅)
  | Some t => let '(r, c) := scrub_text t in (Some r, c)
  end.

(** The record [parse_email_message] returns. *)
Record parsed := Parsed {
  from_addr : string;
  to_addr : string;
  subject : string;
  date : string;
  message_id : string;
  body : string
}.

Definition known_headers : list string :=
  ["from"; "to"; "subject"; "date"; "message-id"; "x-from"; "x-to"].

(** The loop's variables: [headers], [body_lines], [in_body]. *)
Record pstate := PState {
  headers : gmap string string;
  body_lines : list string;
  in_body : bool
}.

(** One iteration of the loop over the lines. *)
Definition parse_line (st : pstate) (line : string) : pstate :=
  if in_body st then
    PState (headers st) (body_lines st ++ [line]) true
  else if String.eqb (PyStr.strip line) "" then
    PState (headers st) (body_lines st) true
  else if PyStr.contains ":" line
          && negb (PyStr.startswith " " line)
          && negb (PyStr.startswith "009" line) then
    let '(key, value) := PyStr.partition ":" line in
    let key := PyStr.lower (PyStr.strip key) in
    let value := PyStr.strip value in
    if bool_decide (key ∈ known_headers)
    then PState (<[key := value]> (headers st)) (body_lines st) false
    else st
  else if PyStr.startswith " " line || PyStr.startswith "009" line then
    st
  else st.

(** [headers.get(k, '')] *)
Definition header_get (h : gmap string string) (k : string) : string :=
  default "" (h !! k).

(** [headers.get(k) or headers.get(k', '')] *)
Definition header_or (h : gmap string string) (k k' : string) : string :=
  match h !! k with
  | Some v => if String.eqb v "" then header_get h k' else v
  | None => header_get h k'
  end.

Definition parse_lines (lines : list string) : parsed :=
  let st := fold_left parse_line lines (PState ∅ [] false) in
  let body := PyStr.strip (PyStr.join "010" (body_lines st)) in
  Parsed (header_or (headers st) "from" "x-from")
         (header_or (headers st) "to" "x-to")
         (header_get (headers st) "subject")
         (header_get (headers st) "date")
         (header_get (headers st) "message-id")
         body.

(** [parse_email_message] *)
Definition parse_email_message (message : string) : option parsed :=
  if String.eqb message "" then None
  else Some (parse_lines (PyStr.split "010" message)).

End Enron.

(** ** [scrub_personal_emails.py] *)

Module Personal.
Import Re.

Definition email_pattern := Enron.email_pattern.
Definition phone_pattern := Enron.phone_pattern.
Definition ssn_pattern := Enron.ssn_pattern.
Definition credit_card_pattern := Enron.credit_card_pattern.

(** [\b\d{1,3}\.\d{1,3}\.\d{1,3}\.\d{1,3}\b] *)
Definition octet : re := Rep Enron.digit 1 (Some 3%nat).
Definition ip_address_pattern : pattern :=
  Pattern
    (seqs [Bnd; octet; lit "."; octet; lit "."; octet; lit "."; octet; Bnd])
    false.

(** [\b\d{1,5}\s+[\w\s]+(?:street|st|avenue|ave|road|rd|boulevard|blvd|
    drive|dr|lane|ln|way|court|ct|place|pl)\b], IGNORECASE *)
Definition street_address_pattern : pattern :=
  Pattern
    (seqs [Bnd; Rep Enron.digit 1 (Some 5%nat); plus (Cls [Space]);
           plus (Cls [Word; Space]);
           alts (map str ["street"; "st"; "avenue"; "ave"; "road"; "rd";
                          "boulevard"; "blvd"; "drive"; "dr"; "lane"; "ln";
                          "way"; "court"; "ct"; "place"; "pl"]);
           Bnd])
    true.

Definition NAME_PATTERN : pattern := Enron.title_name_pattern.

(** The module-level dictionaries [email_cache] and [name_cache]. *)
Record caches := Caches {
  email_cache : gmap string string;
  name_cache : gmap string string
}.

Definition empty_caches : caches := Caches ∅ ∅.

(** [generate_anonymous_email] *)
Definition generate_anonymous_email (original : string) (c : caches)
    : string * caches :=
  match email_cache c !! PyStr.lower original with
  | Some anon => (anon, c)
  | None =>
      let hash_val :=
        PyStr.take 8
          (Hashlib.md5_hexdigest (PyStr.encode (PyStr.lower original))) in
      let anon_email := "user_" ++ hash_val ++ "@example.com" in
      (anon_email,
       Caches (<[PyStr.lower original := anon_email]> (email_cache c))
              (name_cache c))
  end.

(** [generate_anonymous_name] *)
Definition generate_anonymous_name (original : string) (c : caches)
    : string * caches :=
  match name_cache c !! PyStr.lower original with
  | Some anon => (anon, c)
  | None =>
      let hash_val :=
        PyStr.take 6
          (Hashlib.md5_hexdigest (PyStr.encode (PyStr.lower original))) in
      let anon_name := "[PERSON_" ++ hash_val ++ "]" in
      (anon_name,
       Caches (email_cache c)
              (<[PyStr.lower original := anon_name]> (name_cache c)))
  end.

(** The body of [scrub_pii] for a non-empty text. *)
Definition scrub_text (text : string) (c : caches) : string * caches :=
  let result := text in
  let '(result, c) :=
    sub email_pattern (fun mo => generate_anonymous_email (group0 mo))
        result c in
  let result := sub_const phone_pattern "[PHONE_REDACTED]" result in
  let result := sub_const ssn_pattern "[SSN_REDACTED]" result in
  let result := sub_const credit_card_pattern "[CARD_REDACTED]" result in
  let result := sub_const ip_address_pattern "[IP_REDACTED]" result in
  let result := sub_const street_address_pattern "[ADDRESS_REDACTED]" result in
  sub NAME_PATTERN (fun mo => generate_anonymous_name (group0 mo)) result c.

(** [scrub_pii]: [None] is Python's [None]. *)
Definition scrub_pii (text : option string) (c : caches)
    : option string * caches :=
  match text with
  | None => (None, c)
  | Some "" => (Some "", c)
  | Some t => let '(r, c') := scrub_text t c in (Some r, c')
  end.

End Personal.

(** ** [rotating_baseline.py] *)

Module Rotating.

Definition BATCH_SIZE : Z := 5000.

(** An email record: a dictionary with the keys [subject], [from], [body]
    and, once collected, [_source]; [None] is an absent key. *)
Record email := Email {
  subject : option string;
  from : option string;
  body : option string;
  _source : option string
}.

(** [email['_source'] = name] *)
Definition set_source (name : string) (e : email) : email :=
  Email (subject e) (from e) (body e) (Some name).

(** One entry of [run_history]. *)
Record run := Run {
  rotation : Z;
  timestamp : string;
  batch_size : Z;
  new_emails : Z
}.

(** The persisted rotation state. *)
Record state := State {
  rotation_number : Z;
  processed_hashes : gmap string bool;
  source_progress : gmap string Z;
  total_processed : Z;
  run_history : list run
}.

(** [load_state] when no state file exists. *)
Definition initial_state : state := State 0 ∅ ∅ 0 [].

(** What a rotation reads from outside the program: for each [.eml]
    directory whether it exists and its sorted files, each with the result
    of [parse_eml] ([None] when parsing raises); for each mbox file whether
    it exists and its messages ([None] where building the record raises);
    the scrubbed Enron corpus; [random.sample]; the clock. *)
Record env := Env {
  eml_exists : string -> bool;
  eml_files : string -> list (option email);
  mbox_exists : string -> bool;
  mbox_messages : string -> list (option email);
  enron_exists : bool;
  enron_data : list email;
  random_sample : list email -> Z -> list email;
  now : string
}.

(** The keys of [SOURCES['eml_directories']] and [SOURCES['mbox_files']]. *)
Definition eml_directories : list string :=
  ["Inbox-001"; "opened_emails"; "starred_emails"].
Definition mbox_files : list string :=
  ["Inbox-001.mbox"; "Inbox-002.mbox"; "Opened2.mbox"; "Opened3.mbox";
   "Sent-003.mbox"; "Starred2.mbox"; "Starred3.mbox"].

(** [get_email_hash] *)
Definition get_email_hash (e : email) : string :=
  let key := PyStr.prefix_slice 50 (default "" (subject e)) ++ "|"
             ++ default "" (from e) ++ "|"
             ++ PyStr.prefix_slice 100 (default "" (body e)) in
  PyStr.take 12 (Hashlib.md5_hexdigest (PyStr.encode key)).

Definition sources_order : list (string * string) :=
  [("eml", "Inbox-001");
   ("eml", "opened_emails");
   ("mbox", "Starred2.mbox");
   ("mbox", "Starred3.mbox");
   ("eml", "starred_emails");
   ("mbox", "Opened2.mbox");
   ("mbox", "Opened3.mbox");
   ("mbox", "Inbox-001.mbox");
   ("mbox", "Sent-003.mbox");
   ("mbox", "Inbox-002.mbox");
   ("enron", "enron")].

(** [sources_order[start_idx:] + sources_order[:start_idx]] with
    [start_idx = rotation % len(sources_order)]. *)
Definition rotated_sources (rotation : Z) : list (string * string) :=
  let start_idx := rotation mod Z.of_nat (length sources_order) in
  (PyStr.slice_from sources_order start_idx
   ++ PyStr.slice_to sources_order start_idx)%list.

(** [parse_mbox_batch]: the loop over [enumerate(mbox)], with [i] the
    index of the message at hand and [emails] the records collected. *)
Fixpoint parse_mbox_go (msgs : list (option email)) (i offset limit : Z)
    (emails : list email) : list email :=
  match msgs with
  | [] => emails
  | msg :: msgs' =>
      if i <? offset then parse_mbox_go msgs' (i + 1) offset limit emails
      else if Z.of_nat (length emails) >=? limit then emails
      else match msg with
           | Some e => parse_mbox_go msgs' (i + 1) offset limit (emails ++ [e])
           | None => parse_mbox_go msgs' (i + 1) offset limit emails
           end
  end.

Definition parse_mbox_batch (msgs : list (option email)) (offset limit : Z)
    : list email :=
  parse_mbox_go msgs 0 offset limit [].

(** [state['source_progress'].get(source_key, 0)] *)
Definition progress_get (progress : gmap string Z) (source_key : string) : Z :=
  default 0 (progress !! source_key).

(** The variables the loop over the sources updates. *)
Record collect := Collect {
  batch : list email;
  progress : gmap string Z;
  emails_needed : Z
}.

(** The body of the loop of [get_next_rotation_batch] for one source. *)
Definition visit_source (ev : env) (rotation : Z) (acc : collect)
    (src : string * string) : collect :=
  let '(source_type, source_name) := src in
  let source_key := source_type ++ "_" ++ source_name in
  let source_offset := progress_get (progress acc) source_key in
  if String.eqb source_type "eml" then
    if bool_decide (source_name ∈ eml_directories) && eml_exists ev source_name
    then
      let files := PyStr.slice (eml_files ev source_name) source_offset
                     (source_offset + emails_needed acc) in
      let parsed := omap (fun f => set_source source_name <$> f) files in
      Collect (batch acc ++ parsed)
              (<[source_key := source_offset + Z.of_nat (length files)]>
                 (progress acc))
              (emails_needed acc - Z.of_nat (length files))
    else acc
  else if String.eqb source_type "mbox" then
    if bool_decide (source_name ∈ mbox_files) && mbox_exists ev source_name
    then
      let mbox_emails := parse_mbox_batch (mbox_messages ev source_name)
                           source_offset (emails_needed acc) in
      Collect (batch acc ++ map (set_source source_name) mbox_emails)
              (<[source_key := source_offset + Z.of_nat (length mbox_emails)]>
                 (progress acc))
              (emails_needed acc - Z.of_nat (length mbox_emails))
    else acc
  else if String.eqb source_type "enron" then
    if enron_exists ev then
      let section_size := Z.of_nat (length (enron_data ev)) / 10 in
      let section_start := (rotation mod 10) * section_size in
      let section := PyStr.slice (enron_data ev) section_start
                       (section_start + section_size) in
      let sample := random_sample ev section
                      (Z.min (emails_needed acc) (Z.of_nat (length section))) in
      Collect (batch acc ++ map (set_source "enron") sample)
              (progress acc)
              (emails_needed acc - Z.of_nat (length sample))
    else acc
  else acc.

(** The loop over [rotated_sources], left as soon as the batch is full. *)
Fixpoint collect_sources (ev : env) (rotation : Z)
    (srcs : list (string * string)) (acc : collect) : collect :=
  match srcs with
  | [] => acc
  | src :: srcs' =>
      if emails_needed acc <=? 0 then acc
      else collect_sources ev rotation srcs' (visit_source ev rotation acc src)
  end.

(** [get_next_rotation_batch]: the batch, and the state with its
    [source_progress] updated in place. *)
Definition get_next_rotation_batch (ev : env) (st : state) (batch_size : Z)
    : list email * state :=
  let rotation := rotation_number st in
  let acc := collect_sources ev rotation (rotated_sources rotation)
               (Collect [] (source_progress st) batch_size) in
  (batch acc,
   State (rotation_number st) (processed_hashes st) (progress acc)
         (total_processed st) (run_history st)).

(** The loop of [main] that tracks unique emails: one record. *)
Definition track_email (acc : gmap string bool * Z) (e : email)
    : gmap string bool * Z :=
  let '(hashes, new_emails) := acc in
  let hash_val := get_email_hash e in
  match hashes !! hash_val with
  | None => (<[hash_val := true]> hashes, new_emails + 1)
  | Some _ => (hashes, new_emails)
  end.

(** The whole loop: the updated [processed_hashes] and [new_emails]. *)
Definition track_unique (batch : list email) (hashes : gmap string bool)
    : gmap string bool * Z :=
  fold_left track_email batch (hashes, 0).

(** A record of the scrubbed batch written out by [main]. *)
Record scrubbed := Scrubbed {
  s_subject : option string;
  s_from : option string;
  s_body : option string;
  s_source : string
}.

(** One iteration of the loop that scrubs the batch; [email.get(k, '')]
    is [Some ""] for an absent key. *)
Definition scrub_email (e : email) (c : Personal.caches)
    : scrubbed * Personal.caches :=
  let '(s, c) := Personal.scrub_pii (Some (default "" (subject e))) c in
  let '(f, c) := Personal.scrub_pii (Some (default "" (from e))) c in
  let '(b, c) := Personal.scrub_pii (Some (default "" (body e))) c in
  (Scrubbed s f b (default "unknown" (_source e)), c).

Fixpoint scrub_batch (batch : list email) (c : Personal.caches)
    : list scrubbed * Personal.caches :=
  match batch with
  | [] => ([], c)
  | e :: batch' =>
      let '(s, c) := scrub_email e c in
      let '(ss, c) := scrub_batch batch' c in
      (s :: ss, c)
  end.

(** [main]: one rotation, from the loaded state to the saved state and
    the scrubbed batch. *)
Definition main (ev : env) (loaded : state) : state * list scrubbed :=
  let st := State (rotation_number loaded + 1) (processed_hashes loaded)
                  (source_progress loaded) (total_processed loaded)
                  (run_history loaded) in
  let '(batch, st) := get_next_rotation_batch ev st BATCH_SIZE in
  let '(hashes, new_emails) := track_unique batch (processed_hashes st) in
  let saved :=
    State (rotation_number st) hashes (source_progress st)
          (total_processed st + Z.of_nat (length batch))
          (run_history st
           ++ [Run (rotation_number st) (now ev) (Z.of_nat (length batch))
                   new_emails]) in
  (saved, fst (scrub_batch batch Personal.empty_caches)).

(** The state after one further rotation per element of [evs], each in
    the surroundings it finds. *)
Fixpoint rotations (evs : list env) (st : state) : state :=
  match evs with
  | [] => st
  | ev :: evs' => rotations evs' (fst (main ev st))
  end.

End Rotating.

(** ** Vocabulary of the properties *)

Module Obs.

(** [s.endswith(suffix)] *)
Definition ends_with (suffix s : string) : bool :=
  String.eqb (PyStr.drop (String.length s - String.length suffix) s) suffix
  && (String.length suffix <=? String.length s)%nat.

(** [counts.get(key, 0)], as [process_email] reads the counts. *)
Definition count (counts : gmap string Z) (key : string) : Z :=
  default 0 (counts !! key).




(** The five categories the Enron scrubber counts, and a counts
    dictionary read category by category. *)
Definition categories : list string :=
  ["emails"; "phones"; "credit_cards"; "ssns"; "names"].
Definition tally (counts : gmap string Z) : list (string * Z) :=
  map (fun key => (key, count counts key)) categories.

(** What a call of the Enron scrubber returned: the text and the tally. *)
Definition outcome (r : option string * gmap string Z)
    : option string * list (string * Z) :=
  (fst r, tally (snd r)).


End Obs.

Module Sched.

(** The source a rotation samples first. *)
Definition first_source (rotation : Z) : option (string * string) :=
  head (Rotating.rotated_sources rotation).

(** The first sources of as many consecutive rotations as there are
    sources, from rotation number [rotation] on. *)
Definition first_sources (rotation : Z) : list (option (string * string)) :=
  map (fun i => first_source (rotation + Z.of_nat i))
      (seq 0 (length Rotating.sources_order)).

(** The list [l] rotated left by [k] places. *)
Definition rotate_left {A} (k : nat) (l : list A) : list A :=
  (List.skipn k l ++ List.firstn k l)%list.

(** What the loop of [get_next_rotation_batch] leaves behind in a rotation
    that starts from the loaded state [st]. *)
Definition collected (ev : Rotating.env) (st : Rotating.state)
    : Rotating.collect :=
  let rotation := Rotating.rotation_number st + 1 in
  Rotating.collect_sources ev rotation (Rotating.rotated_sources rotation)
    (Rotating.Collect [] (Rotating.source_progress st) Rotating.BATCH_SIZE).

End Sched.

Module Cover.

(** The key under which a source's offset is stored. *)
Definition source_key (src : string * string) : string :=
  fst src ++ "_" ++ snd src.

(** The fingerprints of a batch. *)
Definition fingerprints (batch : list Rotating.email) : gset string :=
  list_to_set (Rotating.get_email_hash <$> batch).

End Cover.

Module Pseudo.

(** A request to one of the two caches of the personal scrubber. *)
Inductive request :=
| AnEmail (original : string)
| AName (original : string).

Definition resolve (rq : request) (c : Personal.caches)
    : string * Personal.caches :=
  match rq with
  | AnEmail original => Personal.generate_anonymous_email original c
  | AName original => Personal.generate_anonymous_name original c
  end.

(** The caches after a sequence of requests. *)
Definition resolve_all (rqs : list request) (c : Personal.caches)
    : Personal.caches :=
  fold_left (fun c rq => snd (resolve rq c)) rqs c.

(** The text after the last ["."] of the part after the last ["@"]: the
    top-level domain an address ends in. *)
Definition tld (email : string) : option string :=
  match PyStr.rsplit1 "@" email with
  | Some (_, domain) => snd <$> PyStr.rsplit1 "." domain
  | None => None
  end.

(** Every entry of the email cache maps a key to the pseudonym computed
    from that key. *)
Definition cache_ok (c : Personal.caches) : Prop :=
  forall key anon,
    Personal.email_cache c !! key = Some anon ->
    anon = "user_"
           ++ PyStr.take 8 (Hashlib.md5_hexdigest (PyStr.encode key))
           ++ "@example.com".

(** A rotation with no source to read from. *)
Definition no_sources : Rotating.env :=
  Rotating.Env (fun _ => false) (fun _ => []) (fun _ => false) (fun _ => [])
    false [] (fun _ _ => []) "2025-01-01T00:00:00".

End Pseudo.

Module Lines.

(** [line.strip() == ''] *)
Definition blank (line : string) : bool := String.eqb (PyStr.strip line) "".

(** A folded header line: it starts with a space or a tab. *)
Definition folded (line : string) : bool :=
  PyStr.startswith " " line || PyStr.startswith "009" line.

(** The line holds no line break. *)
Definition one_line (line : string) : bool := negb (PyStr.contains "010" line).

End Lines.

Module Batch.

(** [random.sample(population, k)] returns [k] elements. *)
Definition sample_ok (ev : Rotating.env) : Prop :=
  forall (l : list Rotating.email) (k : Z),
    0 <= k <= Z.of_nat (length l) ->
    Z.of_nat (length (Rotating.random_sample ev l k)) = k.

(** The names of the configured sources. *)
Definition source_names : list string := map snd Rotating.sources_order.

Definition mail (s f b : string) : Rotating.email :=
  Rotating.Email (Some s) (Some f) (Some b) None.

(** Surroundings for examples: one directory of three files, the second of
    which does not parse, one mbox of two messages, a scrubbed Enron corpus
    of twenty records, and a sampler that takes the first [k]. *)
Definition small_env : Rotating.env :=
  Rotating.Env
    (fun name => String.eqb name "Inbox-001")
    (fun name => if String.eqb name "Inbox-001"
                 then [Some (mail "a" "x@y.org" "one"); None;
                       Some (mail "b" "x@y.org" "two")]
                 else [])
    (fun name => String.eqb name "Starred2.mbox")
    (fun name => if String.eqb name "Starred2.mbox"
                 then [Some (mail "c" "z@y.org" "three"); None;
                       Some (mail "d" "z@y.org" "four")]
                 else [])
    true
    (repeat (mail "e" "user_00000000@example.com" "five") 20)
    (fun l k => List.firstn (Z.to_nat k) l)
    "2025-01-01T00:00:00".

(** The number of records still wanted when the loop over the sources of
    [get_next_rotation_batch] ends. *)
Definition remaining (ev : Rotating.env) (st : Rotating.state)
    (batch_size : Z) : Z :=
  let rotation := Rotating.rotation_number st in
  Rotating.emails_needed
    (Rotating.collect_sources ev rotation (Rotating.rotated_sources rotation)
       (Rotating.Collect [] (Rotating.source_progress st) batch_size)).

(** The sum of a field over the run history. *)
Definition total (f : Rotating.run -> Z) (history : list Rotating.run) : Z :=
  fold_right (fun r acc => f r + acc) 0 history.

(** A state whose parts agree with its run history: the rotation number is
    the number of runs, the runs are numbered from one, each run counted at
    most as many new records as its batch held, and the totals are the sums
    over the runs. *)
Definition consistent (st : Rotating.state) : Prop :=
  Rotating.rotation_number st = Z.of_nat (length (Rotating.run_history st))
  /\ map Rotating.rotation (Rotating.run_history st)
     = map Z.of_nat (seq 1 (length (Rotating.run_history st)))
  /\ Forall (fun r => 0 <= Rotating.new_emails r <= Rotating.batch_size r)
            (Rotating.run_history st)
  /\ Rotating.total_processed st
     = total Rotating.batch_size (Rotating.run_history st)
  /\ Z.of_nat (size (Rotating.processed_hashes st))
     = total Rotating.new_emails (Rotating.run_history st).

End Batch.

Module Format.

(** A lower-case hexadecimal digit. *)
Definition hex_char (c : ascii) : bool :=
  PyStr.in_range 48 57 c || PyStr.in_range 97 102 c.

(** Every character of [s] satisfies [p]. *)
Fixpoint all_chars (p : ascii -> bool) (s : string) : bool :=
  match s with
  | EmptyString => true
  | String c s' => p c && all_chars p s'
  end.

(** A text of a hundred characters. *)
Definition hundred : string := Re.flat (repeat "0123456789" 10).

End Format.

(** ** [json.dumps] on the records [scrub_enron_pii.py] writes *)

Module Json.

(** The double quote. *)
Definition dq : string := String "034" "".

Definition hex4 (n : Z) : string :=
  "00" ++ Hashlib.hex_byte n.

(** One character of a string under [ensure_ascii]: the backslash, the
    quote and everything outside space..tilde are escaped. *)
Definition escape_char (c : ascii) : string :=
  let n := PyStr.code c in
  if n =? 92 then "\\"
  else if n =? 34 then "\" ++ dq
  else if n =? 8 then "\b"
  else if n =? 12 then "\f"
  else if n =? 10 then "\n"
  else if n =? 13 then "\r"
  else if n =? 9 then "\t"
  else if (32 <=? n) && (n <=? 126) then String c ""
  else "\u" ++ hex4 n.

Fixpoint escape (s : string) : string :=
  match s with
  | EmptyString => ""
  | String c s' => escape_char c ++ escape s'
  end.

(** [json.dumps(s)] for a string. *)
Definition dumps_str (s : string) : string := dq ++ escape s ++ dq.

End Json.

(** ** [scrub_enron_pii.py]: from parsed messages to the output file *)

Module EnronRun.

Definition GENERIC_NAMES : list string :=
  ["Alex Smith"; "Jordan Lee"; "Taylor Kim"; "Morgan Chen"; "Casey Park";
   "Riley Davis"; "Drew Wilson"; "Jamie Brown"; "Avery Garcia"; "Sam Miller"].

(** [int(s, 16)] on a string of hexadecimal digits. *)
Definition hex_digit_value (c : ascii) : Z :=
  if PyStr.isdecimal c then PyStr.code c - 48
  else if PyStr.in_range 97 102 c then PyStr.code c - 87
  else PyStr.code c - 55.

Definition int16 (s : string) : Z :=
  fold_left (fun acc c => 16 * acc + hex_digit_value c)
            (list_ascii_of_string s) 0.

(** [get_generic_name] *)
Definition get_generic_name (original : string) : string :=
  let hash_value := int16 (Hashlib.md5_hexdigest (PyStr.encode original)) in
  nth (Z.to_nat (hash_value mod Z.of_nat (length GENERIC_NAMES)))
      GENERIC_NAMES "".

(** The module-level [stats]. *)
Record stats := Stats {
  total_rows : Z;
  processed_emails : Z;
  parse_errors : Z;
  pii_scrubbed : gmap string Z;
  missing_subject : Z;
  missing_from : Z;
  empty_body : Z
}.

Definition stats_init : stats :=
  Stats 0 0 0
    {[ "emails" := 0; "phones" := 0; "credit_cards" := 0; "ssns" := 0;
       "names" := 0 ]}
    0 0 0.

(** The record [process_email] returns. *)
Record zero_email := ZeroEmail {
  subject : string;
  from : string;
  body : string;
  generated : bool;
  source : string
}.

(** [not x] for an optional text: [None] and the empty text are falsy. *)
Definition falsy (x : option string) : bool :=
  match x with
  | None | Some "" => true
  | Some _ => false
  end.

(** [x or d] *)
Definition or_default (x : option string) (d : string) : string :=
  match x with
  | None | Some "" => d
  | Some t => t
  end.

(** [flag += 1] when [b] holds. *)
Definition bump_if (b : bool) (n : Z) : Z := if b then n + 1 else n.

(** [process_email]: the record, or [None] for a message with neither
    subject nor sender, and the updated [stats]. *)
Definition process_email (parsed : Enron.parsed) (st : stats)
    : option zero_email * stats :=
  let '(from_scrubbed, from_counts) :=
    Enron.scrub_pii (Some (Enron.from_addr parsed)) in
  let '(subject_scrubbed, subject_counts) :=
    Enron.scrub_pii (Some (Enron.subject parsed)) in
  let '(body_scrubbed, body_counts) :=
    Enron.scrub_pii (Some (Enron.body parsed)) in
  let pii :=
    map_imap (fun key v =>
                Some (v + Obs.count from_counts key
                        + Obs.count subject_counts key
                        + Obs.count body_counts key))
             (pii_scrubbed st) in
  let st' :=
    Stats (total_rows st) (processed_emails st) (parse_errors st) pii
          (bump_if (falsy subject_scrubbed) (missing_subject st))
          (bump_if (falsy from_scrubbed) (missing_from st))
          (bump_if (falsy body_scrubbed) (empty_body st)) in
  if falsy subject_scrubbed && falsy from_scrubbed then (None, st')
  else
    (Some (ZeroEmail (or_default subject_scrubbed "(No Subject)")
                     (or_default from_scrubbed "unknown@example.com")
                     (if falsy body_scrubbed then ""
                      else PyStr.prefix_slice 10000 (default "" body_scrubbed))
                     false "enron_corpus"),
     st').

(** [json.dumps(email_data)]: the keys in the order the record is built. *)
Definition dumps (e : zero_email) : string :=
  let key k := Json.dq ++ k ++ Json.dq ++ ": " in
  "{" ++ key "subject" ++ Json.dumps_str (subject e) ++ ", "
  ++ key "from" ++ Json.dumps_str (from e) ++ ", "
  ++ key "body" ++ Json.dumps_str (body e) ++ ", "
  ++ key "generated" ++ (if generated e then "true" else "false") ++ ", "
  ++ key "source" ++ Json.dumps_str (source e) ++ "}".

(** The variables of the loop of [process_chunk]: what was written to the
    output file, the count [processed], the flag [first_chunk], [stats]. *)
Record chunk_state := ChunkState {
  written : string;
  processed : Z;
  first_chunk : bool;
  cstats : stats
}.

(** [stats['total_rows'] += 1] *)
Definition count_row (st : stats) : stats :=
  Stats (total_rows st + 1) (processed_emails st) (parse_errors st)
        (pii_scrubbed st) (missing_subject st) (missing_from st)
        (empty_body st).

(** [stats['processed_emails'] += 1] *)
Definition count_email (st : stats) : stats :=
  Stats (total_rows st) (processed_emails st + 1) (parse_errors st)
        (pii_scrubbed st) (missing_subject st) (missing_from st)
        (empty_body st).

(** One row of a chunk: [None] is a row whose [message] field is absent or
    [None].  For rows that hold text nothing in the [try] block raises, so
    the [except] branch is left out. *)
Definition process_row (s : chunk_state) (row : option string) : chunk_state :=
  let st := count_row (cstats s) in
  match Enron.parse_email_message (default "" row) with
  | Some parsed =>
      match process_email parsed st with
      | (Some email_data, st') =>
          let prefix :=
            if first_chunk s && (processed s =? 0) then "" else "," in
          ChunkState (written s ++ prefix ++ String "010" "  " ++ dumps email_data)
                     (processed s + 1) false (count_email st')
      | (None, st') => ChunkState (written s) (processed s) (first_chunk s) st'
      end
  | None => ChunkState (written s) (processed s) (first_chunk s) st
  end.

(** [process_chunk]: what it wrote, what it returns, and [stats]. *)
Definition process_chunk (chunk : list (option string)) (first_chunk : bool)
    (st : stats) : string * Z * stats :=
  let s := fold_left process_row chunk (ChunkState "" 0 first_chunk st) in
  (written s, processed s, cstats s).

(** [args.limit] as a condition: set and not zero. *)
Definition limit_set (limit : option Z) : bool :=
  match limit with
  | Some l => negb (l =? 0)
  | None => false
  end.

(** The variables of the reading loop of [main]. *)
Record run_state := RunState {
  chunk : list (option string);
  main_first_chunk : bool;
  total_processed : Z;
  out : string;
  rstats : stats
}.

(** The chunk at hand goes through [process_chunk]. *)
Definition flush (s : run_state) (rows : list (option string)) : run_state :=
  let '(w, n, st) :=
    process_chunk rows (main_first_chunk s && (total_processed s =? 0))
                  (rstats s) in
  RunState [] false (total_processed s + n) (out s ++ w) st.

(** The loop of [main] over the rows of the CSV file, left by [break] when
    the limit is reached at the end of a chunk. *)
Fixpoint read_rows (chunk_size : Z) (limit : option Z)
    (rows : list (option string)) (s : run_state) : run_state :=
  match rows with
  | [] => s
  | row :: rows' =>
      let chunk := (chunk s ++ [row])%list in
      if Z.of_nat (length chunk) >=? chunk_size then
        let s' := flush s chunk in
        if limit_set limit
           && (total_rows (rstats s') >=? default 0 limit)
        then s'
        else read_rows chunk_size limit rows' s'
      else
        read_rows chunk_size limit rows'
          (RunState chunk (main_first_chunk s) (total_processed s) (out s)
                    (rstats s))
  end.

(** [main]: the text of the output file and the final [stats]. *)
Definition main (chunk_size : Z) (limit : option Z)
    (rows : list (option string)) : string * stats :=
  let s := read_rows chunk_size limit rows (RunState [] true 0 "[" stats_init) in
  let s := match chunk s with
           | [] => s
           | _ :: _ =>
               let '(w, n, st) :=
                 process_chunk (chunk s)
                   (main_first_chunk s && (total_processed s =? 0)) (rstats s) in
               RunState (chunk s) (main_first_chunk s) (total_processed s + n)
                        (out s ++ w) st
           end in
  (out s ++ String "010" "]", rstats s).

End EnronRun.

Module EnronOut.

(** The text written for a row: the JSON of its record, if it gives one. *)
Definition entry (row : option string) : option string :=
  match Enron.parse_email_message (default "" row) with
  | Some parsed =>
      EnronRun.dumps <$> fst (EnronRun.process_email parsed EnronRun.stats_init)
  | None => None
  end.

Definition entries (rows : list (option string)) : list string :=
  omap entry rows.

(** Entries one after the other, each on a line of its own after two
    spaces, a comma before each but, when [first] holds, the first. *)
Fixpoint render (first : bool) (es : list string) : string :=
  match es with
  | [] => ""
  | e :: es' =>
      (if first then "" else ",") ++ String "010" "  " ++ e ++ render false es'
  end.

(** The chunk size the reading loop works with: a chunk holds at least one
    row. *)
Definition chunk_len (chunk_size : Z) : Z := Z.max chunk_size 1.

(** The least positive multiple of the chunk length that reaches [limit]. *)
Definition stop_at (chunk_size limit : Z) : Z :=
  let c := chunk_len chunk_size in
  c * Z.max 1 ((limit + c - 1) / c).

(** [pii_scrubbed.get(key, 0)] is at most as large in [a] as in [b]. *)
Definition stats_le (a b : EnronRun.stats) : Prop :=
  EnronRun.total_rows a <= EnronRun.total_rows b
  /\ EnronRun.processed_emails a <= EnronRun.processed_emails b
  /\ EnronRun.missing_subject a <= EnronRun.missing_subject b
  /\ EnronRun.missing_from a <= EnronRun.missing_from b
  /\ EnronRun.empty_body a <= EnronRun.empty_body b
  /\ forall key,
       Obs.count (EnronRun.pii_scrubbed a) key
       <= Obs.count (EnronRun.pii_scrubbed b) key.

(** The rows [main] hands to [process_chunk]: all of them, or with a limit
    those up to the chunk boundary where the loop is left. *)
Definition rows_read (chunk_size : Z) (limit : option Z)
    (rows : list (option string)) : list (option string) :=
  if EnronRun.limit_set limit
  then take (Z.to_nat (stop_at chunk_size (default 0 limit))) rows
  else rows.

(** The entries of the rows, those of the first chunk rendered as a first
    chunk and the others as later chunks. *)
Definition body (chunk_size : Z) (rows : list (option string)) : string :=
  let c := Z.to_nat (chunk_len chunk_size) in
  render true (entries (take c rows)) ++ render false (entries (drop c rows)).

(** The state of the reading loop of [main] once the rows [flushed] have
    gone through [process_chunk]. *)
Definition inv (chunk_size : Z) (flushed : list (option string))
    (s : EnronRun.run_state) : Prop :=
  (exists j, 0 <= j /\ Z.of_nat (length flushed) = j * chunk_len chunk_size)
  /\ Z.of_nat (length (EnronRun.chunk s)) < chunk_len chunk_size
  /\ EnronRun.out s = "[" ++ body chunk_size flushed
  /\ EnronRun.main_first_chunk s && (EnronRun.total_processed s =? 0)
     = bool_decide (flushed = [])
  /\ EnronRun.total_rows (EnronRun.rstats s) = Z.of_nat (length flushed)
  /\ EnronRun.processed_emails (EnronRun.rstats s)
     = Z.of_nat (length (entries flushed))
  /\ EnronRun.total_processed s = Z.of_nat (length (entries flushed)).

End EnronOut.

(** * [scrub_personal_emails.py]: reading the export *)

Module PersonalRun.

(** What the [email] library gives for a message: the headers looked up,
    [None] for one that is absent, and the text [extract_body] returns. *)
Record message := Message {
  m_subject : option string;
  m_from : option string;
  m_date : option string;
  m_body : string
}.

(** The record [parse_eml_file] and [parse_mbox_file] build. *)
Record email := Email {
  subject : string;
  from : string;
  date : string;
  body : string
}.

(** [msg.get(name, d) or d] *)
Definition get_or (x : option string) (d : string) : string :=
  match x with
  | None | Some "" => d
  | Some t => t
  end.

Definition record_of (m : message) : email :=
  Email (get_or (m_subject m) "(No Subject)")
        (get_or (m_from m) "unknown@example.com")
        (default "" (m_date m))
        (if String.eqb (m_body m) "" then ""
         else PyStr.prefix_slice 10000 (m_body m)).

(** [parse_eml_file]: [None] for a file whose reading raises. *)
Definition parse_eml_file (file : option message) : option email :=
  record_of <$> file.

(** [if limit]: a limit that is given and is not zero. *)
Definition truthy (limit : option Z) : bool :=
  match limit with
  | Some l => negb (l =? 0)
  | None => false
  end.

(** [limit and n >= limit] *)
Definition reached (limit : option Z) (n : nat) : bool :=
  truthy limit && (Z.of_nat n >=? default 0 limit).

(** The loop of [parse_mbox_file]; a message whose handling raises is
    passed over. *)
Fixpoint parse_mbox_go (limit : option Z) (msgs : list (option message))
    (emails : list email) (count : Z) : list email :=
  match msgs with
  | [] => emails
  | msg :: rest =>
      if truthy limit && (count >=? default 0 limit) then emails
      else match msg with
           | Some m => parse_mbox_go limit rest (emails ++ [record_of m])%list
                                     (count + 1)
           | None => parse_mbox_go limit rest emails count
           end
  end.

Definition parse_mbox_file (msgs : list (option message)) (limit : option Z)
    : list email :=
  parse_mbox_go limit msgs [] 0.

(** The export: which directories and mbox files exist, the files of a
    directory in the order [glob] lists them, the messages of an mbox. *)
Record env := Env {
  dir_exists : string -> bool;
  eml_files : string -> list (option message);
  mbox_exists : string -> bool;
  mbox_messages : string -> list (option message)
}.

Definition eml_dirs : list string :=
  ["Inbox-001"; "opened_emails"; "starred_emails"].

Definition mbox_files : list string := ["Starred2.mbox"; "Starred3.mbox"].

(** The counters of [stats] that [process_directory] touches. *)
Record dstats := DStats {
  eml_processed : Z;
  eml_errors : Z;
  mbox_processed : Z
}.

Definition dstate : Type := list email * dstats.

(** The loop over the files of one directory. *)
Fixpoint files_loop (limit : option Z) (files : list (option message))
    (st : dstate) : dstate :=
  match files with
  | [] => st
  | file :: rest =>
      let '(emails, stats) := st in
      if reached limit (length emails) then st
      else match parse_eml_file file with
           | Some result =>
               files_loop limit rest
                 ((emails ++ [result])%list,
                  DStats (eml_processed stats + 1) (eml_errors stats)
                         (mbox_processed stats))
           | None =>
               files_loop limit rest
                 (emails,
                  DStats (eml_processed stats) (eml_errors stats + 1)
                         (mbox_processed stats))
           end
  end.

(** The loop over [eml_dirs]. *)
Fixpoint dirs_loop (e : env) (limit : option Z) (dirs : list string)
    (st : dstate) : dstate :=
  match dirs with
  | [] => st
  | dir_name :: rest =>
      if negb (dir_exists e dir_name) then dirs_loop e limit rest st
      else
        let st' := files_loop limit (eml_files e dir_name) st in
        if reached limit (length (fst st')) then st'
        else dirs_loop e limit rest st'
  end.

(** The loop over [mbox_files]. *)
Fixpoint mbox_loop (e : env) (limit : option Z) (files : list string)
    (st : dstate) : dstate :=
  match files with
  | [] => st
  | mbox_name :: rest =>
      let '(emails, stats) := st in
      if reached limit (length emails) then st
      else if negb (mbox_exists e mbox_name) then mbox_loop e limit rest st
      else
        let remaining :=
          if truthy limit
          then Some (default 0 limit - Z.of_nat (length emails))
          else None in
        let mbox_emails :=
          parse_mbox_file (mbox_messages e mbox_name) remaining in
        mbox_loop e limit rest
          ((emails ++ mbox_emails)%list,
           DStats (eml_processed stats) (eml_errors stats)
                  (mbox_processed stats
                   + Z.of_nat (length mbox_emails)))
  end.

(** [process_directory] *)
Definition process_directory (e : env) (limit : option Z) : dstate :=
  let st := dirs_loop e limit eml_dirs ([], DStats 0 0 0) in
  if negb (truthy limit)
     || (Z.of_nat (length (fst st)) <? default 0 limit)
  then mbox_loop e limit mbox_files st
  else st.

End PersonalRun.

Module Export_.

(** The records of the messages that can be read. *)
Definition readable (msgs : list (option PersonalRun.message))
    : list PersonalRun.email :=
  omap PersonalRun.parse_eml_file msgs.

(** Every record the export holds: the directories, then the mbox files. *)
Definition eml_all (e : PersonalRun.env) (dirs : list string)
    : list PersonalRun.email :=
  concat (map (fun d => if PersonalRun.dir_exists e d
                        then readable (PersonalRun.eml_files e d) else [])
              dirs).

Definition mbox_all (e : PersonalRun.env) (files : list string)
    : list PersonalRun.email :=
  concat (map (fun f => if PersonalRun.mbox_exists e f
                        then readable (PersonalRun.mbox_messages e f) else [])
              files).

Definition everything (e : PersonalRun.env) : list PersonalRun.email :=
  (eml_all e PersonalRun.eml_dirs ++ mbox_all e PersonalRun.mbox_files)%list.

(** The first [limit] of the records, all of them without a limit. *)
Definition cap (limit : option Z) (l : list PersonalRun.email)
    : list PersonalRun.email :=
  if PersonalRun.truthy limit then take (Z.to_nat (default 0 limit)) l else l.

(** A small export for examples. *)
Definition msg (s : string) : option PersonalRun.message :=
  Some (PersonalRun.Message (Some s) None None "text").

Definition small : PersonalRun.env :=
  PersonalRun.Env
    (fun d => String.eqb d "Inbox-001")
    (fun _ => [msg "a"; None; msg "b"])
    (fun f => String.eqb f "Starred3.mbox")
    (fun _ => [None; msg "c"; msg "d"]).

End Export_.

(** * [validate_scrubbed.py] *)

Module Validate.
Import Re.

(** [@enron\.com|@ect\.enron\.com], IGNORECASE *)
Definition raw_enron_email : pattern :=
  Pattern (Alt (str "@enron.com") (str "@ect.enron.com")) true.

Definition ssn_pattern : pattern := Enron.ssn_pattern.
Definition credit_card : pattern := Enron.credit_card_pattern.

(** [\b(Kenneth Lay|Jeff Skilling|Andrew Fastow)\b], IGNORECASE *)
Definition common_enron_names : pattern :=
  Pattern
    (seqs [Bnd;
           Grp 1 (alts [str "Kenneth Lay"; str "Jeff Skilling";
                        str "Andrew Fastow"]);
           Bnd])
    true.

(** [pattern.findall(text)]: the matches from left to right, without
    overlap; [pick] is group 1 for a pattern with a group and the whole
    match otherwise. *)
Definition findall (p : pattern) (pick : match_obj -> string) (text : string)
    : list string :=
  snd (sub p (fun mo (acc : list string) => ("", (acc ++ [pick mo])%list))
           text []).

Definition PII_PATTERNS : list (string * (pattern * (match_obj -> string))) :=
  [("raw_enron_email", (raw_enron_email, group0));
   ("ssn_pattern", (ssn_pattern, group0));
   ("credit_card", (credit_card, group0));
   ("common_enron_names", (common_enron_names, fun mo => group mo 1))].

(** [check_pii] *)
Definition check_pii (text : string) : list (string * string) :=
  if String.eqb text "" then []
  else
    concat (map (fun entry =>
                   map (fun found => (fst entry, found))
                       (findall (fst (snd entry)) (snd (snd entry)) text))
                PII_PATTERNS).

(** A record of the corpus as far as [validate_email] looks at it: the
    three fields, [None] for one the record does not have.  Fields are
    texts, so the checks of their type add nothing. *)
Record entry := Entry {
  e_subject : option string;
  e_from : option string;
  e_body : option string
}.

Record result := Result {
  index : Z;
  valid : bool;
  issues : list string;
  pii_found : list (string * string)
}.

(** [validate_email] *)
Definition validate_email (email : entry) (idx : Z) : result :=
  let no_subject := EnronRun.falsy (e_subject email) in
  let no_from := EnronRun.falsy (e_from email) in
  let issues :=
    ((if no_subject then ["missing_subject"] else [])
     ++ (if no_from then ["missing_from"] else []))%list in
  let full_text :=
    default "" (e_subject email) ++ " " ++ default "" (e_from email)
    ++ " " ++ default "" (e_body email) in
  let pii := check_pii full_text in
  Result idx
         (negb no_from && bool_decide (pii = []))
         issues
         pii.

(** The record [process_email] built, as read back from the corpus. *)
Definition of_record (e : EnronRun.zero_email) : entry :=
  Entry (Some (EnronRun.subject e)) (Some (EnronRun.from e))
        (Some (EnronRun.body e)).

End Validate.

(** Texts compared without regard to case, as a pattern compiled with
    IGNORECASE compares them. *)
Module Ci.

Definition eq_ci (a c : ascii) : bool := Re.set_matches true [Re.Lit a] c.

(** [s] starts with [w], case ignored. *)
Fixpoint starts (w s : string) : bool :=
  match w with
  | EmptyString => true
  | String a w' =>
      match s with
      | String c s' => eq_ci a c && starts w' s'
      | EmptyString => false
      end
  end.

(** The matcher state after the characters of [w] have been consumed. *)
Fixpoint skip (w : string) (st : Re.mstate) : Re.mstate :=
  match w with
  | EmptyString => st
  | String _ w' =>
      match Re.rest st with
      | String c s' =>
          skip w' (Re.MState (Some c) s' (S (Re.pos st)) (Re.caps st))
      | EmptyString => st
      end
  end.

(** [f] holds of [s] or of a text that [s] ends with. *)
Fixpoint anywhere (f : string -> bool) (s : string) : bool :=
  f s || match s with
         | String _ s' => anywhere f s'
         | EmptyString => false
         end.

(** No character of [w] stands, case ignored, for [c]. *)
Fixpoint without (c : ascii) (w : string) : bool :=
  match w with
  | EmptyString => true
  | String a w' => negb (eq_ci a c) && without c w'
  end.

(** An address of the Enron domains the validator looks for starts here. *)
Definition enron_address (s : string) : bool :=
  starts "@enron.com" s || starts "@ect.enron.com" s.

End Ci.

(** * Properties *)

(** Closed goals are settled by evaluation. *)
Ltac by_eval := vm_compute; first [reflexivity | discriminate | done].


(** ** The digests on their published test vectors *)

Example md5_of_empty :
  Hashlib.md5_hexdigest (PyStr.encode "") = "d41d8cd98f00b204e9800998ecf8427e".
Proof. by_eval. Qed.

Example md5_of_abc :
  Hashlib.md5_hexdigest (PyStr.encode "abc")
  = "900150983cd24fb0d6963f7d28e17f72".
Proof. by_eval. Qed.

Example sha256_of_abc :
  Hashlib.sha256_hexdigest (PyStr.encode "abc")
  = "ba7816bf8f01cfea414140de5dae2223b00361a396177a9cb410ff61f20015ad".
Proof. by_eval. Qed.

Example sha256_of_empty :
  Hashlib.sha256_hexdigest (PyStr.encode "")
  = "e3b0c44298fc1c149afbf4c8996fb92427ae41e4649b934ca495991b7852b855".
Proof. by_eval. Qed.

(** ** The substitution engine *)

Section SubFacts.
Context {St : Type}.
Variable p : Re.pattern.
Variable repl : Re.match_obj -> St -> string * St.

(** A property of the caller's state that every replacement preserves
    holds after the whole substitution. *)
Lemma sub_go_preserves (P : St -> Prop) :
  (forall mo σ, P σ -> P (snd (repl mo σ))) ->
  forall s pv i skip σ, P σ -> P (snd (Re.sub_go p repl pv s i skip σ)).
Proof.
  intros Hrepl. induction s as [|c s IH]; intros pv i skip σ Hσ.
  - destruct skip as [|skip]; simpl; [|done].
    destruct (Re.match_here p false pv "" i) as [[[|n] mo]|]; simpl; [| |done].
    + pose proof (Hrepl mo σ Hσ) as H1. destruct (repl mo σ) as [r σ1].
      destruct (Re.match_here p true pv "" i) as [[[|n2] mo2]|]; simpl; try done.
      pose proof (Hrepl mo2 σ1 H1) as H2. by destruct (repl mo2 σ1).
    + pose proof (Hrepl mo σ Hσ) as H1. by destruct (repl mo σ).
  - destruct skip as [|skip]; simpl; [|by apply IH].
    destruct (Re.match_here p false pv (String c s) i) as [[[|n] mo]|]; simpl.
    + pose proof (Hrepl mo σ Hσ) as H1. destruct (repl mo σ) as [r σ1].
      destruct (Re.match_here p true pv (String c s) i) as [[[|n2] mo2]|]; simpl.
      * specialize (IH (Some c) (S i) 0%nat σ1 H1).
        by destruct (Re.sub_go p repl (Some c) s (S i) 0 σ1).
      * pose proof (Hrepl mo2 σ1 H1) as H2. destruct (repl mo2 σ1) as [r2 σ2].
        specialize (IH (Some c) (S i) n2 σ2 H2).
        by destruct (Re.sub_go p repl (Some c) s (S i) n2 σ2).
      * specialize (IH (Some c) (S i) 0%nat σ1 H1).
        by destruct (Re.sub_go p repl (Some c) s (S i) 0 σ1).
    + pose proof (Hrepl mo σ Hσ) as H1. destruct (repl mo σ) as [r σ1].
      specialize (IH (Some c) (S i) n σ1 H1).
      by destruct (Re.sub_go p repl (Some c) s (S i) n σ1).
    + specialize (IH (Some c) (S i) 0%nat σ Hσ).
      by destruct (Re.sub_go p repl (Some c) s (S i) 0 σ).
Qed.

Lemma sub_preserves (P : St -> Prop) :
  (forall mo σ, P σ -> P (snd (repl mo σ))) ->
  forall text σ, P σ -> P (snd (Re.sub p repl text σ)).
Proof. intros H text σ. by apply sub_go_preserves. Qed.

(** Where the pattern matches nowhere, the substitution returns the text
    and leaves the caller's state alone. *)
Lemma sub_go_no_match s :
  forall pv i σ,
    Re.search_go p pv s i = false ->
    Re.sub_go p repl pv s i 0 σ = (s, σ).
Proof.
  induction s as [|c s IH]; intros pv i σ; simpl;
    destruct (Re.match_here p false pv _ i) as [[n mo]|]; try done.
  intros H. by rewrite (IH _ _ σ H).
Qed.

Lemma sub_no_match text σ :
  Re.search p text = false -> Re.sub p repl text σ = (text, σ).
Proof. apply sub_go_no_match. Qed.
End SubFacts.


(** ** The matcher consumes what its expression accepts *)

Lemma length_app_string (a b : string) :
  String.length (a ++ b) = (String.length a + String.length b)%nat.
Proof.
  induction a as [|c a IH]; [done|].
  change (S (String.length (a ++ b)) = S (String.length a + String.length b)).
  by rewrite IH.
Qed.

Lemma app_assoc_string (a b c : string) : (a ++ b) ++ c = a ++ (b ++ c).
Proof.
  induction a as [|d a IH]; [done|].
  change (String d ((a ++ b) ++ c) = String d (a ++ (b ++ c))).
  by rewrite IH.
Qed.

Lemma app_nil_r_string (a : string) : a ++ "" = a.
Proof.
  induction a as [|d a IH]; [done|].
  change (String d (a ++ "") = String d a). by rewrite IH.
Qed.

Lemma take_app_string (a b : string) : PyStr.take (String.length a) (a ++ b) = a.
Proof.
  induction a as [|d a IH]; [done|].
  change (String d (PyStr.take (String.length a) (a ++ b)) = String d a).
  by rewrite IH.
Qed.

Lemma consumed_nothing {A} (P : string -> Prop) st
    (k : Re.mstate -> option A) x :
  k st = Some x -> P "" -> Re.consumed P st k x.
Proof.
  intros Hk HP. exists st, "". split; [done|]. split; [done|].
  split; [simpl; lia|done].
Qed.

Lemma consumed_app {A} (P Q R : string -> Prop) st
    (k1 k2 : Re.mstate -> option A) x :
  (forall w1 w2, P w1 -> Q w2 -> R (w1 ++ w2)) ->
  (forall st1, k1 st1 = Some x -> Re.consumed Q st1 k2 x) ->
  Re.consumed P st k1 x -> Re.consumed R st k2 x.
Proof.
  intros HR Hk1 (st1 & w1 & Hk & Hrest1 & Hpos1 & Hw1).
  apply Hk1 in Hk as (st2 & w2 & Hk2 & Hrest2 & Hpos2 & Hw2).
  exists st2, (w1 ++ w2). split; [done|]. split.
  { by rewrite Hrest1, Hrest2, app_assoc_string. }
  split; [|by apply HR]. rewrite Hpos2, Hpos1, length_app_string. lia.
Qed.

Lemma consumed_impl {A} (P Q : string -> Prop) st
    (k : Re.mstate -> option A) x :
  (forall w, P w -> Q w) -> Re.consumed P st k x -> Re.consumed Q st k x.
Proof.
  intros HPQ (st' & w & ? & ? & ? & ?). exists st', w. eauto.
Qed.

Lemma rep_loop_sound {A} (P : string -> Prop)
    (body : Re.mstate -> (Re.mstate -> option A) -> option A) :
  (forall st k x, body st k = Some x -> Re.consumed P st k x) ->
  forall n lo st (k : Re.mstate -> option A) x,
    Re.rep_loop body k n lo st = Some x ->
    Re.consumed (fun w => exists ws, w = Re.flat ws /\ Forall P ws
                                  /\ (lo <= length ws)%nat) st k x.
Proof.
  intros Hbody.
  assert (Hstop : forall lo st (k : Re.mstate -> option A) x,
             match lo with O => k st | S _ => None end = Some x ->
             Re.consumed (fun w => exists ws, w = Re.flat ws /\ Forall P ws
                                           /\ (lo <= length ws)%nat) st k x).
  { intros [|lo] st k x H; [|done]. apply consumed_nothing; [done|].
    exists []. split; [done|]. split; [constructor|simpl; lia]. }
  induction n as [|n IH]; intros lo st k x H; simpl in H; [by apply Hstop|].
  destruct (body st _) as [y|] eqn:Hb; [|by apply Hstop].
  injection H as ->. apply Hbody in Hb.
  eapply (consumed_app P
            (fun w => exists ws, w = Re.flat ws /\ Forall P ws
                                 /\ (Nat.pred lo <= length ws)%nat));
    [| |exact Hb].
  - intros w1 w2 Hw1 (ws & -> & Hall & Hlen).
    exists (w1 :: ws). split; [done|]. split; [by constructor|].
    simpl. lia.
  - intros st1 Hk. simpl in Hk.
    destruct (Nat.eqb lo 0 && Nat.eqb (Re.pos st1) (Re.pos st)); [done|].
    by apply IH.
Qed.

Lemma m_sound {A} icase r :
  forall st (k : Re.mstate -> option A) x,
    Re.m icase r st k = Some x -> Re.consumed (Re.accepts icase r) st k x.
Proof.
  induction r as [|items|r1 IH1 r2 IH2|r1 IH1 r2 IH2|r IH lo hi|g r IH|];
    intros st k x H; simpl in H.
  - by apply consumed_nothing.
  - destruct (Re.rest st) as [|c s'] eqn:Hrest; [done|].
    destruct (Re.set_matches icase items c) eqn:Hc; [|done].
    eexists _, (String c ""). split; [exact H|]. simpl.
    split; [done|]. split; [lia|]. by exists c.
  - apply IH1 in H.
    eapply (consumed_app _ (Re.accepts icase r2)); [| |exact H].
    + intros w1 w2 Hw1 Hw2. by exists w1, w2.
    + intros st1 Hk. by apply IH2.
  - destruct (Re.m icase r1 st k) as [y|] eqn:H1.
    + injection H as ->. apply IH1 in H1.
      eapply consumed_impl; [|exact H1]. intros w Hw. by left.
    + apply IH2 in H. eapply consumed_impl; [|exact H]. intros w Hw. by right.
  - by apply (rep_loop_sound (Re.accepts icase r)) in H.
  - apply IH in H as (st' & w & Hk & Hrest & Hpos & Hw).
    eexists _, w. split; [exact Hk|]. done.
  - destruct (xorb _ _); [|done]. by apply consumed_nothing.
Qed.

(** A match found at the cursor: [group(0)] is a text the expression
    accepts. *)
Lemma match_here_accepts p advance pv s i n mo :
  Re.match_here p advance pv s i = Some (n, mo) ->
  Re.accepts (Re.ignorecase p) (Re.expr p) (Re.group0 mo).
Proof.
  unfold Re.match_here.
  destruct (Re.m _ _ _ _) as [st'|] eqn:Hm; [|done]. intros [= <- <-]. simpl.
  apply m_sound in Hm as (st1 & w & Hk & Hrest & Hpos & Hw).
  destruct (advance && _); [done|]. injection Hk as ->.
  simpl in Hrest, Hpos. rewrite Hpos, Hrest.
  replace (i + String.length w - i)%nat with (String.length w) by lia.
  by rewrite take_app_string.
Qed.

(** ** Empty and absent input *)

Lemma bump_dom key (counts : gmap string Z) :
  dom (Enron.bump key counts) = dom counts.
Proof. unfold Enron.bump. apply dom_alter_L. Qed.

Lemma enron_scrub_text_dom t :
  dom (snd (Enron.scrub_text t)) = dom Enron.counts_init.
Proof.
  unfold Enron.scrub_text.
  pose (P := fun c : gmap string Z => dom c = dom Enron.counts_init).
  assert (Hstep : forall p (f : Re.match_obj -> gmap string Z -> string * gmap string Z),
             (forall mo c, P c -> P (snd (f mo c))) ->
             forall text c, P c -> P (snd (Re.sub p f text c))).
  { intros p f Hf text c. by apply sub_preserves. }
  assert (Hb : forall key (s : string) (mo : Re.match_obj) c,
             P c -> P (snd (s, Enron.bump key c))).
  { intros key s mo c Hc. unfold P in *. simpl. by rewrite bump_dom. }
  pose proof (Hstep Enron.email_pattern Enron.replace_email
                (fun mo c => Hb "emails" _ mo c) t Enron.counts_init eq_refl) as H1.
  destruct (Re.sub Enron.email_pattern _ t _) as [r1 c1].
  pose proof (Hstep Enron.phone_pattern Enron.replace_phone
                (fun mo c => Hb "phones" _ mo c) r1 c1 H1) as H2.
  destruct (Re.sub Enron.phone_pattern _ r1 _) as [r2 c2].
  pose proof (Hstep Enron.credit_card_pattern Enron.replace_cc
                (fun mo c => Hb "credit_cards" _ mo c) r2 c2 H2) as H3.
  destruct (Re.sub Enron.credit_card_pattern _ r2 _) as [r3 c3].
  pose proof (Hstep Enron.ssn_pattern Enron.replace_ssn
                (fun mo c => Hb "ssns" _ mo c) r3 c3 H3) as H4.
  destruct (Re.sub Enron.ssn_pattern _ r3 _) as [r4 c4].
  pose proof (Hstep Enron.title_name_pattern Enron.replace_name
                (fun mo c => Hb "names" _ mo c) r4 c4 H4) as H5.
  destruct (Re.sub Enron.title_name_pattern _ r4 _) as [r5 c5].
  pose proof (Hstep Enron.enron_executives_pattern Enron.replace_exec
                (fun mo c => Hb "names" _ mo c) r5 c5 H5) as H6.
  destruct (Re.sub Enron.enron_executives_pattern _ r5 _) as [r6 c6].
  exact H6.
Qed.

Lemma enron_scrub_pii_dom a t :
  dom (snd (Enron.scrub_pii (Some (String a t)))) = list_to_set Obs.categories.
Proof.
  unfold Enron.scrub_pii.
  pose proof (enron_scrub_text_dom (String a t)) as H.
  destruct (Enron.scrub_text (String a t)) as [r cs]. simpl in *.
  rewrite H. unfold Enron.counts_init.
  rewrite !dom_insert_L, dom_singleton_L. set_solver.
Qed.

(** C9. On empty or absent input both scrubbers return their argument and
    touch no state: the personal scrubber hands back the caches it was given,
    and the Enron scrubber returns the empty counts dictionary, whereas for
    every non-empty text its counts dictionary has the five category keys. *)
Theorem C9_empty_input_is_identity :
  forall (c : Personal.caches) (a : ascii) (t : string),
    Personal.scrub_pii None c = (None, c)
    /\ Personal.scrub_pii (Some "") c = (Some "", c)
    /\ Enron.scrub_pii None = (None, ∅)
    /\ Enron.scrub_pii (Some "") = (Some "", ∅)
    /\ dom (snd (Enron.scrub_pii (Some (String a t))))
       = {[ "emails"; "phones"; "credit_cards"; "ssns"; "names" ]}
    /\ snd (Enron.scrub_pii (Some "")) <> Enron.counts_init.
Proof.
  intros c a t. repeat split.
  - rewrite enron_scrub_pii_dom. set_solver.
  - simpl. intros H.
    assert (H' : (∅ : gmap string Z) !! "emails" = Enron.counts_init !! "emails")
      by (by rewrite H).
    by vm_compute in H'.
Qed.

(** ** Scenario A *)

(** C2. Scrubbing the sample sentence with the Enron scrubber puts the
    sender pseudonym of the address, [[PHONE_REDACTED]] and [[SSN_REDACTED]]
    in place of the address, the phone number and the SSN, and counts one
    address, one phone number, one SSN and nothing else. *)
Theorem C2_scenario_A :
  Obs.outcome
    (Enron.scrub_pii
       (Some "Contact Jane at jane.doe@corp.com or 555-123-4567, SSN 123-45-6789"))
  = (Some ("Contact Jane at " ++ Enron.hash_email "jane.doe@corp.com"
           ++ " or [PHONE_REDACTED], SSN [SSN_REDACTED]"),
     [("emails", 1); ("phones", 1); ("credit_cards", 0); ("ssns", 1);
      ("names", 0)])
  /\ Enron.hash_email "jane.doe@corp.com" = "user_8886aaf9@example.com"
  /\ dom (snd (Enron.scrub_pii
                 (Some "Contact Jane at jane.doe@corp.com or 555-123-4567, SSN 123-45-6789")))
     = list_to_set Obs.categories.
Proof.
  split; [by_eval|]. split; [by_eval|]. apply enron_scrub_pii_dom.
Qed.

(** ** Rule order: titled names and known executives *)



(** ** Scrubbing twice *)

Lemma counts_init_zero key : Obs.count Enron.counts_init key = 0.
Proof.
  unfold Obs.count, Enron.counts_init.
  repeat (rewrite lookup_insert; case_decide; [done|]).
  rewrite lookup_singleton. by case_decide.
Qed.




(** A pseudonym is itself an address: scrubbing it again hashes it again. *)
Example pseudonym_is_rehashed :
  Obs.outcome (Enron.scrub_pii (Some "jane.doe@corp.com"))
  = (Some "user_8886aaf9@example.com",
     [("emails", 1); ("phones", 0); ("credit_cards", 0); ("ssns", 0);
      ("names", 0)])
  /\ Obs.outcome (Enron.scrub_pii (Some "user_8886aaf9@example.com"))
     = (Some "user_b387e503@example.com",
        [("emails", 1); ("phones", 0); ("credit_cards", 0); ("ssns", 0);
         ("names", 0)])
  /\ fst (Personal.scrub_pii (Some "jane.doe@corp.com") Personal.empty_caches)
     = Some "user_d0e3752d@example.com"
  /\ fst (Personal.scrub_pii (Some "user_d0e3752d@example.com")
            Personal.empty_caches)
     = Some "user_683fef24@example.com".
Proof. repeat apply conj; by_eval. Qed.



(** ** The rotation of the sources *)

Lemma rotated_sources_mod r :
  Rotating.rotated_sources r = Rotating.rotated_sources (r mod 11).
Proof.
  unfold Rotating.rotated_sources. simpl length.
  change (Z.of_nat 11) with 11. by rewrite Z.mod_mod.
Qed.

Lemma mod_11_cases r :
  let k := r mod 11 in
  k = 0 \/ k = 1 \/ k = 2 \/ k = 3 \/ k = 4 \/ k = 5 \/ k = 6 \/ k = 7
  \/ k = 8 \/ k = 9 \/ k = 10.
Proof. intros k. pose proof (Z.mod_pos_bound r 11). lia. Qed.

Lemma rotated_sources_rotate r :
  Rotating.rotated_sources r
  = Sched.rotate_left (Z.to_nat (r mod 11)) Rotating.sources_order.
Proof.
  rewrite rotated_sources_mod.
  destruct (mod_11_cases r) as [H|H]; repeat (destruct H as [H|H]);
    rewrite H; by_eval.
Qed.

Lemma first_source_shift r i :
  Sched.first_source (r + i) = Sched.first_source (r mod 11 + i).
Proof.
  unfold Sched.first_source.
  rewrite rotated_sources_mod, (rotated_sources_mod (r mod 11 + i)).
  by rewrite Zplus_mod_idemp_l.
Qed.

Lemma first_sources_rotate r :
  Sched.first_sources r
  = Sched.rotate_left (Z.to_nat (r mod 11)) (Some <$> Rotating.sources_order).
Proof.
  transitivity (Sched.first_sources (r mod 11)).
  - unfold Sched.first_sources. apply map_ext. intros i.
    apply first_source_shift.
  - destruct (mod_11_cases r) as [H|H]; repeat (destruct H as [H|H]);
      rewrite H; by_eval.
Qed.

Lemma rotate_left_perm {A} k (l : list A) : Sched.rotate_left k l ≡ₚ l.
Proof.
  unfold Sched.rotate_left. rewrite Permutation_app_comm.
  by rewrite firstn_skipn.
Qed.

(** The state [main] saves. *)
Lemma main_saved_state ev st :
  let acc := Sched.collected ev st in
  let tracked :=
    Rotating.track_unique (Rotating.batch acc) (Rotating.processed_hashes st) in
  fst (Rotating.main ev st)
  = Rotating.State (Rotating.rotation_number st + 1) (fst tracked)
      (Rotating.progress acc)
      (Rotating.total_processed st + Z.of_nat (length (Rotating.batch acc)))
      (Rotating.run_history st
       ++ [Rotating.Run (Rotating.rotation_number st + 1) (Rotating.now ev)
             (Z.of_nat (length (Rotating.batch acc))) (snd tracked)]).
Proof.
  intros acc tracked. unfold Rotating.main, Rotating.get_next_rotation_batch.
  simpl. fold (Sched.collected ev st). fold acc. fold tracked.
  by destruct tracked.
Qed.

(** C6. The effective source order of rotation [r] is the eleven-entry list
    rotated left by [r mod 11], so the source at that index comes first (at
    rotation 1, the second one); [main] adds exactly one to the rotation
    number before it collects; and over any eleven consecutive rotations the
    first sources are a rearrangement of the eleven distinct configured
    sources: each is first exactly once. *)
Theorem C6_rotation_fairness :
  forall (r : Z) (ev : Rotating.env) (st : Rotating.state),
    length Rotating.sources_order = 11%nat
    /\ Rotating.rotated_sources r
       = Sched.rotate_left (Z.to_nat (r mod 11)) Rotating.sources_order
    /\ Sched.first_source r = Rotating.sources_order !! Z.to_nat (r mod 11)
    /\ Sched.first_source 1 = Some ("eml", "opened_emails")
    /\ Rotating.rotation_number (fst (Rotating.main ev st))
       = Rotating.rotation_number st + 1
    /\ NoDup Rotating.sources_order
    /\ Sched.first_sources r ≡ₚ Some <$> Rotating.sources_order.
Proof.
  intros r ev st. repeat apply conj.
  - done.
  - apply rotated_sources_rotate.
  - unfold Sched.first_source. rewrite rotated_sources_rotate.
    destruct (mod_11_cases r) as [H|H]; repeat (destruct H as [H|H]);
      rewrite H; by_eval.
  - by_eval.
  - by rewrite main_saved_state.
  - apply (bool_decide_unpack _). by_eval.
  - rewrite first_sources_rotate. apply rotate_left_perm.
Qed.

(** ** Coverage: the offsets of the sources *)

(** A visit either leaves the offsets alone or stores, under the key of the
    source, the previous offset plus the length of a list. *)
Lemma visit_source_sets ev r acc src :
  Rotating.progress (Rotating.visit_source ev r acc src) = Rotating.progress acc
  \/ exists n : nat,
       Rotating.progress (Rotating.visit_source ev r acc src)
       = <[Cover.source_key src :=
             Rotating.progress_get (Rotating.progress acc) (Cover.source_key src)
             + Z.of_nat n]> (Rotating.progress acc).
Proof.
  destruct src as [source_type source_name].
  unfold Rotating.visit_source, Cover.source_key. simpl.
  repeat case_match; simpl; eauto.
Qed.

Lemma visit_source_mono ev r acc src key :
  Rotating.progress_get (Rotating.progress acc) key
  <= Rotating.progress_get (Rotating.progress (Rotating.visit_source ev r acc src)) key.
Proof.
  destruct (visit_source_sets ev r acc src) as [->|[n ->]]; [lia|].
  unfold Rotating.progress_get at 2. rewrite lookup_insert.
  case_decide as Hk; simpl.
  - rewrite Hk. lia.
  - reflexivity.
Qed.

Lemma collect_sources_mono ev r srcs :
  forall acc key,
    Rotating.progress_get (Rotating.progress acc) key
    <= Rotating.progress_get
         (Rotating.progress (Rotating.collect_sources ev r srcs acc)) key.
Proof.
  induction srcs as [|src srcs IH]; intros acc key; simpl; [lia|].
  case_match; [lia|].
  etransitivity; [apply (visit_source_mono ev r acc src key)|apply IH].
Qed.



(** ** Coverage: the fingerprints *)

Lemma track_email_spec hashes n e :
  Rotating.track_email (hashes, n) e
  = match hashes !! Rotating.get_email_hash e with
    | Some _ => (hashes, n)
    | None => (<[Rotating.get_email_hash e := true]> hashes, n + 1)
    end.
Proof. unfold Rotating.track_email. by destruct (hashes !! _). Qed.

Lemma track_fold_spec batch :
  forall hashes n,
    let r := fold_left Rotating.track_email batch (hashes, n) in
    snd r - n = Z.of_nat (size (fst r)) - Z.of_nat (size hashes)
    /\ dom (fst r) = dom hashes ∪ Cover.fingerprints batch.
Proof.
  induction batch as [|e batch IH]; intros hashes n; cbv zeta.
  - simpl. split; [lia|]. unfold Cover.fingerprints. simpl. set_solver.
  - cbn [fold_left]. rewrite track_email_spec.
    destruct (hashes !! Rotating.get_email_hash e) as [b|] eqn:Hl.
    + destruct (IH hashes n) as [IH1 IH2]. split; [exact IH1|].
      rewrite IH2. unfold Cover.fingerprints. simpl.
      assert (Rotating.get_email_hash e ∈ dom hashes)
        by (apply elem_of_dom; eauto).
      set_solver.
    + destruct (IH (<[Rotating.get_email_hash e := true]> hashes) (n + 1))
        as [IH1 IH2].
      rewrite map_size_insert_None in IH1 by done. split; [lia|].
      rewrite IH2, dom_insert_L. unfold Cover.fingerprints. simpl.
      set_solver.
Qed.

Lemma track_fold_seen batch :
  forall hashes n,
    Cover.fingerprints batch ⊆ dom hashes ->
    fold_left Rotating.track_email batch (hashes, n) = (hashes, n).
Proof.
  induction batch as [|e batch IH]; intros hashes n Hsub; [done|].
  cbn [fold_left]. rewrite track_email_spec.
  unfold Cover.fingerprints in Hsub. simpl in Hsub.
  assert (He : Rotating.get_email_hash e ∈ dom hashes) by set_solver.
  apply elem_of_dom in He as [b ->]. apply IH.
  unfold Cover.fingerprints. set_solver.
Qed.

(** C8. A record whose fingerprint is already among the processed hashes
    leaves the hashes and the count of new records as they are; a record
    with an unseen fingerprint enters the hashes and adds exactly one.  So
    the count of a batch is the number of fingerprints it added, nothing is
    removed, a batch selected a second time counts zero, and this count is
    what [main] records as [new_emails]. *)
Theorem C8_no_double_counting :
  forall (ev : Rotating.env) (st : Rotating.state)
         (batch : list Rotating.email) (hashes : gmap string bool)
         (e : Rotating.email) (n : Z),
    (hashes !! Rotating.get_email_hash e <> None ->
     Rotating.track_email (hashes, n) e = (hashes, n))
    /\ (hashes !! Rotating.get_email_hash e = None ->
        Rotating.track_email (hashes, n) e
        = (<[Rotating.get_email_hash e := true]> hashes, n + 1))
    /\ (let tracked := Rotating.track_unique batch hashes in
        snd tracked = Z.of_nat (size (fst tracked)) - Z.of_nat (size hashes)
        /\ dom (fst tracked) = dom hashes ∪ Cover.fingerprints batch
        /\ Rotating.track_unique batch (fst tracked) = (fst tracked, 0))
    /\ (let tracked :=
          Rotating.track_unique (Rotating.batch (Sched.collected ev st))
            (Rotating.processed_hashes st) in
        Rotating.processed_hashes (fst (Rotating.main ev st)) = fst tracked
        /\ (Rotating.new_emails <$> last (Rotating.run_history
                                            (fst (Rotating.main ev st))))
           = Some (snd tracked)).
Proof.
  intros ev st batch hashes e n. repeat apply conj.
  - intros H. rewrite track_email_spec.
    by destruct (hashes !! Rotating.get_email_hash e).
  - intros H. by rewrite track_email_spec, H.
  - destruct (track_fold_spec batch hashes 0) as [H _].
    unfold Rotating.track_unique. lia.
  - by destruct (track_fold_spec batch hashes 0) as [_ H].
  - unfold Rotating.track_unique. apply track_fold_seen.
    destruct (track_fold_spec batch hashes 0) as [_ H].
    fold (Rotating.track_unique batch hashes) in H. unfold Rotating.track_unique in H.
    rewrite H. set_solver.
  - by rewrite main_saved_state.
  - rewrite main_saved_state. simpl. by rewrite last_snoc.
Qed.

Lemma C8_no_double_counting_witness :
  let e := Rotating.Email (Some "Lunch") (Some "jane.doe@corp.com")
             (Some "See you at noon") None in
  let h := Rotating.get_email_hash e in
  Rotating.track_email (∅, 0) e = (<[h := true]> ∅, 0 + 1)
  /\ Rotating.track_email ({[h := true]}, 1) e = ({[h := true]}, 1).
Proof.
  intros e h. split.
  - destruct (C8_no_double_counting Pseudo.no_sources Rotating.initial_state
                [] ∅ e 0) as (_ & Hnew & _).
    apply Hnew. by_eval.
  - destruct (C8_no_double_counting Pseudo.no_sources Rotating.initial_state
                [] {[h := true]} e 1) as (Hseen & _).
    apply Hseen. by_eval.
Defined.

(** ** Pseudonyms *)

Lemma generate_email_ok original c :
  Pseudo.cache_ok c ->
  Pseudo.cache_ok (snd (Personal.generate_anonymous_email original c))
  /\ fst (Personal.generate_anonymous_email original c)
     = "user_"
       ++ PyStr.take 8
            (Hashlib.md5_hexdigest (PyStr.encode (PyStr.lower original)))
       ++ "@example.com".
Proof.
  intros Hok. unfold Personal.generate_anonymous_email.
  destruct (Personal.email_cache c !! PyStr.lower original) as [anon|] eqn:Hl.
  - split; [done|]. simpl. by apply Hok.
  - split; [|done]. intros key anon. simpl. rewrite lookup_insert.
    case_decide as Hk.
    + intros [= <-]. by rewrite <- Hk.
    + apply Hok.
Qed.

Lemma generate_name_ok original c :
  Pseudo.cache_ok c ->
  Pseudo.cache_ok (snd (Personal.generate_anonymous_name original c)).
Proof.
  intros Hok. unfold Personal.generate_anonymous_name.
  by destruct (Personal.name_cache c !! PyStr.lower original).
Qed.

Lemma resolve_all_ok rqs :
  forall c, Pseudo.cache_ok c -> Pseudo.cache_ok (Pseudo.resolve_all rqs c).
Proof.
  induction rqs as [|rq rqs IH]; intros c Hok; [done|].
  apply IH. destruct rq as [original|original]; simpl.
  - by apply generate_email_ok.
  - by apply generate_name_ok.
Qed.

Lemma empty_caches_ok : Pseudo.cache_ok Personal.empty_caches.
Proof. intros key anon. simpl. by rewrite lookup_empty. Qed.

(** *** Splitting at a separator *)

Lemma rsplit1_none c s :
  PyStr.rsplit1 c s = None -> PyStr.contains c s = false /\ PyStr.split c s = [s].
Proof.
  induction s as [|d s IH]; simpl; [done|].
  destruct (PyStr.rsplit1 c s) as [[a b]|]; [done|].
  destruct (Ascii.eqb c d); [done|]. intros _.
  destruct IH as [-> ->]; done.
Qed.

Lemma rsplit1_some c s a b :
  PyStr.rsplit1 c s = Some (a, b) ->
  PyStr.contains c s = true
  /\ List.last (PyStr.split c s) "" = b
  /\ (2 <= length (PyStr.split c s))%nat.
Proof.
  revert a. induction s as [|d s IH]; intros a; simpl; [done|].
  destruct (PyStr.rsplit1 c s) as [[a' b']|] eqn:Hr.
  - intros [= <- <-]. destruct (IH a' eq_refl) as (Hc & Hl & Hn).
    rewrite Hc. destruct (Ascii.eqb c d).
    + split; [done|].
      destruct (PyStr.split c s) as [|p [|q ps]]; simpl in *; [lia|lia|].
      split; [done|lia].
    + split; [done|].
      destruct (PyStr.split c s) as [|p [|q ps]]; simpl in *; [lia|lia|].
      split; [done|lia].
  - destruct (Ascii.eqb c d); [|done]. intros [= <- <-].
    destruct (rsplit1_none c s Hr) as [_ ->]. simpl. split; [done|]. split; [done|lia].
Qed.

(** [hash_email] keeps the top-level domain of an address that has one
    and falls back to [com]. *)
Lemma hash_email_shape X :
  Enron.hash_email X
  = (let hash_value :=
       PyStr.take 8
         (Hashlib.sha256_hexdigest
            (PyStr.encode (PyStr.lower X ++ Enron.ANONYMIZATION_SALT))) in
     "user_" ++ hash_value ++ "@example." ++ default "com" (Pseudo.tld X)).
Proof.
  unfold Enron.hash_email, Pseudo.tld. cbv zeta.
  destruct (PyStr.rsplit1 "@" X) as [[local domain]|] eqn:Hat.
  - destruct (rsplit1_some _ _ _ _ Hat) as (-> & _ & _).
    destruct (PyStr.rsplit1 "." domain) as [[a t]|] eqn:Hdot.
    + destruct (rsplit1_some _ _ _ _ Hdot) as (_ & -> & Hn).
      apply Nat.leb_le in Hn. by rewrite Hn.
    + destruct (rsplit1_none _ _ Hdot) as [_ ->]. done.
  - destruct (rsplit1_none _ _ Hat) as [-> _]. done.
Qed.

(** C5. Within a run, which starts with empty caches, the personal
    scrubber's pseudonym of an address is the same at every call, whatever
    addresses and names were resolved before and in between: it is the one
    computed from the lower-cased address.  The Enron scrubber's
    [hash_email] reads nothing but its argument and the fixed salt.  Two
    records from [jane.doe@corp.com] with another sender between them get
    the same replacement. *)
Theorem C5_pseudonyms_are_consistent :
  forall (X : string) (before between : list Pseudo.request),
    (let c1 := Pseudo.resolve_all before Personal.empty_caches in
     let first := Personal.generate_anonymous_email X c1 in
     let c3 := Pseudo.resolve_all between (snd first) in
     let second := Personal.generate_anonymous_email X c3 in
     fst second = fst first
     /\ fst first
        = "user_"
          ++ PyStr.take 8
               (Hashlib.md5_hexdigest (PyStr.encode (PyStr.lower X)))
          ++ "@example.com")
    /\ Enron.hash_email X
       = (let hash_value :=
            PyStr.take 8
              (Hashlib.sha256_hexdigest
                 (PyStr.encode (PyStr.lower X ++ Enron.ANONYMIZATION_SALT))) in
          "user_" ++ hash_value ++ "@example."
          ++ default "com" (Pseudo.tld X))
    /\ (let jane := Rotating.Email (Some "Hi") (Some "jane.doe@corp.com")
                      (Some "one") None in
        let bob := Rotating.Email (Some "Re: Hi") (Some "Bob <bob@foo.org>")
                     (Some "two") None in
        Rotating.s_from
          <$> fst (Rotating.scrub_batch [jane; bob; jane] Personal.empty_caches)
        = [Some "user_d0e3752d@example.com";
           Some "Bob <user_5921316d@example.com>";
           Some "user_d0e3752d@example.com"]).
Proof.
  intros X before between. split; [|split].
  - intros c1 first c3 second.
    assert (H1 : Pseudo.cache_ok c1)
      by (apply resolve_all_ok, empty_caches_ok).
    destruct (generate_email_ok X c1 H1) as [H2 Hfirst].
    fold first in H2, Hfirst.
    assert (H3 : Pseudo.cache_ok c3) by (by apply resolve_all_ok).
    destruct (generate_email_ok X c3 H3) as [_ Hsecond].
    fold second in Hsecond.
    split; [by rewrite Hfirst, Hsecond | exact Hfirst].
  - apply hash_email_shape.
  - by_eval.
Qed.

(** ** The top-level domain of a pseudonym *)

Lemma drop_app_string (a b : string) k :
  PyStr.drop (String.length a + k) (a ++ b) = PyStr.drop k b.
Proof. induction a as [|c a IH]; simpl; [done|]. exact IH. Qed.

Lemma ends_with_app_l suffix a b :
  Obs.ends_with suffix b = true -> Obs.ends_with suffix (a ++ b) = true.
Proof.
  unfold Obs.ends_with. rewrite !andb_true_iff, !Nat.leb_le, length_app_string.
  intros [Heq Hle]. split; [|lia].
  replace (String.length a + String.length b - String.length suffix)%nat
    with (String.length a + (String.length b - String.length suffix))%nat
    by lia.
  by rewrite drop_app_string.
Qed.

Lemma ends_with_refl s : Obs.ends_with s s = true.
Proof.
  unfold Obs.ends_with. rewrite Nat.sub_diag. simpl.
  rewrite andb_true_iff, Nat.leb_le. split; [|lia].
  destruct s; apply String.eqb_refl.
Qed.

(** *** Every address the email rule matches has a top-level domain *)

Lemma contains_app c (a b : string) :
  PyStr.contains c (a ++ b) = PyStr.contains c a || PyStr.contains c b.
Proof.
  induction a as [|d a IH]; [done|].
  change (PyStr.contains c (String d (a ++ b))
          = PyStr.contains c (String d a) || PyStr.contains c b).
  simpl. by destruct (Ascii.eqb c d).
Qed.

Lemma rsplit1_absent c s :
  PyStr.contains c s = false -> PyStr.rsplit1 c s = None.
Proof.
  induction s as [|d s IH]; simpl; [done|].
  destruct (Ascii.eqb c d); [done|]. intros H. by rewrite (IH H).
Qed.

Lemma rsplit1_app c (a b : string) :
  PyStr.contains c b = false ->
  PyStr.rsplit1 c (a ++ String c b) = Some (a, b).
Proof.
  intros Hb. induction a as [|d a IH].
  - change (PyStr.rsplit1 c (String c b) = Some ("", b)). simpl.
    by rewrite (rsplit1_absent _ _ Hb), Ascii.eqb_refl.
  - change (PyStr.rsplit1 c (String d (a ++ String c b))
            = Some (String d a, b)).
    simpl. by rewrite IH.
Qed.

(** A repeated character set accepts texts of characters of the set. *)
Lemma accepts_rep_cls icase items lo hi w :
  Re.accepts icase (Re.Rep (Re.Cls items) lo hi) w ->
  (lo <= String.length w)%nat
  /\ forall c, PyStr.contains c w = true -> Re.set_matches icase items c = true.
Proof.
  intros (ws & -> & Hall & Hlen). revert lo Hlen.
  induction Hall as [|w ws (d & -> & Hd) Hall IH]; intros lo Hlen.
  - simpl in *. split; [lia|done].
  - destruct (IH (Nat.pred lo)) as [IH1 IH2]; [simpl in Hlen; lia|].
    change (Re.flat (String d "" :: ws)) with (String d (Re.flat ws)).
    split; [simpl; lia|]. intros c. simpl.
    destruct (Ascii.eqb c d) eqn:Hcd; [|apply IH2].
    apply Ascii.eqb_eq in Hcd as ->. done.
Qed.

Lemma accepts_lit_at w : Re.accepts true (Re.lit "@") w -> w = "@".
Proof.
  intros (c & -> & Hc).
  destruct c as [[] [] [] [] [] [] [] []]; vm_compute in Hc;
    first [discriminate | reflexivity].
Qed.

Lemma accepts_lit_dot w : Re.accepts true (Re.lit ".") w -> w = ".".
Proof.
  intros (c & -> & Hc).
  destruct c as [[] [] [] [] [] [] [] []]; vm_compute in Hc;
    first [discriminate | reflexivity].
Qed.

Lemma absent_from_set icase items c w :
  Re.set_matches icase items c = false ->
  (forall d, PyStr.contains d w = true -> Re.set_matches icase items d = true) ->
  PyStr.contains c w = false.
Proof.
  intros Hc Hall. destruct (PyStr.contains c w) eqn:Hw; [|done].
  by rewrite (Hall c Hw) in Hc.
Qed.

Lemma email_match_has_tld advance pv s i n mo :
  Re.match_here Enron.email_pattern advance pv s i = Some (n, mo) ->
  exists t, Pseudo.tld (Re.group0 mo) = Some t /\ (2 <= String.length t)%nat.
Proof.
  intros Hm. apply match_here_accepts in Hm.
  destruct Hm as (w0 & v0 & -> & Hb0 & w1 & v1 & -> & H1 & w2 & v2 & -> & H2
                  & w3 & v3 & -> & H3 & w4 & v4 & -> & H4 & w5 & w6 & -> & H5
                  & Hb6).
  simpl in Hb0, Hb6. subst w0 w6.
  apply accepts_lit_at in H2 as ->. apply accepts_lit_dot in H4 as ->.
  apply accepts_rep_cls in H3 as [_ H3]. apply accepts_rep_cls in H5 as [Hn H5].
  rewrite app_nil_r_string.
  assert (Hat3 : PyStr.contains "@" w3 = false)
    by (by eapply absent_from_set; [|exact H3]).
  assert (Hat5 : PyStr.contains "@" w5 = false)
    by (by eapply absent_from_set; [|exact H5]).
  assert (Hdot5 : PyStr.contains "." w5 = false)
    by (by eapply absent_from_set; [|exact H5]).
  exists w5. split; [|done]. unfold Pseudo.tld.
  change ("" ++ w1 ++ "@" ++ w3 ++ "." ++ w5)
    with (w1 ++ String "@" (w3 ++ String "." w5)).
  rewrite rsplit1_app.
  - by rewrite rsplit1_app.
  - rewrite contains_app, Hat3. simpl. exact Hat5.
Qed.

(** C3, as stated, fails for the personal scrubber: its pseudonyms always
    end in [example.com], so two [.org] addresses get pseudonyms that end in
    [.com]. *)
Lemma C3_counterexample_personal_org :
  let alice := fst (Personal.generate_anonymous_email "alice@foo.org"
                      Personal.empty_caches) in
  let bob := fst (Personal.generate_anonymous_email "bob@foo.org"
                    Personal.empty_caches) in
  Pseudo.tld "alice@foo.org" = Some "org"
  /\ Pseudo.tld "bob@foo.org" = Some "org"
  /\ alice = "user_6f796f9d@example.com"
  /\ bob = "user_5921316d@example.com"
  /\ Obs.ends_with ".org" alice = false
  /\ Obs.ends_with ".org" bob = false.
Proof. repeat apply conj; by_eval. Qed.

(** C3, amended. The Enron scrubber's [hash_email] preserves the top-level
    domain: for an address whose domain ends in [.t], the pseudonym ends in
    [.t], and every text the email rule matches is such an address.  The
    personal scrubber's [generate_anonymous_email] does not look at the
    domain: at any point of a run its pseudonym ends in [@example.com]. *)
Theorem C3_tld_kept_by_hash_email_only :
  forall (email t : string) (before : list Pseudo.request),
    (Pseudo.tld email = Some t ->
     Obs.ends_with ("." ++ t) (Enron.hash_email email) = true)
    /\ Obs.ends_with "@example.com"
         (fst (Personal.generate_anonymous_email email
                 (Pseudo.resolve_all before Personal.empty_caches)))
       = true
    /\ (forall advance pv s i n mo,
          Re.match_here Enron.email_pattern advance pv s i = Some (n, mo) ->
          exists t',
            Pseudo.tld (Re.group0 mo) = Some t'
            /\ Obs.ends_with ("." ++ t') (Enron.hash_email (Re.group0 mo))
               = true).
Proof.
  intros email t before.
  assert (Hkeep : forall e t', Pseudo.tld e = Some t' ->
             Obs.ends_with ("." ++ t') (Enron.hash_email e) = true).
  { intros e t' Ht. rewrite hash_email_shape, Ht. cbv zeta. simpl default.
    apply (ends_with_app_l _ "user_").
    apply ends_with_app_l.
    apply (ends_with_app_l _ "@example"). apply ends_with_refl. }
  split; [apply Hkeep|]. split.
  - assert (H : Pseudo.cache_ok (Pseudo.resolve_all before Personal.empty_caches))
      by (apply resolve_all_ok, empty_caches_ok).
    destruct (generate_email_ok email _ H) as [_ ->].
    apply (ends_with_app_l _ "user_"). apply ends_with_app_l.
    apply ends_with_refl.
  - intros advance pv s i n mo Hm.
    destruct (email_match_has_tld _ _ _ _ _ _ Hm) as (t' & Ht' & _).
    exists t'. split; [done|]. by apply Hkeep.
Qed.

Lemma C3_tld_witness :
  Pseudo.tld "alice@foo.org" = Some "org"
  /\ Obs.ends_with ".org" (Enron.hash_email "alice@foo.org") = true
  /\ Obs.ends_with ".org" (Enron.hash_email "bob@foo.org") = true.
Proof.
  split; [by_eval|]. split.
  - destruct (C3_tld_kept_by_hash_email_only "alice@foo.org" "org" [])
      as [H _].
    apply H. by_eval.
  - destruct (C3_tld_kept_by_hash_email_only "bob@foo.org" "org" [])
      as [H _].
    apply H. by_eval.
Defined.

(** ** Folded header lines *)

Lemma split_single c p : PyStr.contains c p = false -> PyStr.split c p = [p].
Proof.
  induction p as [|d p IH]; simpl; [done|].
  destruct (Ascii.eqb c d); [done|]. intros H. by rewrite (IH H).
Qed.

Lemma split_app_sep c p rest :
  PyStr.contains c p = false ->
  PyStr.split c (p ++ String c rest) = p :: PyStr.split c rest.
Proof.
  induction p as [|d p IH]; simpl.
  - by rewrite Ascii.eqb_refl.
  - destruct (Ascii.eqb c d); [done|]. intros H. by rewrite (IH H).
Qed.

Lemma split_join c lines :
  lines <> [] ->
  Forall (fun x => PyStr.contains c x = false) lines ->
  PyStr.split c (PyStr.join c lines) = lines.
Proof.
  induction lines as [|p ps IH]; [done|]. intros _ Hall.
  apply Forall_cons in Hall as [Hp Hps].
  destruct ps as [|q qs].
  - simpl. by apply split_single.
  - change (PyStr.join c (p :: q :: qs))
      with (p ++ String c (PyStr.join c (q :: qs))).
    rewrite split_app_sep by done. by rewrite IH.
Qed.

Lemma parse_line_folded st line :
  Enron.in_body st = false -> Lines.blank line = false ->
  Lines.folded line = true ->
  Enron.parse_line st line = st.
Proof.
  unfold Lines.blank, Lines.folded, Enron.parse_line.
  intros -> -> Hf.
  destruct (PyStr.startswith " " line), (PyStr.startswith "009" line);
    try done; by rewrite ?andb_false_r.
Qed.

Lemma parse_line_header st line :
  Enron.in_body st = false -> Lines.blank line = false ->
  Enron.in_body (Enron.parse_line st line) = false.
Proof.
  unfold Lines.blank, Enron.parse_line. intros Hb ->. rewrite Hb.
  repeat case_match; done.
Qed.

Lemma parse_headers_stay pre :
  forall st,
    Enron.in_body st = false ->
    Forall (fun x => Lines.blank x = false) pre ->
    Enron.in_body (fold_left Enron.parse_line pre st) = false.
Proof.
  induction pre as [|x pre IH]; intros st Hb Hall; [done|].
  apply Forall_cons in Hall as [Hx Hpre]. cbn [fold_left].
  apply IH; [|done]. by apply parse_line_header.
Qed.

Lemma parse_lines_skip_folded pre line post :
  Forall (fun x => Lines.blank x = false) pre ->
  Lines.blank line = false -> Lines.folded line = true ->
  Enron.parse_lines (pre ++ line :: post) = Enron.parse_lines (pre ++ post).
Proof.
  intros Hpre Hb Hf. unfold Enron.parse_lines.
  rewrite !fold_left_app. cbn [fold_left].
  rewrite parse_line_folded; [done| |done|done].
  by apply parse_headers_stay.
Qed.

(** C10. A line that starts with a space or a tab and stands before the
    first blank line is dropped: the record parsed from the message is the
    record its other lines give, so the line reaches neither a header value
    nor the body, and unless nothing but an empty text is left the message
    without the line parses to the same record. *)
Theorem C10_folded_header_lines_are_discarded :
  forall (pre post : list string) (line : string),
    Forall (fun x => Lines.one_line x = true) (pre ++ line :: post) ->
    Forall (fun x => Lines.blank x = false) pre ->
    Lines.blank line = false ->
    Lines.folded line = true ->
    Enron.parse_email_message (PyStr.join "010" (pre ++ line :: post))
    = Some (Enron.parse_lines (pre ++ post))
    /\ (PyStr.join "010" (pre ++ post) <> "" ->
        Enron.parse_email_message (PyStr.join "010" (pre ++ line :: post))
        = Enron.parse_email_message (PyStr.join "010" (pre ++ post))).
Proof.
  intros pre post line Hone Hpre Hb Hf.
  assert (Hc : forall l, Forall (fun x => Lines.one_line x = true) l ->
                 Forall (fun x => PyStr.contains "010" x = false) l).
  { intros l Hl. eapply Forall_impl; [exact Hl|]. intros x.
    unfold Lines.one_line. by rewrite negb_true_iff. }
  assert (Hsplit : PyStr.split "010" (PyStr.join "010" (pre ++ line :: post))
                   = (pre ++ line :: post)%list).
  { apply split_join; [destruct pre; done | apply Hc, Hone]. }
  assert (Hmsg : PyStr.join "010" (pre ++ line :: post) <> "").
  { intros Hempty. rewrite Hempty in Hsplit. simpl in Hsplit.
    destruct pre as [|x [|y pre]]; simplify_eq/=. }
  assert (Hfull : Enron.parse_email_message
                    (PyStr.join "010" (pre ++ line :: post))
                  = Some (Enron.parse_lines (pre ++ post))).
  { unfold Enron.parse_email_message.
    apply String.eqb_neq in Hmsg. rewrite Hmsg, Hsplit.
    by rewrite parse_lines_skip_folded. }
  split; [exact Hfull|]. intros Hrest. rewrite Hfull.
  unfold Enron.parse_email_message.
  assert (Hne : (pre ++ post)%list <> []) by (by intros Heq; rewrite Heq in Hrest).
  apply String.eqb_neq in Hrest. rewrite Hrest.
  rewrite split_join; [done|done|].
  apply Hc. rewrite Forall_app in Hone |- *. destruct Hone as [H1 H2].
  apply Forall_cons in H2 as [_ H2]. done.
Qed.

Lemma C10_folded_header_witness :
  let pre := ["From: a@b.com"; "To: x"] in
  let line := "  folded: yes" in
  let post := ["Subject: Hi"; ""; "body"] in
  Enron.parse_email_message (PyStr.join "010" (pre ++ line :: post))
  = Enron.parse_email_message (PyStr.join "010" (pre ++ post))
  /\ Enron.parse_email_message (PyStr.join "010" (pre ++ post))
     = Some (Enron.Parsed "a@b.com" "x" "Hi" "" "" "body").
Proof.
  intros pre line post. split; [|by_eval].
  destruct (C10_folded_header_lines_are_discarded pre post line) as [_ H].
  - apply (bool_decide_unpack _). by_eval.
  - apply (bool_decide_unpack _). by_eval.
  - by_eval.
  - by_eval.
  - apply H. by_eval.
Defined.

(** * Further properties of the scripts *)

(** ** [parse_mbox_batch] *)

Lemma parse_mbox_go_closed msgs :
  forall i offset limit emails,
    Rotating.parse_mbox_go msgs i offset limit emails
    = (emails
       ++ List.firstn (Z.to_nat limit - length emails)
            (omap id (List.skipn (Z.to_nat (offset - i)) msgs)))%list.
Proof.
  induction msgs as [|msg msgs IH]; intros i offset limit emails; simpl.
  - by rewrite skipn_nil, firstn_nil, app_nil_r.
  - destruct (i <? offset) eqn:Hi.
    + apply Z.ltb_lt in Hi. rewrite IH.
      replace (Z.to_nat (offset - i)) with (S (Z.to_nat (offset - (i + 1))))
        by lia.
      done.
    + apply Z.ltb_ge in Hi.
      replace (Z.to_nat (offset - i)) with 0%nat by lia. simpl.
      destruct (Z.of_nat (length emails) >=? limit) eqn:Hl.
      * apply Z.geb_le in Hl.
        replace (Z.to_nat limit - length emails)%nat with 0%nat by lia.
        simpl. by rewrite app_nil_r.
      * rewrite Z.geb_leb in Hl. apply Z.leb_gt in Hl.
        destruct msg as [e|]; rewrite IH;
          replace (Z.to_nat (offset - (i + 1))) with 0%nat by lia; simpl.
        -- rewrite length_app. simpl.
           replace (Z.to_nat limit - length emails)%nat
             with (S (Z.to_nat limit - (length emails + 1)))%nat by lia.
           simpl. by rewrite <- app_assoc.
        -- done.
Qed.

(** [parse_mbox_batch] returns the first [limit] records among the messages
    from index [offset] on that could be read: messages before the offset
    and messages that raise are passed over, a negative offset starts at the
    first message, and a limit of zero or less gives nothing. *)
Theorem parse_mbox_batch_closed_form :
  forall (msgs : list (option Rotating.email)) (offset limit : Z),
    Rotating.parse_mbox_batch msgs offset limit
    = List.firstn (Z.to_nat limit)
        (omap id (List.skipn (Z.to_nat offset) msgs)).
Proof.
  intros msgs offset limit. unfold Rotating.parse_mbox_batch.
  rewrite parse_mbox_go_closed. simpl.
  by rewrite Z.sub_0_r, Nat.sub_0_r.
Qed.

(** ** The size of a batch *)

Lemma slice_length_le {A} (l : list A) (a b : Z) :
  a <= b -> Z.of_nat (length (PyStr.slice l a b)) <= b - a.
Proof.
  intros Hab. unfold PyStr.slice, PyStr.clamp_index.
  rewrite length_take, length_drop.
  destruct (a <? 0) eqn:Ha, (b <? 0) eqn:Hb;
    rewrite ?Z.ltb_lt, ?Z.ltb_ge in *; lia.
Qed.

Lemma omap_length_le {A B} (f : A -> option B) (l : list A) :
  (length (omap f l) <= length l)%nat.
Proof.
  induction l as [|x l IH]; simpl; [lia|].
  change (list_omap A B f l) with (omap f l).
  destruct (f x); simpl; lia.
Qed.

(** What the loop over the sources keeps: the batch and the number still
    needed never add up to more than the batch size. *)
Lemma visit_source_budget ev r acc src bs :
  Batch.sample_ok ev ->
  0 < Rotating.emails_needed acc ->
  Z.of_nat (length (Rotating.batch acc)) + Rotating.emails_needed acc <= bs ->
  let acc' := Rotating.visit_source ev r acc src in
  0 <= Rotating.emails_needed acc'
  /\ Z.of_nat (length (Rotating.batch acc')) + Rotating.emails_needed acc' <= bs.
Proof.
  intros Hsample Hpos Hinv. destruct src as [source_type source_name].
  unfold Rotating.visit_source. cbv zeta.
  repeat case_match; simpl; try lia.
  - rewrite length_app.
    pose proof (slice_length_le (Rotating.eml_files ev source_name)
                  (Rotating.progress_get (Rotating.progress acc)
                     (source_type ++ "_" ++ source_name))
                  (Rotating.progress_get (Rotating.progress acc)
                     (source_type ++ "_" ++ source_name)
                   + Rotating.emails_needed acc)).
    match goal with |- context [omap ?f ?l] =>
      pose proof (omap_length_le f l) end.
    lia.
  - rewrite length_app, length_map, parse_mbox_batch_closed_form.
    rewrite length_take. lia.
  - rewrite length_app, length_map.
    match goal with |- context [Rotating.random_sample ev ?l ?k] =>
      pose proof (Hsample l k) end.
    lia.
Qed.

Lemma collect_sources_budget ev r srcs bs :
  Batch.sample_ok ev ->
  forall acc,
    0 <= Rotating.emails_needed acc ->
    Z.of_nat (length (Rotating.batch acc)) + Rotating.emails_needed acc <= bs ->
    let acc' := Rotating.collect_sources ev r srcs acc in
    0 <= Rotating.emails_needed acc'
    /\ Z.of_nat (length (Rotating.batch acc')) + Rotating.emails_needed acc' <= bs.
Proof.
  intros Hsample. induction srcs as [|src srcs IH]; intros acc Hn Hinv; simpl.
  - done.
  - destruct (Rotating.emails_needed acc <=? 0) eqn:Hle; [done|].
    apply Z.leb_gt in Hle.
    destruct (visit_source_budget ev r acc src bs Hsample Hle Hinv).
    by apply IH.
Qed.

(** A batch never holds more than [batch_size] records, whatever the
    sources return, as long as the batch size is not negative and the
    sampler returns as many records as it is asked for. *)
Theorem batch_is_bounded :
  forall (ev : Rotating.env) (st : Rotating.state) (batch_size : Z),
    0 <= batch_size ->
    Batch.sample_ok ev ->
    Z.of_nat (length (fst (Rotating.get_next_rotation_batch ev st batch_size)))
    <= batch_size.
Proof.
  intros ev st bs Hbs Hsample. unfold Rotating.get_next_rotation_batch. simpl.
  destruct (collect_sources_budget ev (Rotating.rotation_number st)
              (Rotating.rotated_sources (Rotating.rotation_number st)) bs
              Hsample
              (Rotating.Collect [] (Rotating.source_progress st) bs));
    simpl; lia.
Qed.

Lemma small_env_sample_ok : Batch.sample_ok Batch.small_env.
Proof. intros l k Hk. simpl. rewrite length_take. lia. Qed.

Lemma batch_is_bounded_witness :
  Z.of_nat (length (fst (Rotating.get_next_rotation_batch Batch.small_env
                           Rotating.initial_state 4)))
  <= 4
  /\ length (fst (Rotating.get_next_rotation_batch Batch.small_env
                    Rotating.initial_state 4)) = 3%nat.
Proof.
  split; [|by_eval].
  apply (batch_is_bounded Batch.small_env Rotating.initial_state 4);
    [lia | apply small_env_sample_ok].
Defined.

(** ** The source tag of a record *)

Lemma rotated_sources_subset r src :
  src ∈ Rotating.rotated_sources r -> src ∈ Rotating.sources_order.
Proof.
  rewrite rotated_sources_rotate. by rewrite rotate_left_perm.
Qed.

Lemma visit_source_tags ev r acc src :
  src ∈ Rotating.sources_order ->
  Forall (fun e => exists name, name ∈ Batch.source_names
                                /\ Rotating._source e = Some name)
         (Rotating.batch acc) ->
  Forall (fun e => exists name, name ∈ Batch.source_names
                                /\ Rotating._source e = Some name)
         (Rotating.batch (Rotating.visit_source ev r acc src)).
Proof.
  intros Hsrc Hacc.
  assert (Hname : snd src ∈ Batch.source_names)
    by (by apply list_elem_of_fmap_2).
  destruct src as [source_type source_name]. simpl in Hname.
  unfold Rotating.visit_source. cbv zeta.
  repeat case_match; simpl; try done; apply Forall_app; split; try done.
  - apply Forall_forall. intros e He.
    apply list_elem_of_omap in He as (f & _ & Hf).
    destruct f as [e0|]; [|done]. injection Hf as <-. by exists source_name.
  - apply Forall_forall. intros e He.
    apply list_elem_of_fmap in He as (e0 & -> & _). by exists source_name.
  - apply Forall_forall. intros e He.
    apply list_elem_of_fmap in He as (e0 & -> & _). exists "enron".
    split; [|done]. apply (bool_decide_unpack _). by_eval.
Qed.

Lemma collect_sources_tags ev r srcs :
  forall acc,
    Forall (fun src => src ∈ Rotating.sources_order) srcs ->
    Forall (fun e => exists name, name ∈ Batch.source_names
                                  /\ Rotating._source e = Some name)
           (Rotating.batch acc) ->
    Forall (fun e => exists name, name ∈ Batch.source_names
                                  /\ Rotating._source e = Some name)
           (Rotating.batch (Rotating.collect_sources ev r srcs acc)).
Proof.
  induction srcs as [|src srcs IH]; intros acc Hsrcs Hacc; simpl; [done|].
  apply Forall_cons in Hsrcs as [Hsrc Hsrcs].
  case_match; [done|]. apply IH; [done|]. by apply visit_source_tags.
Qed.

Lemma scrub_batch_sources batch :
  forall c,
    Rotating.s_source <$> fst (Rotating.scrub_batch batch c)
    = (fun e => default "unknown" (Rotating._source e)) <$> batch.
Proof.
  induction batch as [|e batch IH]; intros c; [done|].
  cbn [Rotating.scrub_batch]. unfold Rotating.scrub_email.
  destruct (Personal.scrub_pii (Some (default "" (Rotating.subject e))) c)
    as [s c1].
  destruct (Personal.scrub_pii (Some (default "" (Rotating.from e))) c1)
    as [f c2].
  destruct (Personal.scrub_pii (Some (default "" (Rotating.body e))) c2)
    as [b c3].
  specialize (IH c3). destruct (Rotating.scrub_batch batch c3) as [ss c4].
  cbn [fst] in *. rewrite !fmap_cons. cbn [Rotating.s_source]. by rewrite IH.
Qed.

Lemma main_output ev st :
  snd (Rotating.main ev st)
  = fst (Rotating.scrub_batch (Rotating.batch (Sched.collected ev st))
           Personal.empty_caches).
Proof.
  unfold Rotating.main, Rotating.get_next_rotation_batch. simpl.
  fold (Sched.collected ev st).
  by destruct (Rotating.track_unique _ _).
Qed.

(** Every record of a batch carries the name of one of the configured
    sources, so every record [main] writes out has such a name as its
    source: the fallback [unknown] is never used. *)
Theorem batch_records_are_tagged :
  forall (ev : Rotating.env) (st : Rotating.state) (batch_size : Z),
    Forall (fun e => exists name, name ∈ Batch.source_names
                                  /\ Rotating._source e = Some name)
           (fst (Rotating.get_next_rotation_batch ev st batch_size))
    /\ Forall (fun s => Rotating.s_source s ∈ Batch.source_names)
              (snd (Rotating.main ev st))
    /\ "unknown" ∉ Batch.source_names.
Proof.
  intros ev st bs.
  assert (Hall : forall r, Forall (fun src => src ∈ Rotating.sources_order)
                             (Rotating.rotated_sources r)).
  { intros r. apply Forall_forall. intros src. apply rotated_sources_subset. }
  split; [|split].
  - unfold Rotating.get_next_rotation_batch. simpl.
    apply collect_sources_tags; [apply Hall|constructor].
  - rewrite main_output.
    apply (proj1 (Forall_fmap Rotating.s_source
                    (fun name => name ∈ Batch.source_names) _)).
    rewrite scrub_batch_sources. apply Forall_fmap.
    eapply Forall_impl.
    + apply (collect_sources_tags ev _ _
               (Rotating.Collect [] (Rotating.source_progress st)
                  Rotating.BATCH_SIZE)); [apply Hall|constructor].
    + intros e (name & Hname & He). unfold compose. by rewrite He.
  - apply (bool_decide_unpack _). by_eval.
Qed.

(** ** The state over the rotations *)

Lemma total_snoc f history r :
  Batch.total f (history ++ [r]) = Batch.total f history + f r.
Proof.
  induction history as [|x history IH]; simpl; [lia|]. rewrite IH. lia.
Qed.

Lemma track_fold_le batch :
  forall hashes n,
    n <= snd (fold_left Rotating.track_email batch (hashes, n))
      <= n + Z.of_nat (length batch).
Proof.
  induction batch as [|e batch IH]; intros hashes n; [simpl; lia|].
  cbn [fold_left]. rewrite track_email_spec.
  destruct (hashes !! Rotating.get_email_hash e).
  - specialize (IH hashes n). simpl length. lia.
  - specialize (IH (<[Rotating.get_email_hash e := true]> hashes) (n + 1)).
    simpl length. lia.
Qed.

Lemma main_keeps_consistent ev st :
  Batch.consistent st -> Batch.consistent (fst (Rotating.main ev st)).
Proof.
  intros (Hrot & Hnum & Hnew & Htot & Hsize).
  rewrite main_saved_state. cbv zeta. unfold Batch.consistent. simpl.
  rewrite !length_app, !total_snoc. simpl.
  destruct (track_fold_spec (Rotating.batch (Sched.collected ev st))
              (Rotating.processed_hashes st) 0) as [Hcount _].
  pose proof (track_fold_le (Rotating.batch (Sched.collected ev st))
                (Rotating.processed_hashes st) 0) as Hle.
  fold (Rotating.track_unique (Rotating.batch (Sched.collected ev st))
          (Rotating.processed_hashes st)) in Hcount, Hle.
  cbv zeta in Hcount.
  repeat split.
  - lia.
  - rewrite map_app, Hnum. simpl.
    replace (length (Rotating.run_history st) + 1)%nat
      with (S (length (Rotating.run_history st))) by lia.
    rewrite seq_S, map_app. simpl. do 3 f_equal. lia.
  - apply Forall_app. split; [done|]. constructor; [simpl; lia|constructor].
  - lia.
  - lia.
Qed.

(** Starting from the state of a first run, after any number of rotations
    the saved state agrees with its run history: the rotation number is the
    number of runs recorded, the runs are numbered 1, 2, 3, ..., no run
    counts more new records than its batch held, [total_processed] is the
    sum of the batch sizes and the number of processed hashes is the sum of
    the new-record counts. *)
Theorem rotation_state_is_consistent :
  forall evs : list Rotating.env,
    Batch.consistent (Rotating.rotations evs Rotating.initial_state).
Proof.
  assert (H : forall evs st, Batch.consistent st ->
                Batch.consistent (Rotating.rotations evs st)).
  { induction evs as [|ev evs IH]; intros st Hst; [done|].
    simpl. apply IH. by apply main_keeps_consistent. }
  intros evs. apply H. unfold Batch.consistent. simpl.
  repeat split; done.
Qed.

(** ** Reading a directory to its end *)

Lemma slice_short_reaches_end {A} (l : list A) (a n : Z) :
  0 <= a ->
  Z.of_nat (length (PyStr.slice l a (a + n))) < n ->
  Z.of_nat (length l) <= a + Z.of_nat (length (PyStr.slice l a (a + n))).
Proof.
  intros Ha. unfold PyStr.slice, PyStr.clamp_index.
  rewrite length_take, length_drop.
  destruct (a <? 0) eqn:Ha', (a + n <? 0) eqn:Hb;
    rewrite ?Z.ltb_lt, ?Z.ltb_ge in *; lia.
Qed.

Lemma visit_source_needed ev r acc src :
  Rotating.emails_needed (Rotating.visit_source ev r acc src)
  <= Rotating.emails_needed acc.
Proof.
  destruct src as [source_type source_name].
  unfold Rotating.visit_source. cbv zeta.
  repeat case_match; simpl; lia.
Qed.

Lemma collect_sources_needed ev r srcs :
  forall acc,
    Rotating.emails_needed (Rotating.collect_sources ev r srcs acc)
    <= Rotating.emails_needed acc.
Proof.
  induction srcs as [|src srcs IH]; intros acc; simpl; [lia|].
  case_match; [lia|].
  etransitivity; [apply IH|apply visit_source_needed].
Qed.

Lemma collect_sources_reads_to_end ev r name srcs :
  name ∈ Rotating.eml_directories ->
  Rotating.eml_exists ev name = true ->
  forall acc,
    ("eml", name) ∈ srcs ->
    0 <= Rotating.progress_get (Rotating.progress acc) ("eml_" ++ name) ->
    0 < Rotating.emails_needed (Rotating.collect_sources ev r srcs acc) ->
    Z.of_nat (length (Rotating.eml_files ev name))
    <= Rotating.progress_get
         (Rotating.progress (Rotating.collect_sources ev r srcs acc))
         ("eml_" ++ name).
Proof.
  intros Hname Hexists.
  induction srcs as [|src srcs IH]; intros acc Hin Hoff Hleft.
  - by apply elem_of_nil in Hin.
  - simpl in *. destruct (Rotating.emails_needed acc <=? 0) eqn:Hle.
    { apply Z.leb_le in Hle. lia. }
    apply elem_of_cons in Hin as [<-|Hin].
    + assert (Hn : 0 < Rotating.emails_needed
                           (Rotating.visit_source ev r acc ("eml", name))).
      { pose proof (collect_sources_needed ev r srcs
                      (Rotating.visit_source ev r acc ("eml", name))). lia. }
      etransitivity;
        [|apply (collect_sources_mono ev r srcs
                   (Rotating.visit_source ev r acc ("eml", name)))].
      revert Hn. unfold Rotating.visit_source. cbv zeta.
      change ("eml" ++ "_" ++ name) with ("eml_" ++ name).
      rewrite bool_decide_eq_true_2 by done. rewrite Hexists. simpl.
      intros Hn. unfold Rotating.progress_get at 1.
      rewrite lookup_insert_eq. simpl.
      apply slice_short_reaches_end; [done|]. lia.
    + apply IH; [done| |done].
      etransitivity; [exact Hoff|apply visit_source_mono].
Qed.

(** If a rotation ends with room left in its batch, every existing [.eml]
    directory whose stored offset was not negative has been read to its
    end: the offset saved for it is at least the number of its files. *)
Theorem unfilled_batch_exhausts_eml_directories :
  forall (ev : Rotating.env) (st : Rotating.state) (batch_size : Z)
         (name : string),
    name ∈ Rotating.eml_directories ->
    Rotating.eml_exists ev name = true ->
    0 <= Rotating.progress_get (Rotating.source_progress st) ("eml_" ++ name) ->
    0 < Batch.remaining ev st batch_size ->
    Z.of_nat (length (Rotating.eml_files ev name))
    <= Rotating.progress_get
         (Rotating.source_progress
            (snd (Rotating.get_next_rotation_batch ev st batch_size)))
         ("eml_" ++ name).
Proof.
  intros ev st bs name Hname Hexists Hoff Hleft.
  unfold Rotating.get_next_rotation_batch. simpl.
  apply collect_sources_reads_to_end; try done.
  rewrite rotated_sources_rotate, rotate_left_perm.
  apply list_elem_of_fmap_2 with (f := fun n => ("eml", n)) in Hname.
  revert Hname. generalize ("eml", name). apply Forall_forall.
  apply (bool_decide_unpack _). by_eval.
Qed.

Lemma unfilled_batch_witness :
  Z.of_nat (length (Rotating.eml_files Batch.small_env "Inbox-001"))
  <= Rotating.progress_get
       (Rotating.source_progress
          (snd (Rotating.get_next_rotation_batch Batch.small_env
                  Rotating.initial_state 100)))
       "eml_Inbox-001"
  /\ Batch.remaining Batch.small_env Rotating.initial_state 100 = 93.
Proof.
  split; [|by_eval].
  apply (unfilled_batch_exhausts_eml_directories Batch.small_env
           Rotating.initial_state 100 "Inbox-001").
  - apply (bool_decide_unpack _). by_eval.
  - by_eval.
  - by_eval.
  - by_eval.
Defined.

(** ** Fingerprints *)

(** Two records that agree on the first 50 characters of the subject, on
    the sender and on the first 100 characters of the body have the same
    fingerprint, so whichever of them is tracked second is not counted as
    new. *)
Theorem records_with_equal_prefixes_count_once :
  forall (e1 e2 : Rotating.email) (hashes : gmap string bool) (n : Z),
    PyStr.prefix_slice 50 (default "" (Rotating.subject e1))
    = PyStr.prefix_slice 50 (default "" (Rotating.subject e2)) ->
    default "" (Rotating.from e1) = default "" (Rotating.from e2) ->
    PyStr.prefix_slice 100 (default "" (Rotating.body e1))
    = PyStr.prefix_slice 100 (default "" (Rotating.body e2)) ->
    Rotating.get_email_hash e1 = Rotating.get_email_hash e2
    /\ Rotating.track_email (Rotating.track_email (hashes, n) e1) e2
       = Rotating.track_email (hashes, n) e1.
Proof.
  intros e1 e2 hashes n Hs Hf Hb.
  assert (Hh : Rotating.get_email_hash e1 = Rotating.get_email_hash e2).
  { unfold Rotating.get_email_hash. by rewrite Hs, Hf, Hb. }
  split; [done|]. rewrite (track_email_spec hashes n e1).
  destruct (hashes !! Rotating.get_email_hash e1) as [b|] eqn:H1;
    rewrite track_email_spec, <- Hh.
  - by rewrite H1.
  - by rewrite lookup_insert_eq.
Qed.

Lemma records_with_equal_prefixes_witness :
  let e1 := Batch.mail "Lunch" "jane.doe@corp.com" (Format.hundred ++ "A") in
  let e2 := Batch.mail "Lunch" "jane.doe@corp.com" (Format.hundred ++ "B") in
  e1 <> e2
  /\ Rotating.get_email_hash e1 = Rotating.get_email_hash e2
  /\ snd (Rotating.track_unique [e1; e2] ∅) = 1.
Proof.
  intros e1 e2.
  destruct (records_with_equal_prefixes_count_once e1 e2 ∅ 0) as [Hh Ht];
    [by_eval|by_eval|by_eval|].
  split; [by_eval|]. split; [exact Hh|].
  unfold Rotating.track_unique. cbn [fold_left]. rewrite Ht.
  rewrite track_email_spec. by rewrite lookup_empty.
Defined.

Lemma hex_digit_is_hex n :
  0 <= n < 16 -> Format.hex_char (Hashlib.hex_digit n) = true.
Proof.
  intros Hn. replace n with (Z.of_nat (Z.to_nat n)) by lia.
  assert (Hm : (Z.to_nat n < 16)%nat) by lia. revert Hm.
  generalize (Z.to_nat n). intros m Hm.
  do 16 (destruct m as [|m]; [by_eval|]). lia.
Qed.

Lemma hex_format bs :
  Forall (fun b => 0 <= b < 256) bs ->
  String.length (Hashlib.hex bs) = (2 * length bs)%nat
  /\ Format.all_chars Format.hex_char (Hashlib.hex bs) = true.
Proof.
  induction 1 as [|b bs Hb Hbs [IH1 IH2]]; [done|].
  change (Hashlib.hex (b :: bs))
    with (String (Hashlib.hex_digit (Z.shiftr b 4))
            (String (Hashlib.hex_digit (Z.land b 15)) (Hashlib.hex bs))).
  split; [simpl; lia|]. simpl. rewrite IH2, !andb_true_r.
  rewrite !hex_digit_is_hex; [done| |].
  - change 15 with (Z.ones 4). rewrite Z.land_ones by lia.
    apply Z.mod_pos_bound. lia.
  - rewrite Z.shiftr_div_pow2 by lia. change (2 ^ 4) with 16.
    split; [apply Z.div_pos; lia|apply Z.div_lt_upper_bound; lia].
Qed.

Lemma le_bytes_range k x : Forall (fun b => 0 <= b < 256) (Hashlib.le_bytes k x).
Proof.
  unfold Hashlib.le_bytes. apply Forall_forall. intros b Hb.
  apply list_elem_of_fmap in Hb as (i & -> & _).
  change 255 with (Z.ones 8). rewrite Z.land_ones by lia.
  apply Z.mod_pos_bound. lia.
Qed.

Lemma md5_digest_format msg :
  length (Hashlib.MD5.digest msg) = 16%nat
  /\ Forall (fun b => 0 <= b < 256) (Hashlib.MD5.digest msg).
Proof.
  unfold Hashlib.MD5.digest.
  destruct (fold_left _ _ _) as [[[a b] c] d].
  split; [done|]. rewrite !Forall_app. repeat split; apply le_bytes_range.
Qed.

Lemma take_format p n s :
  Format.all_chars p s = true ->
  (n <= String.length s)%nat ->
  String.length (PyStr.take n s) = n
  /\ Format.all_chars p (PyStr.take n s) = true.
Proof.
  revert n. induction s as [|c s IH]; intros n Hall Hn.
  - simpl in Hn. by replace n with 0%nat by lia.
  - destruct n as [|n]; [done|]. simpl in *.
    apply andb_true_iff in Hall as [Hc Hs].
    destruct (IH n Hs) as [IH1 IH2]; [lia|]. by rewrite IH1, IH2, Hc.
Qed.

Lemma md5_hex_prefix_format n msg :
  (n <= 32)%nat ->
  String.length (PyStr.take n (Hashlib.md5_hexdigest msg)) = n
  /\ Format.all_chars Format.hex_char (PyStr.take n (Hashlib.md5_hexdigest msg))
     = true.
Proof.
  intros Hn. destruct (md5_digest_format msg) as [Hlen Hrange].
  destruct (hex_format _ Hrange) as [H1 H2].
  apply take_format; [done|]. unfold Hashlib.md5_hexdigest. rewrite H1, Hlen.
  lia.
Qed.

(** The fingerprint of a record is always twelve lower-case hexadecimal
    digits, and a pseudonym the personal scrubber hands out in a run is
    always [user_], eight such digits and [@example.com]. *)
Theorem fingerprints_and_pseudonyms_are_hex :
  forall (e : Rotating.email) (original : string)
         (before : list Pseudo.request),
    (String.length (Rotating.get_email_hash e) = 12%nat
     /\ Format.all_chars Format.hex_char (Rotating.get_email_hash e) = true)
    /\ exists h,
         fst (Personal.generate_anonymous_email original
                (Pseudo.resolve_all before Personal.empty_caches))
         = "user_" ++ h ++ "@example.com"
         /\ String.length h = 8%nat
         /\ Format.all_chars Format.hex_char h = true.
Proof.
  intros e original before. split.
  - apply md5_hex_prefix_format. lia.
  - assert (H : Pseudo.cache_ok (Pseudo.resolve_all before Personal.empty_caches))
      by (apply resolve_all_ok, empty_caches_ok).
    destruct (generate_email_ok original _ H) as [_ ->].
    eexists. split; [done|]. apply md5_hex_prefix_format. lia.
Qed.

(** ** What a substitution counts *)

Section SubCounts.
Context {St : Type}.
Variable p : Re.pattern.
Variable repl : Re.match_obj -> St -> string * St.
Variable Inv : St -> Prop.
Variable mu : St -> Z.
Hypothesis repl_inv : forall mo σ, Inv σ -> Inv (snd (repl mo σ)).
Hypothesis repl_mu : forall mo σ, Inv σ -> mu (snd (repl mo σ)) = mu σ + 1.

(** A measure that every replacement raises by one never goes down, and
    where it stays as it was the pattern matched nowhere. *)
Lemma sub_go_measure s :
  forall pv i skip σ,
    Inv σ ->
    Inv (snd (Re.sub_go p repl pv s i skip σ))
    /\ mu σ <= mu (snd (Re.sub_go p repl pv s i skip σ))
    /\ (skip = 0%nat ->
        mu (snd (Re.sub_go p repl pv s i skip σ)) = mu σ ->
        Re.search_go p pv s i = false).
Proof.
  induction s as [|c s IH]; intros pv i skip σ Hσ.
  - destruct skip as [|skip]; simpl; [|split; [done|split; [lia|done]]].
    destruct (Re.match_here p false pv "" i) as [[[|n] mo]|]; simpl.
    + pose proof (repl_inv mo σ Hσ) as H1. pose proof (repl_mu mo σ Hσ) as M1.
      destruct (repl mo σ) as [r σ1]. simpl in *.
      destruct (Re.match_here p true pv "" i) as [[[|n2] mo2]|]; simpl;
        try (split; [done|split; [lia|intros _ ?; lia]]).
      pose proof (repl_inv mo2 σ1 H1) as H2.
      pose proof (repl_mu mo2 σ1 H1) as M2.
      destruct (repl mo2 σ1) as [r2 σ2]. simpl in *.
      split; [done|split; [lia|intros _ ?; lia]].
    + pose proof (repl_inv mo σ Hσ) as H1. pose proof (repl_mu mo σ Hσ) as M1.
      destruct (repl mo σ) as [r σ1]. simpl in *.
      split; [done|split; [lia|intros _ ?; lia]].
    + split; [done|split; [lia|done]].
  - destruct skip as [|skip]; simpl.
    2:{ destruct (IH (Some c) (S i) skip σ Hσ) as (? & ? & _).
        split; [done|split; [done|done]]. }
    destruct (Re.match_here p false pv (String c s) i) as [[[|n] mo]|]; simpl.
    + pose proof (repl_inv mo σ Hσ) as H1. pose proof (repl_mu mo σ Hσ) as M1.
      destruct (repl mo σ) as [r σ1]. simpl in *.
      destruct (Re.match_here p true pv (String c s) i) as [[[|n2] mo2]|]; simpl.
      * destruct (IH (Some c) (S i) 0%nat σ1 H1) as (? & ? & _).
        destruct (Re.sub_go p repl (Some c) s (S i) 0 σ1). simpl in *.
        split; [done|split; [lia|intros _ ?; lia]].
      * pose proof (repl_inv mo2 σ1 H1) as H2.
        pose proof (repl_mu mo2 σ1 H1) as M2.
        destruct (repl mo2 σ1) as [r2 σ2]. simpl in *.
        destruct (IH (Some c) (S i) n2 σ2 H2) as (? & ? & _).
        destruct (Re.sub_go p repl (Some c) s (S i) n2 σ2). simpl in *.
        split; [done|split; [lia|intros _ ?; lia]].
      * destruct (IH (Some c) (S i) 0%nat σ1 H1) as (? & ? & _).
        destruct (Re.sub_go p repl (Some c) s (S i) 0 σ1). simpl in *.
        split; [done|split; [lia|intros _ ?; lia]].
    + pose proof (repl_inv mo σ Hσ) as H1. pose proof (repl_mu mo σ Hσ) as M1.
      destruct (repl mo σ) as [r σ1]. simpl in *.
      destruct (IH (Some c) (S i) n σ1 H1) as (? & ? & _).
      destruct (Re.sub_go p repl (Some c) s (S i) n σ1). simpl in *.
      split; [done|split; [lia|intros _ ?; lia]].
    + destruct (IH (Some c) (S i) 0%nat σ Hσ) as (? & ? & Hz).
      destruct (Re.sub_go p repl (Some c) s (S i) 0 σ). simpl in *.
      split; [done|split; [done|]]. intros _ Heq. by apply Hz.
Qed.
End SubCounts.

(** One counted rule of the Enron scrubber: it only touches its own count,
    never lowers it, and changes nothing where the count stays. *)
Lemma counted_rule p (f : Re.match_obj -> string) key text
    (c : gmap string Z) :
  is_Some (c !! key) ->
  let r := Re.sub p (fun mo c => (f mo, Enron.bump key c)) text c in
  dom (snd r) = dom c
  /\ (forall k, k <> key -> Obs.count (snd r) k = Obs.count c k)
  /\ Obs.count c key <= Obs.count (snd r) key
  /\ (Obs.count (snd r) key = Obs.count c key <->
      Re.search p text = false)
  /\ (Re.search p text = false -> r = (text, c)).
Proof.
  intros Hkey r.
  assert (Hdom : dom (snd r) = dom c).
  { apply (sub_preserves p _ (fun c' => dom c' = dom c)); [|done].
    intros mo c' Hc'. simpl. by rewrite bump_dom. }
  assert (Hother : forall k, k <> key -> Obs.count (snd r) k = Obs.count c k).
  { intros k Hk.
    apply (sub_preserves p _ (fun c' => Obs.count c' k = Obs.count c k));
      [|done].
    intros mo c' Hc'. simpl. unfold Obs.count, Enron.bump in *.
    by rewrite lookup_alter_ne. }
  destruct (sub_go_measure p (fun mo c => (f mo, Enron.bump key c))
              (fun c' => is_Some (c' !! key)) (fun c' => Obs.count c' key))
    with (s := text) (pv := @None ascii) (i := 0%nat) (skip := 0%nat) (σ := c)
    as (_ & Hle & Hzero).
  - intros mo c' Hc'. simpl. unfold Enron.bump. rewrite lookup_alter_eq.
    by apply fmap_is_Some.
  - intros mo c' [v Hv]. simpl. unfold Obs.count, Enron.bump.
    rewrite lookup_alter_eq, Hv. simpl. lia.
  - done.
  - fold (Re.sub p (fun mo c => (f mo, Enron.bump key c)) text c) in Hle, Hzero.
    fold r in Hle, Hzero.
    assert (Hid : Re.search p text = false -> r = (text, c))
      by (intros Hs; by apply sub_no_match).
    repeat split; try done.
    + by apply Hzero.
    + intros Hs. by rewrite (Hid Hs).
Qed.

Lemma category_present (c : gmap string Z) key :
  dom c = dom Enron.counts_init -> key ∈ Obs.categories -> is_Some (c !! key).
Proof.
  intros Hdom Hkey. apply elem_of_dom. rewrite Hdom.
  unfold Enron.counts_init. rewrite !dom_insert_L, dom_singleton_L.
  unfold Obs.categories in Hkey. set_solver.
Qed.

Lemma counted_rule_le p (f : Re.match_obj -> string) key text
    (c : gmap string Z) k :
  is_Some (c !! key) ->
  Obs.count c k
  <= Obs.count (snd (Re.sub p (fun mo c => (f mo, Enron.bump key c)) text c)) k.
Proof.
  intros Hkey. destruct (counted_rule p f key text c Hkey) as (_ & Ho & Hle & _).
  destruct (decide (k = key)) as [->|Hne]; [done|]. rewrite (Ho k Hne). lia.
Qed.

(** The stages of [scrub_text], one after the other. *)
Lemma scrub_text_stages t :
  exists r1 c1 r2 c2 r3 c3 r4 c4 r5 c5 r6 c6,
    Re.sub Enron.email_pattern Enron.replace_email t Enron.counts_init = (r1, c1)
    /\ Re.sub Enron.phone_pattern Enron.replace_phone r1 c1 = (r2, c2)
    /\ Re.sub Enron.credit_card_pattern Enron.replace_cc r2 c2 = (r3, c3)
    /\ Re.sub Enron.ssn_pattern Enron.replace_ssn r3 c3 = (r4, c4)
    /\ Re.sub Enron.title_name_pattern Enron.replace_name r4 c4 = (r5, c5)
    /\ Re.sub Enron.enron_executives_pattern Enron.replace_exec r5 c5 = (r6, c6)
    /\ Enron.scrub_text t
       = (Re.sub_const Enron.enron_domain_pattern "@example.com" r6, c6).
Proof.
  unfold Enron.scrub_text.
  destruct (Re.sub Enron.email_pattern _ t _) as [r1 c1] eqn:E1.
  destruct (Re.sub Enron.phone_pattern _ r1 c1) as [r2 c2] eqn:E2.
  destruct (Re.sub Enron.credit_card_pattern _ r2 c2) as [r3 c3] eqn:E3.
  destruct (Re.sub Enron.ssn_pattern _ r3 c3) as [r4 c4] eqn:E4.
  destruct (Re.sub Enron.title_name_pattern _ r4 c4) as [r5 c5] eqn:E5.
  destruct (Re.sub Enron.enron_executives_pattern _ r5 c5) as [r6 c6] eqn:E6.
  exists r1, c1, r2, c2, r3, c3, r4, c4, r5, c5, r6, c6.
  by rewrite E2, E3, E4, E5, E6.
Qed.

(** The counts the Enron scrubber returns are never negative; the count of
    addresses is zero exactly when the email rule matches nowhere in the
    text; and when every count is zero, the text returned is the text given
    with nothing but bare Enron domains rewritten. *)
Theorem zero_counts_mean_no_replacement :
  forall t : string,
    let r := Enron.scrub_text t in
    (forall key, 0 <= Obs.count (snd r) key)
    /\ (Obs.count (snd r) "emails" = 0 <->
        Re.search Enron.email_pattern t = false)
    /\ ((forall key, Obs.count (snd r) key = 0) ->
        fst r = Re.sub_const Enron.enron_domain_pattern "@example.com" t).
Proof.
  intros t r. subst r.
  destruct (scrub_text_stages t)
    as (r1 & c1 & r2 & c2 & r3 & c3 & r4 & c4 & r5 & c5 & r6 & c6
        & E1 & E2 & E3 & E4 & E5 & E6 & ->).
  simpl fst. simpl snd.
  assert (P0 : forall k, k ∈ Obs.categories ->
                 is_Some (Enron.counts_init !! k))
    by (intros k; by apply category_present).
  assert (Hcat : forall k, k ∈ ["emails"; "phones"; "credit_cards"; "ssns";
                                "names"] -> k ∈ Obs.categories) by done.
  pose proof (counted_rule Enron.email_pattern
                (fun mo => Enron.hash_email (Re.group0 mo)) "emails" t
                Enron.counts_init) as S1.
  cbv zeta in S1. change (fun mo c => _) with Enron.replace_email in S1.
  rewrite E1 in S1. simpl in S1.
  destruct S1 as (D1 & O1 & L1 & Z1 & I1); [apply P0, Hcat; set_solver|].
  pose proof (counted_rule Enron.phone_pattern
                (fun _ => "[PHONE_REDACTED]") "phones" r1 c1) as S2.
  cbv zeta in S2. change (fun mo c => _) with Enron.replace_phone in S2.
  rewrite E2 in S2. simpl in S2.
  destruct S2 as (D2 & O2 & L2 & Z2 & I2);
    [apply category_present; [done|apply Hcat; set_solver]|].
  rewrite D1 in D2.
  pose proof (counted_rule Enron.credit_card_pattern
                (fun _ => "[CARD_REDACTED]") "credit_cards" r2 c2) as S3.
  cbv zeta in S3. change (fun mo c => _) with Enron.replace_cc in S3.
  rewrite E3 in S3. simpl in S3.
  destruct S3 as (D3 & O3 & L3 & Z3 & I3);
    [apply category_present; [done|apply Hcat; set_solver]|].
  rewrite D2 in D3.
  pose proof (counted_rule Enron.ssn_pattern
                (fun _ => "[SSN_REDACTED]") "ssns" r3 c3) as S4.
  cbv zeta in S4. change (fun mo c => _) with Enron.replace_ssn in S4.
  rewrite E4 in S4. simpl in S4.
  destruct S4 as (D4 & O4 & L4 & Z4 & I4);
    [apply category_present; [done|apply Hcat; set_solver]|].
  rewrite D3 in D4.
  pose proof (counted_rule Enron.title_name_pattern
                (fun mo => Re.group mo 1 ++ " [NAME_REDACTED]") "names" r4 c4)
    as S5.
  cbv zeta in S5. change (fun mo c => _) with Enron.replace_name in S5.
  rewrite E5 in S5. simpl in S5.
  destruct S5 as (D5 & O5 & L5 & Z5 & I5);
    [apply category_present; [done|apply Hcat; set_solver]|].
  rewrite D4 in D5.
  pose proof (counted_rule Enron.enron_executives_pattern
                (fun _ => "[EXECUTIVE_REDACTED]") "names" r5 c5) as S6.
  cbv zeta in S6. change (fun mo c => _) with Enron.replace_exec in S6.
  rewrite E6 in S6. simpl in S6.
  destruct S6 as (D6 & O6 & L6 & Z6 & I6);
    [apply category_present; [done|apply Hcat; set_solver]|].
  pose proof (counts_init_zero "emails") as N1.
  pose proof (counts_init_zero "phones") as N2.
  pose proof (counts_init_zero "credit_cards") as N3.
  pose proof (counts_init_zero "ssns") as N4.
  pose proof (counts_init_zero "names") as N5.
  assert (Hemails : Obs.count c6 "emails" = Obs.count c1 "emails").
  { rewrite O6, O5, O4, O3, O2 by done. done. }
  split; [|split].
  - intros key. pose proof (counts_init_zero key).
    assert (Hstep : forall (ca cb : gmap string Z) k0,
              (forall k, k <> k0 -> Obs.count cb k = Obs.count ca k) ->
              Obs.count ca k0 <= Obs.count cb k0 ->
              Obs.count ca key <= Obs.count cb key).
    { intros ca cb k0 Ho Hl. destruct (decide (key = k0)) as [->|Hne]; [done|].
      rewrite (Ho key Hne). lia. }
    pose proof (Hstep _ _ _ O1 L1). pose proof (Hstep _ _ _ O2 L2).
    pose proof (Hstep _ _ _ O3 L3). pose proof (Hstep _ _ _ O4 L4).
    pose proof (Hstep _ _ _ O5 L5). pose proof (Hstep _ _ _ O6 L6). lia.
  - rewrite Hemails, <- Z1. lia.
  - intros Hzero.
    pose proof (Hzero "emails") as Q1. pose proof (Hzero "phones") as Q2.
    pose proof (Hzero "credit_cards") as Q3. pose proof (Hzero "ssns") as Q4.
    pose proof (Hzero "names") as Q5.
    assert (F1 : (r1, c1) = (t, Enron.counts_init)).
    { apply I1, Z1. lia. }
    injection F1 as -> ->.
    assert (F2 : (r2, c2) = (t, Enron.counts_init)).
    { apply I2, Z2. rewrite O6, O5, O4, O3 in Q2 by done. lia. }
    injection F2 as -> ->.
    assert (F3 : (r3, c3) = (t, Enron.counts_init)).
    { apply I3, Z3. rewrite O6, O5, O4 in Q3 by done. lia. }
    injection F3 as -> ->.
    assert (F4 : (r4, c4) = (t, Enron.counts_init)).
    { apply I4, Z4. rewrite O6, O5 in Q4 by done. lia. }
    injection F4 as -> ->.
    assert (F5 : (r5, c5) = (t, Enron.counts_init)).
    { apply I5, Z5. lia. }
    injection F5 as -> ->.
    assert (F6 : (r6, c6) = (t, Enron.counts_init)).
    { apply I6, Z6. lia. }
    by injection F6 as -> ->.
Qed.

(** ** [process_email] *)

Lemma app_nonempty_string (a b : string) : a <> "" -> a ++ b <> "".
Proof. destruct a; [done|]. intros _. discriminate. Qed.

Lemma sub_nonempty {St} p (repl : Re.match_obj -> St -> string * St) :
  (forall mo σ, fst (repl mo σ) <> "") ->
  forall c s σ, fst (Re.sub p repl (String c s) σ) <> "".
Proof.
  intros Hrepl c s σ. unfold Re.sub. simpl.
  destruct (Re.match_here p false None (String c s) 0) as [[[|n] mo]|].
  - pose proof (Hrepl mo σ) as H1. destruct (repl mo σ) as [r σ1].
    destruct (Re.match_here p true None (String c s) 0) as [[[|n2] mo2]|].
    + destruct (Re.sub_go p repl (Some c) s 1 0 σ1). simpl.
      by apply app_nonempty_string.
    + destruct (repl mo2 σ1) as [r2 σ2].
      destruct (Re.sub_go p repl (Some c) s 1 n2 σ2). simpl.
      by apply app_nonempty_string.
    + destruct (Re.sub_go p repl (Some c) s 1 0 σ1). simpl.
      by apply app_nonempty_string.
  - pose proof (Hrepl mo σ) as H1. destruct (repl mo σ) as [r σ1].
    destruct (Re.sub_go p repl (Some c) s 1 n σ1). simpl.
    by apply app_nonempty_string.
  - by destruct (Re.sub_go p repl (Some c) s 1 0 σ).
Qed.

(** The Enron scrubber never turns a text into the empty text. *)
Lemma enron_scrub_text_nonempty a t : fst (Enron.scrub_text (String a t)) <> "".
Proof.
  destruct (scrub_text_stages (String a t))
    as (r1 & c1 & r2 & c2 & r3 & c3 & r4 & c4 & r5 & c5 & r6 & c6
        & E1 & E2 & E3 & E4 & E5 & E6 & ->).
  assert (N1 : r1 <> "").
  { pose proof (sub_nonempty Enron.email_pattern Enron.replace_email) as H.
    specialize (H (fun mo σ => ltac:(
      simpl; rewrite hash_email_shape; discriminate)) a t Enron.counts_init).
    by rewrite E1 in H. }
  destruct r1 as [|a1 t1]; [done|].
  assert (N2 : r2 <> "").
  { pose proof (sub_nonempty Enron.phone_pattern Enron.replace_phone
                  (fun mo σ => ltac:(discriminate)) a1 t1 c1) as H.
    by rewrite E2 in H. }
  destruct r2 as [|a2 t2]; [done|].
  assert (N3 : r3 <> "").
  { pose proof (sub_nonempty Enron.credit_card_pattern Enron.replace_cc
                  (fun mo σ => ltac:(discriminate)) a2 t2 c2) as H.
    by rewrite E3 in H. }
  destruct r3 as [|a3 t3]; [done|].
  assert (N4 : r4 <> "").
  { pose proof (sub_nonempty Enron.ssn_pattern Enron.replace_ssn
                  (fun mo σ => ltac:(discriminate)) a3 t3 c3) as H.
    by rewrite E4 in H. }
  destruct r4 as [|a4 t4]; [done|].
  assert (N5 : r5 <> "").
  { pose proof (sub_nonempty Enron.title_name_pattern Enron.replace_name) as H.
    specialize (H (fun mo σ => ltac:(
      simpl; apply not_eq_sym; destruct (Re.group mo 1); discriminate))
      a4 t4 c4).
    by rewrite E5 in H. }
  destruct r5 as [|a5 t5]; [done|].
  assert (N6 : r6 <> "").
  { pose proof (sub_nonempty Enron.enron_executives_pattern Enron.replace_exec
                  (fun mo σ => ltac:(discriminate)) a5 t5 c5) as H.
    by rewrite E6 in H. }
  destruct r6 as [|a6 t6]; [done|].
  simpl. unfold Re.sub_const.
  apply (sub_nonempty Enron.enron_domain_pattern
           (fun _ (u : unit) => ("@example.com", u))).
  intros mo σ. discriminate.
Qed.

Lemma scrub_pii_falsy x :
  EnronRun.falsy (fst (Enron.scrub_pii (Some x))) = String.eqb x "".
Proof.
  destruct x as [|a t]; [done|].
  pose proof (enron_scrub_text_nonempty a t) as H.
  unfold Enron.scrub_pii. destruct (Enron.scrub_text (String a t)) as [r c].
  simpl in *. by destruct r.
Qed.

Lemma take_length_le n s : (String.length (PyStr.take n s) <= n)%nat.
Proof.
  revert n. induction s as [|c s IH]; intros [|n]; simpl; try lia.
  specialize (IH n). lia.
Qed.

(** The record [process_email] returns does not depend on [stats]. *)
Lemma process_email_result parsed st :
  fst (EnronRun.process_email parsed st)
  = if String.eqb (Enron.subject parsed) ""
       && String.eqb (Enron.from_addr parsed) ""
    then None
    else
      Some (EnronRun.ZeroEmail
              (EnronRun.or_default
                 (fst (Enron.scrub_pii (Some (Enron.subject parsed))))
                 "(No Subject)")
              (EnronRun.or_default
                 (fst (Enron.scrub_pii (Some (Enron.from_addr parsed))))
                 "unknown@example.com")
              (if String.eqb (Enron.body parsed) "" then ""
               else PyStr.prefix_slice 10000
                      (default "" (fst (Enron.scrub_pii
                                          (Some (Enron.body parsed))))))
              false "enron_corpus").
Proof.
  unfold EnronRun.process_email.
  pose proof (scrub_pii_falsy (Enron.from_addr parsed)) as Hf.
  pose proof (scrub_pii_falsy (Enron.subject parsed)) as Hs.
  pose proof (scrub_pii_falsy (Enron.body parsed)) as Hb.
  destruct (Enron.scrub_pii (Some (Enron.from_addr parsed))) as [f fc].
  destruct (Enron.scrub_pii (Some (Enron.subject parsed))) as [s sc].
  destruct (Enron.scrub_pii (Some (Enron.body parsed))) as [b bc].
  simpl in *. rewrite Hf, Hs, Hb.
  by destruct (String.eqb (Enron.subject parsed) ""),
       (String.eqb (Enron.from_addr parsed) "").
Qed.

Lemma or_default_nonempty x d : d <> "" -> EnronRun.or_default x d <> "".
Proof. intros Hd. by destruct x as [[|c s]|]. Qed.

(** [process_email] drops a message exactly when it has neither a subject
    nor a sender.  The record it returns otherwise has a subject and a
    sender that are not empty (the placeholders stand in for a missing one),
    a body of at most 10000 characters, and the fixed source tag. *)
Theorem process_email_drops_only_anonymous_messages :
  forall (parsed : Enron.parsed) (st : EnronRun.stats),
    (fst (EnronRun.process_email parsed st) = None <->
     Enron.subject parsed = "" /\ Enron.from_addr parsed = "")
    /\ forall e,
         fst (EnronRun.process_email parsed st) = Some e ->
         EnronRun.subject e <> "" /\ EnronRun.from e <> ""
         /\ (String.length (EnronRun.body e) <= 10000)%nat
         /\ EnronRun.generated e = false
         /\ EnronRun.source e = "enron_corpus"
         /\ (Enron.subject parsed = "" -> EnronRun.subject e = "(No Subject)")
         /\ (Enron.from_addr parsed = "" ->
             EnronRun.from e = "unknown@example.com").
Proof.
  intros parsed st. rewrite process_email_result. split.
  - destruct (String.eqb (Enron.subject parsed) "") eqn:Hs,
             (String.eqb (Enron.from_addr parsed) "") eqn:Hf; simpl;
      rewrite ?String.eqb_eq, ?String.eqb_neq in *; split; try done;
      intros [? ?]; done.
  - intros e He. destruct (_ && _); [done|]. injection He as <-. simpl.
    repeat split.
    + by apply or_default_nonempty.
    + by apply or_default_nonempty.
    + destruct (String.eqb (Enron.body parsed) ""); [simpl; lia|].
      apply take_length_le.
    + by intros ->.
    + by intros ->.
Qed.

Lemma process_email_witness :
  let parsed := Enron.Parsed "" "bob@foo.org" "Call 555-123-4567" "" "" "" in
  fst (EnronRun.process_email parsed EnronRun.stats_init)
  = Some (EnronRun.ZeroEmail "Call [PHONE_REDACTED]" "unknown@example.com" ""
            false "enron_corpus")
  /\ EnronRun.from (EnronRun.ZeroEmail "Call [PHONE_REDACTED]"
                      "unknown@example.com" "" false "enron_corpus")
     = "unknown@example.com".
Proof.
  intros parsed.
  assert (He : fst (EnronRun.process_email parsed EnronRun.stats_init)
               = Some (EnronRun.ZeroEmail "Call [PHONE_REDACTED]"
                         "unknown@example.com" "" false "enron_corpus"))
    by by_eval.
  split; [exact He|].
  destruct (process_email_drops_only_anonymous_messages parsed
              EnronRun.stats_init) as [_ H].
  destruct (H _ He) as (_ & _ & _ & _ & _ & _ & Hfrom). by apply Hfrom.
Defined.

(** ** [process_chunk] *)

Lemma scrub_pii_counts_nonneg x key :
  0 <= Obs.count (snd (Enron.scrub_pii (Some x))) key.
Proof.
  destruct x as [|a t]; [done|].
  destruct (zero_counts_mean_no_replacement (String a t)) as [H _].
  specialize (H key). unfold Enron.scrub_pii.
  by destruct (Enron.scrub_text (String a t)).
Qed.

Lemma bump_if_bounds b n :
  n <= EnronRun.bump_if b n <= n + 1.
Proof. destruct b; simpl; lia. Qed.

Lemma process_email_stats parsed st :
  let st' := snd (EnronRun.process_email parsed st) in
  EnronRun.total_rows st' = EnronRun.total_rows st
  /\ EnronRun.processed_emails st' = EnronRun.processed_emails st
  /\ EnronOut.stats_le st st'.
Proof.
  unfold EnronRun.process_email.
  pose proof (scrub_pii_counts_nonneg (Enron.from_addr parsed)) as Hf.
  pose proof (scrub_pii_counts_nonneg (Enron.subject parsed)) as Hs.
  pose proof (scrub_pii_counts_nonneg (Enron.body parsed)) as Hb.
  destruct (Enron.scrub_pii (Some (Enron.from_addr parsed))) as [f fc].
  destruct (Enron.scrub_pii (Some (Enron.subject parsed))) as [s sc].
  destruct (Enron.scrub_pii (Some (Enron.body parsed))) as [b bc].
  simpl in Hf, Hs, Hb.
  assert (Hle : EnronOut.stats_le st
            (EnronRun.Stats (EnronRun.total_rows st)
               (EnronRun.processed_emails st) (EnronRun.parse_errors st)
               (map_imap (fun key v =>
                            Some (v + Obs.count fc key + Obs.count sc key
                                  + Obs.count bc key))
                         (EnronRun.pii_scrubbed st))
               (EnronRun.bump_if (EnronRun.falsy s) (EnronRun.missing_subject st))
               (EnronRun.bump_if (EnronRun.falsy f) (EnronRun.missing_from st))
               (EnronRun.bump_if (EnronRun.falsy b) (EnronRun.empty_body st)))).
  { unfold EnronOut.stats_le. simpl.
    pose proof (bump_if_bounds (EnronRun.falsy s) (EnronRun.missing_subject st)).
    pose proof (bump_if_bounds (EnronRun.falsy f) (EnronRun.missing_from st)).
    pose proof (bump_if_bounds (EnronRun.falsy b) (EnronRun.empty_body st)).
    repeat split; try lia.
    intros key. unfold Obs.count at 1 2. rewrite map_lookup_imap.
    destruct (EnronRun.pii_scrubbed st !! key) as [v|]; simpl; [|lia].
    specialize (Hf key). specialize (Hs key). specialize (Hb key). lia. }
  cbv zeta. by destruct (EnronRun.falsy s && EnronRun.falsy f).
Qed.

Lemma stats_le_refl st : EnronOut.stats_le st st.
Proof. unfold EnronOut.stats_le. repeat split; lia. Qed.

Lemma stats_le_trans a b c :
  EnronOut.stats_le a b -> EnronOut.stats_le b c -> EnronOut.stats_le a c.
Proof.
  unfold EnronOut.stats_le.
  intros (? & ? & ? & ? & ? & Hab) (? & ? & ? & ? & ? & Hbc).
  repeat split; try lia. intros key. specialize (Hab key).
  specialize (Hbc key). lia.
Qed.

Lemma entries_cons row rows :
  EnronOut.entries (row :: rows)
  = match EnronOut.entry row with
    | Some e => e :: EnronOut.entries rows
    | None => EnronOut.entries rows
    end.
Proof. done. Qed.

(** One row: what it adds to the file, to the count and to [stats]. *)
Lemma process_row_spec s row :
  let s' := EnronRun.process_row s row in
  let es := EnronOut.entries [row] in
  EnronRun.written s'
  = EnronRun.written s
    ++ EnronOut.render (EnronRun.first_chunk s && (EnronRun.processed s =? 0)) es
  /\ EnronRun.processed s' = EnronRun.processed s + Z.of_nat (length es)
  /\ (0 <= EnronRun.processed s ->
      EnronRun.first_chunk s' && (EnronRun.processed s' =? 0)
      = EnronRun.first_chunk s && (EnronRun.processed s =? 0)
        && bool_decide (es = []))
  /\ EnronRun.total_rows (EnronRun.cstats s')
     = EnronRun.total_rows (EnronRun.cstats s) + 1
  /\ EnronRun.processed_emails (EnronRun.cstats s')
     = EnronRun.processed_emails (EnronRun.cstats s) + Z.of_nat (length es)
  /\ EnronOut.stats_le (EnronRun.cstats s) (EnronRun.cstats s').
Proof.
  cbv zeta. rewrite entries_cons. unfold EnronOut.entry, EnronRun.process_row.
  assert (Hrow : EnronOut.stats_le (EnronRun.cstats s)
                   (EnronRun.count_row (EnronRun.cstats s))).
  { unfold EnronOut.stats_le. simpl. repeat split; lia. }
  destruct (Enron.parse_email_message (default "" row)) as [parsed|].
  - pose proof (process_email_stats parsed
                  (EnronRun.count_row (EnronRun.cstats s))) as (Ht & Hp & Hle).
    rewrite (process_email_result parsed EnronRun.stats_init).
    rewrite <- (process_email_result parsed
                  (EnronRun.count_row (EnronRun.cstats s))).
    destruct (EnronRun.process_email parsed
                (EnronRun.count_row (EnronRun.cstats s))) as [[e|] st'];
      simpl in *.
    + rewrite app_nil_r_string, Ht, Hp.
      split; [done|]. split; [done|]. split; [intros _|].
      { by rewrite andb_false_r. }
      split; [done|]. split; [done|].
      eapply stats_le_trans; [exact Hrow|]. eapply stats_le_trans; [exact Hle|].
      unfold EnronOut.stats_le. simpl. repeat split; lia.
    + rewrite app_nil_r_string, Ht, Hp, Z.add_0_r.
      split; [done|]. split; [done|]. split; [intros _|].
      { by rewrite andb_true_r. }
      split; [done|]. split; [lia|]. by eapply stats_le_trans.
  - simpl. rewrite app_nil_r_string, Z.add_0_r.
    split; [done|]. split; [done|]. split; [intros _|].
    { by rewrite andb_true_r. }
    split; [done|]. split; [lia|done].
Qed.

Lemma render_app es1 es2 first :
  EnronOut.render first (es1 ++ es2)
  = EnronOut.render first es1
    ++ EnronOut.render (first && bool_decide (es1 = [])) es2.
Proof.
  destruct es1 as [|e es1].
  - simpl. by rewrite andb_true_r.
  - rewrite andb_false_r. simpl. rewrite !app_assoc_string. do 3 f_equal.
    clear e. induction es1 as [|e es1 IH]; [done|]. simpl.
    rewrite !app_assoc_string. by rewrite IH.
Qed.

Lemma process_rows_spec chunk :
  forall s,
    0 <= EnronRun.processed s ->
    let s' := fold_left EnronRun.process_row chunk s in
    let es := EnronOut.entries chunk in
    EnronRun.written s'
    = EnronRun.written s
      ++ EnronOut.render (EnronRun.first_chunk s && (EnronRun.processed s =? 0))
           es
    /\ EnronRun.processed s' = EnronRun.processed s + Z.of_nat (length es)
    /\ EnronRun.total_rows (EnronRun.cstats s')
       = EnronRun.total_rows (EnronRun.cstats s) + Z.of_nat (length chunk)
    /\ EnronRun.processed_emails (EnronRun.cstats s')
       = EnronRun.processed_emails (EnronRun.cstats s) + Z.of_nat (length es)
    /\ EnronOut.stats_le (EnronRun.cstats s) (EnronRun.cstats s').
Proof.
  induction chunk as [|row chunk IH]; intros s Hp; cbv zeta.
  - simpl. rewrite app_nil_r_string.
    split; [done|]. split; [lia|]. split; [lia|]. split; [lia|].
    apply stats_le_refl.
  - cbn [fold_left].
    destruct (process_row_spec s row) as (Hw & Hn & Hf & Ht & He & Hle).
    destruct (IH (EnronRun.process_row s row)) as (Hw' & Hn' & Ht' & He' & Hle');
      [lia|].
    assert (Happ : EnronOut.entries (row :: chunk)
                   = (EnronOut.entries [row] ++ EnronOut.entries chunk)%list).
    { rewrite !entries_cons. by destruct (EnronOut.entry row). }
    rewrite Happ.
    rewrite Hw', (Hf Hp), Hn', Ht', He', Hw, Hn, Ht, He, length_app, render_app.
    rewrite app_assoc_string. simpl length.
    split; [done|]. split; [lia|]. split; [lia|].
    split; [lia|]. by eapply stats_le_trans.
Qed.

Lemma process_chunk_spec chunk first st :
  let '(w, n, st') := EnronRun.process_chunk chunk first st in
  let es := EnronOut.entries chunk in
  w = EnronOut.render first es
  /\ n = Z.of_nat (length es)
  /\ EnronRun.total_rows st' = EnronRun.total_rows st + Z.of_nat (length chunk)
  /\ EnronRun.processed_emails st'
     = EnronRun.processed_emails st + Z.of_nat (length es)
  /\ EnronOut.stats_le st st'.
Proof.
  unfold EnronRun.process_chunk. cbv zeta.
  destruct (process_rows_spec chunk (EnronRun.ChunkState "" 0 first st))
    as (Hw & Hn & Ht & He & Hle); [done|].
  simpl in Hw, Hn, Ht, He, Hle. rewrite andb_true_r in Hw.
  split; [exact Hw|]. split; [lia|]. split; [exact Ht|]. split; [exact He|].
  exact Hle.
Qed.

(** [process_chunk] writes the entries of its rows in order, each after a
    comma but the first one of a first chunk; it returns their number, and
    counts every row and every entry in [stats], where no counter goes
    down. *)
Theorem process_chunk_writes_the_entries chunk first st :
  let '(w, n, st') := EnronRun.process_chunk chunk first st in
  let es := EnronOut.entries chunk in
  w = EnronOut.render first es
  /\ n = Z.of_nat (length es)
  /\ EnronRun.total_rows st' = EnronRun.total_rows st + Z.of_nat (length chunk)
  /\ EnronRun.processed_emails st'
     = EnronRun.processed_emails st + Z.of_nat (length es)
  /\ EnronOut.stats_le st st'.
Proof. exact (process_chunk_spec chunk first st). Qed.

(** ** The reading loop of [main] *)

Lemma entries_app a b :
  EnronOut.entries (a ++ b) = (EnronOut.entries a ++ EnronOut.entries b)%list.
Proof. apply omap_app. Qed.

Lemma chunk_len_pos cs : 1 <= EnronOut.chunk_len cs.
Proof. unfold EnronOut.chunk_len. lia. Qed.

Lemma body_app cs fl ch :
  (fl = [] -> Z.of_nat (length ch) <= EnronOut.chunk_len cs) ->
  (fl <> [] -> EnronOut.chunk_len cs <= Z.of_nat (length fl)) ->
  EnronOut.body cs (fl ++ ch)
  = EnronOut.body cs fl
    ++ EnronOut.render (bool_decide (fl = [])) (EnronOut.entries ch).
Proof.
  intros Hnil Hcons. unfold EnronOut.body. cbv zeta.
  destruct fl as [|r fl].
  - specialize (Hnil eq_refl). simpl app.
    rewrite take_ge, drop_ge by lia. rewrite take_nil, drop_nil.
    simpl. by rewrite app_nil_r_string.
  - assert (Hlen : (Z.to_nat (EnronOut.chunk_len cs) <= length (r :: fl))%nat)
      by (specialize (Hcons ltac:(done)); lia).
    rewrite take_app_le, drop_app_le by exact Hlen.
    rewrite entries_app, render_app, app_assoc_string.
    by rewrite (bool_decide_eq_false_2 (r :: fl = [])).
Qed.

Lemma stop_at_multiple cs L :
  exists q, 1 <= q /\ EnronOut.stop_at cs L = q * EnronOut.chunk_len cs.
Proof.
  unfold EnronOut.stop_at. cbv zeta.
  exists (Z.max 1 ((L + EnronOut.chunk_len cs - 1) / EnronOut.chunk_len cs)).
  split; lia.
Qed.

Lemma stop_at_reached cs L j :
  0 <= j ->
  j * EnronOut.chunk_len cs < EnronOut.stop_at cs L ->
  ((j + 1) * EnronOut.chunk_len cs >= L
   <-> (j + 1) * EnronOut.chunk_len cs = EnronOut.stop_at cs L).
Proof.
  unfold EnronOut.stop_at. cbv zeta.
  pose proof (chunk_len_pos cs) as Hc.
  set (c := EnronOut.chunk_len cs) in *.
  pose proof (Z.div_mod (L + c - 1) c ltac:(lia)) as Hdm.
  pose proof (Z.mod_pos_bound (L + c - 1) c ltac:(lia)) as Hmod.
  set (q := (L + c - 1) / c) in *.
  intros Hj Hlt.
  assert (HjM : j < Z.max 1 q) by nia.
  destruct (Z.max_spec 1 q) as [[Hq HM]|[Hq HM]]; rewrite HM in *.
  - split; intros H.
    + assert (j + 1 = q) by nia. nia.
    + nia.
  - split; intros H.
    + assert (j = 0) by lia. nia.
    + nia.
Qed.

Lemma next_multiple_le cs L j :
  j * EnronOut.chunk_len cs < EnronOut.stop_at cs L ->
  (j + 1) * EnronOut.chunk_len cs <= EnronOut.stop_at cs L.
Proof.
  destruct (stop_at_multiple cs L) as (q & Hq & ->).
  pose proof (chunk_len_pos cs) as Hc. intros Hlt.
  assert (j < q) by nia. nia.
Qed.

Lemma flushed_full {A} cs j (l : list A) :
  0 <= j ->
  Z.of_nat (length l) = j * EnronOut.chunk_len cs ->
  l <> [] ->
  EnronOut.chunk_len cs <= Z.of_nat (length l).
Proof.
  intros Hj Hlen Hne. destruct l as [|x l]; [done|].
  assert (Hpos : 0 < Z.of_nat (length (x :: l))) by (simpl length; lia).
  pose proof (chunk_len_pos cs) as Hc. rewrite Hlen in *.
  assert (1 <= j) by (destruct (Z.eq_dec j 0) as [->|]; lia).
  nia.
Qed.

Lemma flush_inv cs s flushed row :
  EnronOut.inv cs flushed s ->
  Z.of_nat (length (EnronRun.chunk s ++ [row])) >= cs ->
  let ch := (EnronRun.chunk s ++ [row])%list in
  EnronOut.inv cs (flushed ++ ch) (EnronRun.flush s ch)
  /\ EnronRun.chunk (EnronRun.flush s ch) = []
  /\ Z.of_nat (length ch) = EnronOut.chunk_len cs.
Proof.
  intros ((j & Hj & Hlen) & Hch & Hout & Hfirst & Hrows & Hproc & Htot) Hge.
  cbv zeta. set (ch := (EnronRun.chunk s ++ [row])%list) in *.
  assert (Hc : Z.of_nat (length ch) = EnronOut.chunk_len cs).
  { subst ch. rewrite length_app in *. simpl length in *.
    unfold EnronOut.chunk_len in *. lia. }
  unfold EnronRun.flush.
  pose proof (process_chunk_spec ch
                (EnronRun.main_first_chunk s
                 && (EnronRun.total_processed s =? 0))
                (EnronRun.rstats s)) as Hspec.
  destruct (EnronRun.process_chunk ch _ (EnronRun.rstats s)) as [[w n] st].
  cbv zeta in Hspec. destruct Hspec as (Hw & Hn & Ht & He & _).
  split; [|split; [done|exact Hc]].
  unfold EnronOut.inv. simpl.
  split; [exists (j + 1); rewrite length_app; lia|].
  split; [pose proof (chunk_len_pos cs); lia|].
  split.
  { rewrite Hout, Hw, Hfirst, app_assoc_string, body_app; [done|lia|].
    by apply (flushed_full cs j). }
  split.
  { symmetry. apply bool_decide_eq_false_2. subst ch.
    intros Heq. apply app_eq_nil in Heq as [_ Heq].
    by apply app_eq_nil in Heq as [_ Heq]. }
  rewrite entries_app, !length_app. repeat split; lia.
Qed.

Lemma read_rows_spec cs limit rows :
  forall s flushed,
    EnronOut.inv cs flushed s ->
    (EnronRun.limit_set limit = true ->
     Z.of_nat (length flushed) < EnronOut.stop_at cs (default 0 limit)) ->
    exists flushed',
      EnronOut.inv cs flushed' (EnronRun.read_rows cs limit rows s)
      /\ (flushed' ++ EnronRun.chunk (EnronRun.read_rows cs limit rows s))%list
         = EnronOut.rows_read cs limit
             (flushed ++ EnronRun.chunk s ++ rows)%list.
Proof.
  induction rows as [|row rows IH]; intros s flushed Hinv Hlim.
  - exists flushed. split; [exact Hinv|]. simpl. rewrite app_nil_r.
    unfold EnronOut.rows_read. destruct (EnronRun.limit_set limit); [|done].
    specialize (Hlim eq_refl).
    destruct Hinv as ((j & Hj & Hlen) & Hch & _).
    rewrite Hlen in Hlim. apply next_multiple_le in Hlim.
    rewrite take_ge; [done|]. rewrite length_app. lia.
  - cbn [EnronRun.read_rows]. cbv zeta.
    destruct (Z.of_nat (length (EnronRun.chunk s ++ [row])) >=? cs) eqn:Hge.
    + destruct (flush_inv cs s flushed row Hinv ltac:(lia))
        as (Hinv' & Hnil & Hc).
      pose proof Hinv as ((j & Hj & Hlen) & _).
      pose proof Hinv' as (_ & _ & _ & _ & Hrows & _).
      rewrite length_app, Nat2Z.inj_add, Hc, Hlen in Hrows.
      set (s1 := EnronRun.flush s (EnronRun.chunk s ++ [row])) in *.
      assert (Hall : (flushed ++ EnronRun.chunk s ++ row :: rows
                      = (flushed ++ EnronRun.chunk s ++ [row]) ++ rows)%list).
      { by rewrite <- !app_assoc. }
      destruct (EnronRun.limit_set limit) eqn:Hset; cbn [andb].
      * specialize (Hlim eq_refl). rewrite Hlen in Hlim.
        pose proof (stop_at_reached cs (default 0 limit) j Hj Hlim) as Hiff.
        destruct (EnronRun.total_rows (EnronRun.rstats s1)
                  >=? default 0 limit) eqn:Hstop.
        -- exists (flushed ++ EnronRun.chunk s ++ [row])%list.
           split; [exact Hinv'|]. rewrite Hnil, app_nil_r.
           unfold EnronOut.rows_read. rewrite Hset, Hall.
           rewrite take_app_length'; [done|].
           rewrite length_app. lia.
        -- destruct (IH s1 (flushed ++ EnronRun.chunk s ++ [row])%list Hinv')
             as (fl' & Hfl' & Heq).
           { intros _. rewrite length_app, Nat2Z.inj_add, Hc, Hlen.
             pose proof (next_multiple_le _ _ _ Hlim). lia. }
           exists fl'. split; [exact Hfl'|].
           by rewrite Heq, Hnil, Hall.
      * destruct (IH s1 (flushed ++ EnronRun.chunk s ++ [row])%list Hinv')
          as (fl' & Hfl' & Heq); [done|].
        exists fl'. split; [exact Hfl'|]. by rewrite Heq, Hnil, Hall.
    + destruct (IH (EnronRun.RunState (EnronRun.chunk s ++ [row])
                      (EnronRun.main_first_chunk s)
                      (EnronRun.total_processed s) (EnronRun.out s)
                      (EnronRun.rstats s)) flushed) as (fl' & Hfl' & Heq).
      * destruct Hinv as (Hj & Hch & Hrest). split; [exact Hj|].
        split; [|exact Hrest]. simpl. unfold EnronOut.chunk_len. lia.
      * exact Hlim.
      * exists fl'. split; [exact Hfl'|]. rewrite Heq. simpl.
        by rewrite <- app_assoc.
Qed.

Lemma init_inv cs :
  EnronOut.inv cs [] (EnronRun.RunState [] true 0 "[" EnronRun.stats_init).
Proof.
  unfold EnronOut.inv. simpl.
  split; [exists 0; lia|]. split; [pose proof (chunk_len_pos cs); lia|].
  split; [|done]. unfold EnronOut.body. by rewrite take_nil, drop_nil.
Qed.

Lemma main_spec cs limit rows :
  let read := EnronOut.rows_read cs limit rows in
  fst (EnronRun.main cs limit rows)
  = "[" ++ EnronOut.body cs read ++ String "010" "]"
  /\ EnronRun.total_rows (snd (EnronRun.main cs limit rows))
     = Z.of_nat (length read)
  /\ EnronRun.processed_emails (snd (EnronRun.main cs limit rows))
     = Z.of_nat (length (EnronOut.entries read)).
Proof.
  cbv zeta. unfold EnronRun.main.
  destruct (read_rows_spec cs limit rows _ [] (init_inv cs))
    as (fl & Hinv & Heq).
  { intros _. simpl.
    destruct (stop_at_multiple cs (default 0 limit)) as (q & Hq & Hq').
    pose proof (chunk_len_pos cs). nia. }
  simpl app in Heq. rewrite <- Heq.
  set (s := EnronRun.read_rows cs limit rows _) in *.
  destruct Hinv as ((j & Hj & Hlen) & Hch & Hout & Hfirst & Hrows & Hproc & _).
  destruct (EnronRun.chunk s) as [|r ch] eqn:Hchunk.
  - simpl. rewrite app_nil_r, Hout, app_assoc_string. done.
  - pose proof (process_chunk_spec (r :: ch)
                  (EnronRun.main_first_chunk s
                   && (EnronRun.total_processed s =? 0))
                  (EnronRun.rstats s)) as Hspec.
    destruct (EnronRun.process_chunk (r :: ch) _ (EnronRun.rstats s))
      as [[w n] st].
    cbv zeta in Hspec. destruct Hspec as (Hw & Hn & Ht & He & _).
    simpl fst. simpl snd. cbn [EnronRun.out EnronRun.rstats].
    rewrite Hout, Hw, Hfirst, body_app, entries_app, !length_app.
    + rewrite !app_assoc_string. repeat split; lia.
    + lia.
    + by apply (flushed_full cs j).
Qed.

(** [main] writes an opening bracket, the entries of the rows it read, the
    first chunk as a first chunk and every later row after a comma, and a
    closing bracket on a line of its own; [stats] counts the rows read and
    the entries written.  Without a limit every row is read. *)
Theorem main_writes_the_rows_read cs limit rows :
  let read := EnronOut.rows_read cs limit rows in
  fst (EnronRun.main cs limit rows)
  = "[" ++ EnronOut.body cs read ++ String "010" "]"
  /\ EnronRun.total_rows (snd (EnronRun.main cs limit rows))
     = Z.of_nat (length read)
  /\ EnronRun.processed_emails (snd (EnronRun.main cs limit rows))
     = Z.of_nat (length (EnronOut.entries read)).
Proof. exact (main_spec cs limit rows). Qed.

(** A limit is looked at only when a chunk has been processed: [main]
    reads rows up to the first chunk boundary at or after the limit, which
    is less than one chunk past it, or every row if there are fewer. *)
Theorem limit_is_checked_at_chunk_ends cs L rows :
  1 <= L ->
  EnronRun.total_rows (snd (EnronRun.main cs (Some L) rows))
  = Z.min (Z.of_nat (length rows)) (EnronOut.stop_at cs L)
  /\ L <= EnronOut.stop_at cs L < L + EnronOut.chunk_len cs
  /\ EnronOut.stop_at cs L mod EnronOut.chunk_len cs = 0.
Proof.
  intros HL.
  destruct (main_spec cs (Some L) rows) as (_ & Hrows & _).
  rewrite Hrows. unfold EnronOut.rows_read, EnronRun.limit_set.
  assert (HL0 : (L =? 0) = false) by lia. rewrite HL0. cbn [negb].
  change (default 0 (Some L)) with L.
  pose proof (chunk_len_pos cs) as Hc.
  assert (Hbounds : L <= EnronOut.stop_at cs L < L + EnronOut.chunk_len cs).
  { unfold EnronOut.stop_at. cbv zeta.
    set (c := EnronOut.chunk_len cs) in *.
    pose proof (Z.div_mod (L + c - 1) c ltac:(lia)) as Hdm.
    pose proof (Z.mod_pos_bound (L + c - 1) c ltac:(lia)) as Hmod.
    set (q := (L + c - 1) / c) in *.
    assert (1 <= q) by nia.
    rewrite Z.max_r by lia. lia. }
  split; [rewrite length_take; lia|]. split; [exact Hbounds|].
  destruct (stop_at_multiple cs L) as (q & _ & ->).
  apply Z.mod_mul. lia.
Qed.

Lemma limit_is_checked_at_chunk_ends_witness :
  EnronRun.total_rows
    (snd (EnronRun.main 2 (Some 3) [None; None; None; None; None])) = 4.
Proof.
  destruct (limit_is_checked_at_chunk_ends 2 3 [None; None; None; None; None])
    as (H & _); [lia|].
  rewrite H. reflexivity.
Defined.

Lemma body_joined cs read :
  EnronOut.entries (take (Z.to_nat (EnronOut.chunk_len cs)) read) <> []
  \/ EnronOut.entries (drop (Z.to_nat (EnronOut.chunk_len cs)) read) = [] ->
  EnronOut.body cs read = EnronOut.render true (EnronOut.entries read).
Proof.
  intros H. unfold EnronOut.body. cbv zeta.
  rewrite <- (take_drop (Z.to_nat (EnronOut.chunk_len cs)) read) at 3.
  rewrite entries_app, render_app.
  destruct H as [H|H].
  - by rewrite bool_decide_eq_false_2.
  - rewrite H. by destruct (bool_decide _).
Qed.

(** If the first chunk gives an entry, or no later chunk does, the output
    file holds the entries of the rows read as one list: the first entry
    after the bracket, a comma before each other one. *)
Theorem output_is_one_list_when_the_first_chunk_has_an_entry cs limit rows :
  let read := EnronOut.rows_read cs limit rows in
  let c := Z.to_nat (EnronOut.chunk_len cs) in
  EnronOut.entries (take c read) <> [] \/ EnronOut.entries (drop c read) = [] ->
  fst (EnronRun.main cs limit rows)
  = "[" ++ EnronOut.render true (EnronOut.entries read) ++ String "010" "]".
Proof.
  cbv zeta. intros H.
  destruct (main_spec cs limit rows) as (Hout & _).
  by rewrite Hout, body_joined.
Qed.

Lemma output_is_one_list_witness :
  fst (EnronRun.main 1 None
         [Some ("Subject: hi" ++ String "010" (String "010" "text"))])
  = "[" ++ EnronOut.render true
             (EnronOut.entries
                [Some ("Subject: hi" ++ String "010" (String "010" "text"))])
    ++ String "010" "]".
Proof.
  apply (output_is_one_list_when_the_first_chunk_has_an_entry 1 None
           [Some ("Subject: hi" ++ String "010" (String "010" "text"))]).
  left. by vm_compute.
Defined.

(** If the first chunk gives no entry and a later one does, the output
    file has a comma right after its opening bracket. *)
Theorem output_starts_with_a_comma_when_the_first_chunk_is_empty
    cs limit rows :
  let read := EnronOut.rows_read cs limit rows in
  let c := Z.to_nat (EnronOut.chunk_len cs) in
  EnronOut.entries (take c read) = [] ->
  EnronOut.entries (drop c read) <> [] ->
  exists rest, fst (EnronRun.main cs limit rows) = "[," ++ rest.
Proof.
  cbv zeta. intros Hfirst Hlater.
  destruct (main_spec cs limit rows) as (Hout & _).
  rewrite Hout. unfold EnronOut.body. cbv zeta. rewrite Hfirst.
  destruct (EnronOut.entries (drop _ _)) as [|e es]; [done|].
  by eexists.
Qed.

Lemma output_starts_with_a_comma_witness :
  exists rest,
    fst (EnronRun.main 1 None
           [None; Some ("Subject: hi" ++ String "010" (String "010" "text"))])
    = "[," ++ rest.
Proof.
  apply (output_starts_with_a_comma_when_the_first_chunk_is_empty 1 None
           [None; Some ("Subject: hi" ++ String "010" (String "010" "text"))]).
  - by vm_compute.
  - by vm_compute.
Defined.

(** ** [parse_email_message]: headers and body *)

Lemma parse_line_body st line :
  Enron.in_body st = true ->
  Enron.parse_line st line
  = Enron.PState (Enron.headers st) (Enron.body_lines st ++ [line]) true.
Proof. unfold Enron.parse_line. by intros ->. Qed.

Lemma parse_body_lines post :
  forall st,
    Enron.in_body st = true ->
    fold_left Enron.parse_line post st
    = Enron.PState (Enron.headers st) (Enron.body_lines st ++ post) true.
Proof.
  induction post as [|x post IH]; intros st Hb.
  - simpl. rewrite app_nil_r. by destruct st as [h b []].
  - cbn [fold_left]. rewrite parse_line_body by done.
    rewrite IH by done. simpl. by rewrite <- app_assoc.
Qed.

Lemma parse_line_header_body st line :
  Enron.in_body st = false -> Lines.blank line = false ->
  Enron.body_lines (Enron.parse_line st line) = Enron.body_lines st.
Proof.
  unfold Lines.blank, Enron.parse_line. intros Hb ->. rewrite Hb.
  repeat case_match; done.
Qed.

Lemma parse_headers_no_body pre :
  forall st,
    Enron.in_body st = false ->
    Forall (fun x => Lines.blank x = false) pre ->
    Enron.body_lines (fold_left Enron.parse_line pre st) = Enron.body_lines st.
Proof.
  induction pre as [|x pre IH]; intros st Hb Hall; [done|].
  apply Forall_cons in Hall as [Hx Hpre]. cbn [fold_left].
  rewrite IH; [by apply parse_line_header_body| |done].
  by apply parse_line_header.
Qed.

Lemma parse_line_blank st line :
  Enron.in_body st = false -> Lines.blank line = true ->
  Enron.parse_line st line
  = Enron.PState (Enron.headers st) (Enron.body_lines st) true.
Proof. unfold Lines.blank, Enron.parse_line. by intros -> ->. Qed.

(** The first blank line ends the headers for good: the header fields of
    the record are those of the lines before it, whatever follows, and the
    body is the text after it, stripped; lines before it never reach the
    body. *)
Theorem lines_after_the_first_blank_line_are_body :
  forall (hdr post : list string) (sep : string),
    Forall (fun x => Lines.one_line x = true) (hdr ++ sep :: post) ->
    Forall (fun x => Lines.blank x = false) hdr ->
    Lines.blank sep = true ->
    let message := PyStr.join "010" (hdr ++ sep :: post) in
    let h := Enron.parse_lines hdr in
    Enron.body h = ""
    /\ Enron.parse_email_message message
       = if String.eqb message "" then None
         else Some (Enron.Parsed (Enron.from_addr h) (Enron.to_addr h)
                      (Enron.subject h) (Enron.date h) (Enron.message_id h)
                      (PyStr.strip (PyStr.join "010" post))).
Proof.
  intros hdr post sep Hone Hhdr Hsep. cbv zeta.
  pose proof (parse_headers_stay hdr (Enron.PState ∅ [] false) eq_refl Hhdr)
    as Hin.
  pose proof (parse_headers_no_body hdr (Enron.PState ∅ [] false) eq_refl Hhdr)
    as Hbody.
  simpl in Hbody.
  split.
  { unfold Enron.parse_lines. simpl. by rewrite Hbody. }
  unfold Enron.parse_email_message.
  destruct (String.eqb (PyStr.join "010" (hdr ++ sep :: post)) ""); [done|].
  rewrite split_join.
  - unfold Enron.parse_lines. rewrite fold_left_app. cbn [fold_left].
    rewrite parse_line_blank by done.
    rewrite parse_body_lines by done. simpl. by rewrite Hbody.
  - by destruct hdr.
  - eapply Forall_impl; [exact Hone|]. intros x.
    unfold Lines.one_line. by rewrite negb_true_iff.
Qed.

Lemma lines_after_the_first_blank_line_witness :
  Enron.parse_email_message
    (PyStr.join "010" (["From: a@b.com"] ++ "" :: ["Subject: late"; "text"]))
  = Some (Enron.Parsed "a@b.com" "" "" "" ""
            ("Subject: late" ++ String "010" "text")).
Proof.
  destruct (lines_after_the_first_blank_line_are_body
              ["From: a@b.com"] ["Subject: late"; "text"] "") as [_ H].
  - apply (bool_decide_unpack _). by_eval.
  - apply (bool_decide_unpack _). by_eval.
  - by_eval.
  - rewrite H. by_eval.
Defined.

(** ** [process_directory] *)

Lemma cap_within limit (l : list PersonalRun.email) :
  (PersonalRun.truthy limit = true ->
   Z.of_nat (length l) <= Z.max 0 (default 0 limit)) ->
  Export_.cap limit l = l.
Proof.
  unfold Export_.cap. intros H.
  destruct (PersonalRun.truthy limit); [|done].
  specialize (H eq_refl). destruct l as [|x l]; [by rewrite take_nil|].
  simpl length in H. apply take_ge. simpl length. lia.
Qed.

Lemma cap_is_within limit (l : list PersonalRun.email) :
  PersonalRun.truthy limit = true ->
  Z.of_nat (length (Export_.cap limit l)) <= Z.max 0 (default 0 limit).
Proof.
  unfold Export_.cap. intros ->. rewrite length_take. lia.
Qed.

Lemma cap_cap_app limit (l k : list PersonalRun.email) :
  Export_.cap limit (Export_.cap limit l ++ k) = Export_.cap limit (l ++ k).
Proof.
  unfold Export_.cap. destruct (PersonalRun.truthy limit); [|done].
  set (n := Z.to_nat (default 0 limit)).
  destruct (decide (length l <= n)%nat) as [Hle|Hgt].
  - by rewrite (take_ge l n).
  - rewrite take_app_length' by (rewrite length_take; lia).
    by rewrite take_app_le by lia.
Qed.

Lemma cap_reached limit (l k : list PersonalRun.email) :
  (PersonalRun.truthy limit = true ->
   Z.of_nat (length l) <= Z.max 0 (default 0 limit)) ->
  PersonalRun.reached limit (length l) = true ->
  Export_.cap limit (l ++ k) = l.
Proof.
  unfold PersonalRun.reached, Export_.cap. intros H Hr.
  apply andb_true_iff in Hr as [Ht Hge]. rewrite Ht. specialize (H Ht).
  apply Z.geb_le in Hge. apply take_app_length'. lia.
Qed.

Lemma not_reached limit (l : list PersonalRun.email) x :
  PersonalRun.reached limit (length l) = false ->
  PersonalRun.truthy limit = true ->
  Z.of_nat (length (l ++ [x])) <= Z.max 0 (default 0 limit).
Proof.
  unfold PersonalRun.reached. intros Hr Ht. rewrite Ht in Hr.
  rewrite length_app. simpl in *. lia.
Qed.

Lemma files_loop_spec limit files :
  forall emails stats,
    (PersonalRun.truthy limit = true ->
     Z.of_nat (length emails) <= Z.max 0 (default 0 limit)) ->
    PersonalRun.eml_processed stats + PersonalRun.mbox_processed stats
    = Z.of_nat (length emails) ->
    let st' := PersonalRun.files_loop limit files (emails, stats) in
    fst st' = Export_.cap limit (emails ++ Export_.readable files)
    /\ PersonalRun.eml_processed (snd st') + PersonalRun.mbox_processed (snd st')
       = Z.of_nat (length (fst st')).
Proof.
  induction files as [|file rest IH]; intros emails stats Hw Hs; cbv zeta.
  - simpl. rewrite app_nil_r. by rewrite cap_within.
  - cbn [PersonalRun.files_loop].
    destruct (PersonalRun.reached limit (length emails)) eqn:Hr.
    + simpl. by rewrite cap_reached.
    + unfold Export_.readable. cbn [omap list_omap].
      fold (Export_.readable rest).
      destruct (PersonalRun.parse_eml_file file) as [result|].
      * destruct (IH (emails ++ [result])%list
                    (PersonalRun.DStats
                       (PersonalRun.eml_processed stats + 1)
                       (PersonalRun.eml_errors stats)
                       (PersonalRun.mbox_processed stats)))
          as [H1 H2].
        -- by apply not_reached.
        -- rewrite length_app. simpl. lia.
        -- rewrite <- app_assoc in H1. done.
      * by apply IH.
Qed.

Lemma dirs_loop_spec e limit dirs :
  forall emails stats,
    (PersonalRun.truthy limit = true ->
     Z.of_nat (length emails) <= Z.max 0 (default 0 limit)) ->
    PersonalRun.eml_processed stats + PersonalRun.mbox_processed stats
    = Z.of_nat (length emails) ->
    let st' := PersonalRun.dirs_loop e limit dirs (emails, stats) in
    fst st' = Export_.cap limit (emails ++ Export_.eml_all e dirs)
    /\ PersonalRun.eml_processed (snd st') + PersonalRun.mbox_processed (snd st')
       = Z.of_nat (length (fst st')).
Proof.
  induction dirs as [|d rest IH]; intros emails stats Hw Hs; cbv zeta.
  - simpl. rewrite app_nil_r. by rewrite cap_within.
  - cbn [PersonalRun.dirs_loop]. unfold Export_.eml_all.
    cbn [map concat]. fold (Export_.eml_all e rest).
    destruct (PersonalRun.dir_exists e d); cbn [negb].
    + destruct (files_loop_spec limit (PersonalRun.eml_files e d)
                  emails stats Hw Hs) as [H1 H2].
      destruct (PersonalRun.files_loop limit (PersonalRun.eml_files e d)
                  (emails, stats)) as [em1 st1].
      cbn [fst snd] in *.
      rewrite app_assoc, <- cap_cap_app, <- H1.
      destruct (PersonalRun.reached limit (length em1)) eqn:Hr.
      * split; [|done]. cbn [fst]. rewrite cap_reached; [done| |done].
        intros Ht. rewrite H1. by apply cap_is_within.
      * apply IH; [|done]. intros Ht. rewrite H1. by apply cap_is_within.
    + by apply IH.
Qed.

Lemma parse_mbox_go_spec limit msgs :
  forall emails count,
    count = Z.of_nat (length emails) ->
    (PersonalRun.truthy limit = true ->
     Z.of_nat (length emails) <= Z.max 0 (default 0 limit)) ->
    PersonalRun.parse_mbox_go limit msgs emails count
    = Export_.cap limit (emails ++ Export_.readable msgs).
Proof.
  induction msgs as [|msg rest IH]; intros emails count -> Hw.
  - simpl. rewrite app_nil_r. by rewrite cap_within.
  - cbn [PersonalRun.parse_mbox_go].
    fold (PersonalRun.reached limit (length emails)).
    destruct (PersonalRun.reached limit (length emails)) eqn:Hr.
    + by rewrite cap_reached.
    + unfold Export_.readable. cbn [omap list_omap].
      fold (Export_.readable rest).
      destruct msg as [m|]; simpl PersonalRun.parse_eml_file; cbv iota beta.
      * rewrite IH.
        -- by rewrite <- app_assoc.
        -- rewrite length_app. simpl. lia.
        -- by apply not_reached.
      * by apply IH.
Qed.

Lemma mbox_loop_spec e limit files :
  forall emails stats,
    (PersonalRun.truthy limit = true ->
     Z.of_nat (length emails) <= Z.max 0 (default 0 limit)) ->
    PersonalRun.eml_processed stats + PersonalRun.mbox_processed stats
    = Z.of_nat (length emails) ->
    let st' := PersonalRun.mbox_loop e limit files (emails, stats) in
    fst st' = Export_.cap limit (emails ++ Export_.mbox_all e files)
    /\ PersonalRun.eml_processed (snd st') + PersonalRun.mbox_processed (snd st')
       = Z.of_nat (length (fst st')).
Proof.
  induction files as [|f rest IH]; intros emails stats Hw Hs; cbv zeta.
  - simpl. rewrite app_nil_r. by rewrite cap_within.
  - cbn [PersonalRun.mbox_loop]. unfold Export_.mbox_all.
    cbn [map concat]. fold (Export_.mbox_all e rest).
    destruct (PersonalRun.reached limit (length emails)) eqn:Hr.
    + simpl. by rewrite cap_reached.
    + destruct (PersonalRun.mbox_exists e f); cbn [negb].
      * set (X := Export_.readable (PersonalRun.mbox_messages e f)).
        set (remaining := if PersonalRun.truthy limit then _ else None).
        assert (Hnew : (emails
                        ++ PersonalRun.parse_mbox_file
                             (PersonalRun.mbox_messages e f) remaining)%list
                       = Export_.cap limit (emails ++ X)).
        { unfold PersonalRun.parse_mbox_file.
          rewrite parse_mbox_go_spec; [|done|simpl; lia]. fold X.
          simpl app. unfold Export_.cap, remaining, PersonalRun.reached in *.
          destruct (PersonalRun.truthy limit) eqn:Ht; [|done].
          specialize (Hw eq_refl). simpl in Hr.
          assert (Hrem : PersonalRun.truthy
                           (Some (default 0 limit
                                  - Z.of_nat (length emails))) = true).
          { simpl. apply negb_true_iff. lia. }
          rewrite Hrem. rewrite take_app.
          rewrite (take_ge emails) by lia. do 2 f_equal.
          change (default 0 (Some ?x)) with x. lia. }
        rewrite Hnew, (app_assoc emails X),
          <- (cap_cap_app limit (emails ++ X) (Export_.mbox_all e rest)).
        apply IH.
        -- intros Ht. by apply cap_is_within.
        -- rewrite <- Hnew, length_app. simpl. lia.
      * by apply IH.
Qed.

(** [process_directory] returns the records of the export in order, the
    directories before the mbox files, unreadable files and messages left
    out: all of them without a limit, exactly the first [limit] of them
    with one (none for a negative limit); the two [processed] counters add
    up to the number of records returned. *)
Theorem process_directory_takes_the_first_records e limit :
  let '(emails, stats) := PersonalRun.process_directory e limit in
  emails = Export_.cap limit (Export_.everything e)
  /\ PersonalRun.eml_processed stats + PersonalRun.mbox_processed stats
     = Z.of_nat (length emails).
Proof.
  unfold PersonalRun.process_directory, Export_.everything. cbv zeta.
  destruct (dirs_loop_spec e limit PersonalRun.eml_dirs []
              (PersonalRun.DStats 0 0 0)) as [H1 H2]; [simpl; lia|done|].
  destruct (PersonalRun.dirs_loop e limit PersonalRun.eml_dirs
              ([], PersonalRun.DStats 0 0 0)) as [em1 st1].
  cbn [fst snd] in *. simpl app in H1.
  assert (Hw : PersonalRun.truthy limit = true ->
               Z.of_nat (length em1) <= Z.max 0 (default 0 limit)).
  { intros Ht. rewrite H1. by apply cap_is_within. }
  rewrite <- cap_cap_app, <- H1.
  destruct (negb (PersonalRun.truthy limit)
            || (Z.of_nat (length em1) <? default 0 limit)) eqn:Hmore.
  - destruct (mbox_loop_spec e limit PersonalRun.mbox_files em1 st1 Hw H2)
      as [H3 H4].
    by destruct (PersonalRun.mbox_loop e limit PersonalRun.mbox_files
                   (em1, st1)).
  - apply orb_false_iff in Hmore as [Ht Hlt].
    apply negb_false_iff in Ht.
    rewrite cap_reached; [done|done|].
    unfold PersonalRun.reached. rewrite Ht. simpl. lia.
Qed.

(** With a limit of three the small export gives its two readable files
    and the first readable message of the mbox file that exists. *)
Example process_directory_small :
  map PersonalRun.subject
      (fst (PersonalRun.process_directory Export_.small (Some 3)))
  = ["a"; "b"; "c"]
  /\ map PersonalRun.from
         (fst (PersonalRun.process_directory Export_.small None))
     = ["unknown@example.com"; "unknown@example.com"; "unknown@example.com";
        "unknown@example.com"].
Proof. split; by_eval. Qed.

(** ** A scrubbed text under the validator *)

Lemma m_str {A} w :
  forall st (k : Re.mstate -> option A),
    Re.m true (Re.str w) st k
    = if Ci.starts w (Re.rest st) then k (Ci.skip w st) else None.
Proof.
  induction w as [|a w IH]; intros st k; [done|].
  destruct w as [|b w].
  - cbn [Re.m Re.str Re.lit Ci.starts Ci.skip].
    destruct (Re.rest st) as [|c s']; [done|].
    unfold Ci.eq_ci. destruct (Re.set_matches true [Re.Lit a] c); done.
  - change (Re.str (String a (String b w)))
      with (Re.Seq (Re.lit a) (Re.str (String b w))).
    cbn [Re.m Re.lit]. cbn [Ci.starts Ci.skip].
    destruct (Re.rest st) as [|c s']; [done|].
    unfold Ci.eq_ci. destruct (Re.set_matches true [Re.Lit a] c); [|done].
    rewrite IH. done.
Qed.

Lemma starts_app_skip a b :
  forall st,
    Ci.starts (a ++ b) (Re.rest st)
    = Ci.starts a (Re.rest st) && Ci.starts b (Re.rest (Ci.skip a st)).
Proof.
  induction a as [|x a IH]; intros st; [done|].
  change (String x a ++ b) with (String x (a ++ b)). cbn [Ci.starts Ci.skip].
  destruct (Re.rest st) as [|c s'] eqn:Hrest; [done|].
  rewrite <- andb_assoc. f_equal.
  apply (IH (Re.MState (Some c) s' (S (Re.pos st)) (Re.caps st))).
Qed.

Lemma pos_skip w :
  forall st,
    Ci.starts w (Re.rest st) = true ->
    Re.pos (Ci.skip w st) = (Re.pos st + String.length w)%nat.
Proof.
  induction w as [|x w IH]; intros st; simpl; [lia|].
  destruct (Re.rest st) as [|c s'] eqn:Hrest; [done|].
  intros H. apply andb_true_iff in H as [_ H].
  rewrite IH by done. simpl. lia.
Qed.

(** Where the validator's pattern matches, an address starts. *)
Lemma raw_enron_email_here pv s i :
  Re.match_here Validate.raw_enron_email false pv s i <> None ->
  Ci.enron_address s = true.
Proof.
  unfold Re.match_here, Validate.raw_enron_email, Ci.enron_address.
  cbn [Re.expr Re.ignorecase Re.m]. rewrite !m_str. cbn [Re.rest].
  destruct (Ci.starts "@enron.com" s); [done|].
  destruct (Ci.starts "@ect.enron.com" s); done.
Qed.

Lemma raw_enron_email_search s :
  forall pv i,
    Ci.anywhere Ci.enron_address s = false ->
    Re.search_go Validate.raw_enron_email pv s i = false.
Proof.
  induction s as [|c s IH]; intros pv i H; cbn [Ci.anywhere] in H;
    apply orb_false_iff in H as [H1 H2]; cbn [Re.search_go].
  - destruct (Re.match_here _ false pv "" i) eqn:Hm; [|done].
    rewrite (raw_enron_email_here pv "" i) in H1; [done|]. by rewrite Hm.
  - destruct (Re.match_here _ false pv (String c s) i) eqn:Hm; [|by apply IH].
    rewrite (raw_enron_email_here pv (String c s) i) in H1; [done|].
    by rewrite Hm.
Qed.

Lemma domain_tail_complete {A} st (k : Re.mstate -> option A) :
  (forall st', k st' <> None) ->
  Ci.starts "enron.com" (Re.rest st) = true ->
  Re.m true
    (Re.Seq (Re.str "enron.")
            (Re.Grp 2 (Re.Alt (Re.str "com") (Re.str "net")))) st k
  <> None.
Proof.
  intros Hk H.
  change "enron.com" with ("enron." ++ "com") in H.
  rewrite starts_app_skip in H. apply andb_true_iff in H as [H1 H2].
  cbn [Re.m]. rewrite m_str, H1. cbn [Re.m]. rewrite m_str.
  cbn [Re.rest]. rewrite H2.
  match goal with
  | |- match k ?st' with _ => _ end <> None =>
      pose proof (Hk st'); by destruct (k st')
  end.
Qed.

Lemma starts_cons a w c s :
  Ci.starts (String a w) (String c s) = Ci.eq_ci a c && Ci.starts w s.
Proof. done. Qed.

Lemma m_seq {A} ic r1 r2 st (k : Re.mstate -> option A) :
  Re.m ic (Re.Seq r1 r2) st k = Re.m ic r1 st (fun st' => Re.m ic r2 st' k).
Proof. done. Qed.

Lemma m_lit {A} a st (k : Re.mstate -> option A) :
  Re.m true (Re.lit a) st k
  = match Re.rest st with
    | String c s' =>
        if Ci.eq_ci a c
        then k (Re.MState (Some c) s' (S (Re.pos st)) (Re.caps st))
        else None
    | EmptyString => None
    end.
Proof. done. Qed.

Lemma m_opt {A} ic r st (k : Re.mstate -> option A) :
  Re.m ic (Re.opt r) st k
  = match Re.m ic r st
            (fun st' => if Nat.eqb (Re.pos st') (Re.pos st) then None
                        else k st') with
    | Some x => Some x
    | None => k st
    end.
Proof. done. Qed.

Lemma m_grp {A} ic g r st (k : Re.mstate -> option A) :
  Re.m ic (Re.Grp g r) st k
  = Re.m ic r st
      (fun st' => k (Re.MState (Re.prev st') (Re.rest st') (Re.pos st')
                       ((g, (Re.pos st, Re.pos st')) :: Re.caps st'))).
Proof. done. Qed.

(** Where an address starts, the pattern of the last substitution of
    [scrub_pii] matches. *)
Lemma domain_complete pv s i :
  Ci.enron_address s = true ->
  Re.match_here Enron.enron_domain_pattern false pv s i <> None.
Proof.
  intros H. unfold Re.match_here.
  change (Re.ignorecase Enron.enron_domain_pattern) with true.
  set (kf := fun st' : Re.mstate =>
               if false && Nat.eqb (Re.pos st') i then None else Some st').
  assert (Hkf : forall st', kf st' <> None) by done.
  assert (Hm : Re.m true (Re.expr Enron.enron_domain_pattern)
                 (Re.MState pv s i []) kf <> None);
    [|by destruct (Re.m true _ _ kf)].
  clearbody kf.
  change (Re.expr Enron.enron_domain_pattern)
    with (Re.Seq (Re.lit "@")
            (Re.Seq (Re.opt (Re.Grp 1 (Re.str "ect.")))
               (Re.Seq (Re.str "enron.")
                  (Re.Grp 2 (Re.Alt (Re.str "com") (Re.str "net")))))).
  set (tail := Re.Seq (Re.str "enron.") _).
  destruct s as [|c s']; [done|].
  unfold Ci.enron_address in H.
  rewrite (starts_cons "@" "enron.com"), (starts_cons "@" "ect.enron.com") in H.
  rewrite <- andb_orb_distrib_r in H. apply andb_true_iff in H as [Hat H].
  rewrite m_seq, m_lit. cbn [Re.rest Re.pos Re.caps]. rewrite Hat.
  set (st1 := Re.MState (Some c) s' (S i) []).
  rewrite m_seq, m_opt, m_grp, m_str.
  assert (Htail : forall st, Ci.starts "enron.com" (Re.rest st) = true ->
                    Re.m true tail st kf <> None).
  { intros st Hst. by apply domain_tail_complete. }
  destruct (Ci.starts "enron.com" s') eqn:Hshort.
  - pose proof (Htail st1 Hshort) as Hk1.
    match goal with
    | |- match ?X with _ => _ end <> None => by destruct X
    end.
  - cbn [orb] in H.
    change (Ci.starts "ect.enron.com" s')
      with (Ci.starts ("ect." ++ "enron.com") (Re.rest st1)) in H.
    rewrite (starts_app_skip "ect." "enron.com" st1) in H.
    apply andb_true_iff in H as [H1 H2].
    rewrite H1. cbn [Re.pos].
    rewrite (pos_skip "ect." st1 H1). cbn [Re.pos st1 String.length].
    replace (Nat.eqb (S i + 4) (S i)) with false
      by (symmetry; apply Nat.eqb_neq; lia).
    match goal with
    | |- match Re.m true tail ?st2 kf with _ => _ end <> None =>
        pose proof (Htail st2 H2) as Hk2; by destruct (Re.m true tail st2 kf)
    end.
Qed.

Lemma match_here_consumes p advance pv s i n mo :
  Re.match_here p advance pv s i = Some (n, mo) ->
  exists w, Re.accepts (Re.ignorecase p) (Re.expr p) w
            /\ n = String.length w.
Proof.
  unfold Re.match_here.
  destruct (Re.m _ _ _ _) as [st'|] eqn:Hm; [|done]. intros [= <- <-].
  apply m_sound in Hm as (st1 & w & Hk & Hrest & Hpos & Hw).
  destruct (advance && _); [done|]. injection Hk as ->.
  simpl in Hpos. exists w. split; [done|]. lia.
Qed.

Lemma domain_match_advances advance pv s i n mo :
  Re.match_here Enron.enron_domain_pattern advance pv s i = Some (n, mo) ->
  n <> 0%nat.
Proof.
  intros H. apply match_here_consumes in H as (w & Hw & ->).
  change (Re.expr Enron.enron_domain_pattern)
    with (Re.Seq (Re.lit "@")
            (Re.Seq (Re.opt (Re.Grp 1 (Re.str "ect.")))
               (Re.Seq (Re.str "enron.")
                  (Re.Grp 2 (Re.Alt (Re.str "com") (Re.str "net")))))) in Hw.
  cbn [Re.accepts] in Hw. destruct Hw as (w1 & w2 & -> & Hw1 & _).
  unfold Re.lit in Hw1. cbn [Re.accepts] in Hw1.
  destruct Hw1 as (c & -> & _). done.
Qed.

Lemma domain_no_match_at_end advance pv i :
  Re.match_here Enron.enron_domain_pattern advance pv "" i = None.
Proof. done. Qed.

Lemma anywhere_token o :
  Ci.anywhere Ci.enron_address ("@example.com" ++ o)
  = Ci.anywhere Ci.enron_address o.
Proof. done. Qed.

Lemma domain_sub_copies w :
  Ci.without "@" w = true ->
  forall s pv i,
    Ci.starts w
      (fst (Re.sub_go Enron.enron_domain_pattern
              (fun _ (u : unit) => ("@example.com", u)) pv s i 0 tt)) = true ->
    Ci.starts w s = true.
Proof.
  induction w as [|a w IH]; intros Hw s pv i H; [done|].
  cbn [Ci.without] in Hw. apply andb_true_iff in Hw as [Ha Hw].
  apply negb_true_iff in Ha.
  destruct s as [|c s']; cbn [Re.sub_go] in H.
  - by rewrite domain_no_match_at_end in H.
  - destruct (Re.match_here Enron.enron_domain_pattern false pv
                (String c s') i) as [[[|n] mo]|] eqn:Hm.
    + by apply domain_match_advances in Hm.
    + destruct (Re.sub_go _ _ (Some c) s' (S i) n tt) as [out σ2].
      cbn [fst] in H.
      change ("@example.com" ++ out)
        with (String "@" ("example.com" ++ out)) in H.
      rewrite starts_cons, Ha in H. done.
    + destruct (Re.sub_go _ _ (Some c) s' (S i) 0 tt) as [out σ1] eqn:Hout.
      cbn [fst] in H. rewrite starts_cons in H |- *.
      apply andb_true_iff in H as [Hc H]. rewrite Hc. cbn [andb].
      apply (IH Hw s' (Some c) (S i)). by rewrite Hout.
Qed.

(** After the last substitution of [scrub_pii] no address of the Enron
    domains starts anywhere in the text. *)
Lemma domain_sub_clean s :
  forall pv i skip,
    Ci.anywhere Ci.enron_address
      (fst (Re.sub_go Enron.enron_domain_pattern
              (fun _ (u : unit) => ("@example.com", u)) pv s i skip tt))
    = false.
Proof.
  induction s as [|c s' IH]; intros pv i [|skip]; cbn [Re.sub_go].
  - by rewrite domain_no_match_at_end.
  - done.
  - destruct (Re.match_here Enron.enron_domain_pattern false pv
                (String c s') i) as [[[|n] mo]|] eqn:Hm.
    + by apply domain_match_advances in Hm.
    + pose proof (IH (Some c) (S i) n) as Hout.
      destruct (Re.sub_go _ _ (Some c) s' (S i) n tt) as [out σ2].
      cbn [fst] in *. by rewrite anywhere_token.
    + pose proof (IH (Some c) (S i) 0%nat) as Hout.
      pose proof (fun w Hw => domain_sub_copies w Hw s' (Some c) (S i))
        as Hcopy.
      destruct (Re.sub_go _ _ (Some c) s' (S i) 0 tt) as [out σ1].
      cbn [fst] in *. cbn [Ci.anywhere]. rewrite Hout, orb_false_r.
      destruct (Ci.enron_address (String c out)) eqn:Haddr; [|done].
      exfalso. apply (domain_complete pv (String c s') i); [|exact Hm].
      unfold Ci.enron_address in *.
      rewrite (starts_cons "@" "enron.com"),
        (starts_cons "@" "ect.enron.com") in *.
      rewrite <- andb_orb_distrib_r in *.
      apply andb_true_iff in Haddr as [Hat Haddr]. rewrite Hat. cbn [andb].
      apply orb_true_iff in Haddr as [Haddr|Haddr].
      * by rewrite (Hcopy "enron.com" eq_refl Haddr).
      * rewrite (Hcopy "ect.enron.com" eq_refl Haddr). apply orb_true_r.
  - apply IH.
Qed.

Lemma scrub_text_no_enron_address t :
  Ci.anywhere Ci.enron_address (fst (Enron.scrub_text t)) = false.
Proof.
  unfold Enron.scrub_text.
  repeat match goal with
         | |- context [let '(_, _) := ?X in _] => destruct X
         end.
  cbn [fst]. unfold Re.sub_const, Re.sub. apply domain_sub_clean.
Qed.

Lemma scrub_pii_no_enron_address text :
  Ci.anywhere Ci.enron_address (default "" (fst (Enron.scrub_pii text)))
  = false.
Proof.
  destruct text as [[|c t]|]; [done| |done].
  unfold Enron.scrub_pii.
  pose proof (scrub_text_no_enron_address (String c t)) as H.
  by destruct (Enron.scrub_text (String c t)).
Qed.

(** The text [scrub_pii] returns holds no address of the Enron domains as
    the validator looks for them: its pattern [raw_enron_email] matches
    nowhere in it, whatever the input was. *)
Theorem scrubbed_text_passes_the_enron_address_check text :
  match fst (Enron.scrub_pii text) with
  | Some r => Re.search Validate.raw_enron_email r = false
  | None => text = None
  end.
Proof.
  pose proof (scrub_pii_no_enron_address text) as H.
  destruct (fst (Enron.scrub_pii text)) as [r|] eqn:Hr.
  - by apply raw_enron_email_search.
  - destruct text as [[|c t]|]; [done| |done].
    unfold Enron.scrub_pii in Hr. by destruct (Enron.scrub_text (String c t)).
Qed.

(** ** [validate_email] on the records of [process_email] *)

Lemma starts_take w :
  forall s n, Ci.starts w (PyStr.take n s) = true -> Ci.starts w s = true.
Proof.
  induction w as [|a w IH]; intros s n H; [done|].
  destruct n as [|n], s as [|c s]; try done.
  cbn [PyStr.take] in H. rewrite starts_cons in *.
  apply andb_true_iff in H as [-> H]. by apply (IH s n).
Qed.

Lemma no_enron_address_take s :
  forall n,
    Ci.anywhere Ci.enron_address s = false ->
    Ci.anywhere Ci.enron_address (PyStr.take n s) = false.
Proof.
  induction s as [|c s IH]; intros [|n] H; try done.
  cbn [Ci.anywhere] in H. apply orb_false_iff in H as [H1 H2].
  cbn [PyStr.take Ci.anywhere]. rewrite (IH n H2), orb_false_r.
  destruct (Ci.enron_address (String c (PyStr.take n s))) eqn:E; [|done].
  rewrite <- H1. symmetry. unfold Ci.enron_address in *.
  apply orb_true_iff in E as [E|E];
    apply (starts_take _ (String c s) (S n)) in E; rewrite E;
    [done|apply orb_true_r].
Qed.

Lemma starts_sep w c :
  Ci.without c w = true ->
  forall a b, Ci.starts w (a ++ String c b) = true -> Ci.starts w a = true.
Proof.
  induction w as [|x w IH]; intros Hw a b H; [done|].
  cbn [Ci.without] in Hw. apply andb_true_iff in Hw as [Hx Hw].
  apply negb_true_iff in Hx.
  destruct a as [|d a].
  - change ("" ++ String c b) with (String c b) in H.
    rewrite starts_cons, Hx in H. done.
  - change (String d a ++ String c b) with (String d (a ++ String c b)) in H.
    rewrite starts_cons in *. apply andb_true_iff in H as [-> H].
    by apply (IH Hw a b).
Qed.

Lemma no_enron_address_sep a b :
  Ci.anywhere Ci.enron_address a = false ->
  Ci.anywhere Ci.enron_address b = false ->
  Ci.anywhere Ci.enron_address (a ++ String " " b) = false.
Proof.
  intros Ha Hb. induction a as [|d a IH].
  - change ("" ++ String " " b) with (String " " b).
    cbn [Ci.anywhere]. by rewrite Hb.
  - cbn [Ci.anywhere] in Ha. apply orb_false_iff in Ha as [H1 H2].
    change (String d a ++ String " " b) with (String d (a ++ String " " b)).
    cbn [Ci.anywhere]. rewrite (IH H2), orb_false_r.
    destruct (Ci.enron_address (String d (a ++ String " " b))) eqn:E; [|done].
    rewrite <- H1. symmetry. unfold Ci.enron_address in *.
    apply orb_true_iff in E as [E|E].
    + apply (starts_sep "@enron.com" " " eq_refl (String d a) b) in E.
      by rewrite E.
    + apply (starts_sep "@ect.enron.com" " " eq_refl (String d a) b) in E.
      rewrite E. apply orb_true_r.
Qed.

Lemma findall_no_match p pick text :
  Re.search p text = false -> Validate.findall p pick text = [].
Proof. intros H. unfold Validate.findall. by rewrite sub_no_match. Qed.

Lemma findings_named (name other : string) (l : list string) :
  name <> other ->
  Forall (fun f : string * string => fst f <> other)
         (map (fun found => (name, found)) l).
Proof. intros H. induction l; simpl; by constructor. Qed.

Lemma check_pii_no_enron_address text :
  Ci.anywhere Ci.enron_address text = false ->
  Forall (fun f => fst f <> "raw_enron_email") (Validate.check_pii text).
Proof.
  intros H. unfold Validate.check_pii.
  destruct (String.eqb text ""); [done|].
  unfold Validate.PII_PATTERNS. cbn [map concat fst snd].
  rewrite findall_no_match by (by apply raw_enron_email_search).
  cbn [map app]. rewrite !Forall_app.
  repeat split; try done; by apply findings_named.
Qed.

Lemma or_default_no_enron_address text d :
  Ci.anywhere Ci.enron_address d = false ->
  Ci.anywhere Ci.enron_address
    (EnronRun.or_default (fst (Enron.scrub_pii text)) d) = false.
Proof.
  intros Hd. pose proof (scrub_pii_no_enron_address text) as H.
  by destruct (fst (Enron.scrub_pii text)) as [[|c r]|].
Qed.

(** A record that [process_email] returns gets no issue for a missing
    subject or sender from [validate_email], and none of its findings is
    one of the pattern [raw_enron_email]: the record is valid exactly if
    the SSN, card and name patterns find nothing. *)
Theorem validator_finds_no_enron_address_in_a_record :
  forall (parsed : Enron.parsed) (st : EnronRun.stats) (e : EnronRun.zero_email)
         (idx : Z),
    fst (EnronRun.process_email parsed st) = Some e ->
    let r := Validate.validate_email (Validate.of_record e) idx in
    Validate.issues r = []
    /\ Forall (fun f => fst f <> "raw_enron_email") (Validate.pii_found r)
    /\ Validate.valid r = bool_decide (Validate.pii_found r = []).
Proof.
  intros parsed st e idx He. cbv zeta.
  destruct (process_email_drops_only_anonymous_messages parsed st) as [_ H].
  destruct (H e He) as (Hs & Hf & _). clear H.
  rewrite process_email_result in He.
  destruct (_ && _); [done|].
  pose proof (or_default_no_enron_address (Some (Enron.subject parsed))
                "(No Subject)" eq_refl) as Hcs.
  pose proof (or_default_no_enron_address (Some (Enron.from_addr parsed))
                "unknown@example.com" eq_refl) as Hcf.
  assert (Hcb : Ci.anywhere Ci.enron_address
                  (if String.eqb (Enron.body parsed) "" then ""
                   else PyStr.prefix_slice 10000
                          (default "" (fst (Enron.scrub_pii
                                              (Some (Enron.body parsed))))))
                = false).
  { destruct (String.eqb (Enron.body parsed) ""); [done|].
    apply no_enron_address_take, scrub_pii_no_enron_address. }
  remember (EnronRun.or_default
              (fst (Enron.scrub_pii (Some (Enron.subject parsed))))
              "(No Subject)") as subj eqn:Esubj.
  remember (EnronRun.or_default
              (fst (Enron.scrub_pii (Some (Enron.from_addr parsed))))
              "unknown@example.com") as sender eqn:Esender.
  remember (if String.eqb (Enron.body parsed) "" then ""
            else PyStr.prefix_slice 10000
                   (default "" (fst (Enron.scrub_pii
                                       (Some (Enron.body parsed))))))
    as text eqn:Etext.
  clear Esubj Esender Etext. injection He as <-.
  cbn [EnronRun.subject EnronRun.from] in Hs, Hf.
  unfold Validate.validate_email, Validate.of_record.
  cbn [Validate.e_subject Validate.e_from Validate.e_body EnronRun.subject
       EnronRun.from EnronRun.body Validate.issues Validate.pii_found
       Validate.valid].
  assert (Hsub : forall x, x <> "" -> EnronRun.falsy (Some x) = false)
    by (by intros [|c x]).
  rewrite (Hsub _ Hs), (Hsub _ Hf). cbn [negb andb app].
  change (default "" (Some subj)) with subj.
  change (default "" (Some sender)) with sender.
  change (default "" (Some text)) with text.
  split; [done|]. split; [|done].
  apply check_pii_no_enron_address.
  apply (no_enron_address_sep subj (sender ++ " " ++ text) Hcs).
  by apply (no_enron_address_sep sender text).
Qed.

Lemma validator_finds_no_enron_address_witness :
  let parsed :=
    Enron.Parsed "ken@enron.com" "" "hello" "" "" "write to @ENRON.NET" in
  exists e,
    fst (EnronRun.process_email parsed EnronRun.stats_init) = Some e
    /\ Validate.issues (Validate.validate_email (Validate.of_record e) 0) = [].
Proof.
  intros parsed.
  destruct (fst (EnronRun.process_email parsed EnronRun.stats_init))
    as [e|] eqn:He; [|by vm_compute in He].
  exists e. split; [done|].
  by destruct (validator_finds_no_enron_address_in_a_record parsed
                 EnronRun.stats_init e 0 He) as (H & _).
Defined.
